(** Merkle sync core of the editor front end: a model of
    merkle-tree-service.ts, local-ingestion-service.ts and
    backend-chat-service.ts, and the properties established for it. *)

From Stdlib Require Import String Ascii NArith ZArith List Bool Lia Sorted Permutation.
Import ListNotations.
Set Warnings "-register-all".
Open Scope N_scope.

(** * JavaScript strings, UTF-8 and SHA-256 *)

(** A JavaScript string is a sequence of UTF-16 code units. *)
Definition jsstring := list N.

(** An ASCII literal as a JavaScript string. *)
Definition js (s : string) : jsstring := map N_of_ascii (list_ascii_of_string s).

(** TextEncoder.encode: the UTF-8 bytes of the code points of the string;
    a surrogate without its partner is encoded as U+FFFD. *)
Fixpoint utf8_encode (s : jsstring) : list N :=
  match s with
  | [] => []
  | c :: rest =>
      if c <? 0x80 then c :: utf8_encode rest
      else if c <? 0x800 then
        N.lor 0xC0 (N.shiftr c 6) :: N.lor 0x80 (N.land c 0x3F) :: utf8_encode rest
      else if (0xD800 <=? c) && (c <? 0xDC00) then
        match rest with
        | d :: rest' =>
            if (0xDC00 <=? d) && (d <? 0xE000) then
              let cp := 0x10000 + N.shiftl (c - 0xD800) 10 + (d - 0xDC00) in
              N.lor 0xF0 (N.shiftr cp 18)
                :: N.lor 0x80 (N.land (N.shiftr cp 12) 0x3F)
                :: N.lor 0x80 (N.land (N.shiftr cp 6) 0x3F)
                :: N.lor 0x80 (N.land cp 0x3F) :: utf8_encode rest'
            else 0xEF :: 0xBF :: 0xBD :: utf8_encode rest
        | [] => [0xEF; 0xBF; 0xBD]
        end
      else if (0xDC00 <=? c) && (c <? 0xE000) then
        0xEF :: 0xBF :: 0xBD :: utf8_encode rest
      else
        N.lor 0xE0 (N.shiftr c 12)
          :: N.lor 0x80 (N.land (N.shiftr c 6) 0x3F)
          :: N.lor 0x80 (N.land c 0x3F) :: utf8_encode rest
  end.

(** crypto.subtle.digest('SHA-256', data), after FIPS 180-4, on 32-bit words
    kept in N. *)
Module SHA256.
Definition mask32 : N := 0xFFFFFFFF.
Definition add32 (a b : N) : N := N.land (a + b) mask32.
Definition rotr (n x : N) : N :=
  N.lor (N.shiftr x n) (N.land (N.shiftl x (32 - n)) mask32).
Definition Ch (x y z : N) := N.lxor (N.land x y) (N.land (N.lxor x mask32) z).
Definition Maj (x y z : N) := N.lxor (N.lxor (N.land x y) (N.land x z)) (N.land y z).
Definition Sigma0 x := N.lxor (N.lxor (rotr 2 x) (rotr 13 x)) (rotr 22 x).
Definition Sigma1 x := N.lxor (N.lxor (rotr 6 x) (rotr 11 x)) (rotr 25 x).
Definition sigma0 x := N.lxor (N.lxor (rotr 7 x) (rotr 18 x)) (N.shiftr x 3).
Definition sigma1 x := N.lxor (N.lxor (rotr 17 x) (rotr 19 x)) (N.shiftr x 10).

(** The constants of FIPS 180-4: the first 32 bits of the fractional parts
    of the cube roots of the first 64 primes, and of the square roots of
    the first 8 primes. *)
Definition is_prime (n : nat) : bool :=
  forallb (fun d => negb (Nat.eqb (Nat.modulo n d) 0)) (seq 2 (n - 2)).

Definition primes : list N := map N.of_nat (filter is_prime (seq 2 310)).

Definition cube_root (n : N) : N :=
  fold_left (fun r b => let r' := r + N.shiftl 1 (N.of_nat b) in
                        if r' * r' * r' <=? n then r' else r)
            (rev (seq 0 36)) 0.

Definition K : list N :=
  map (fun p => N.land (cube_root (N.shiftl p 96)) mask32) primes.

Definition H0 : list N :=
  map (fun p => N.land (N.sqrt (N.shiftl p 64)) mask32) (firstn 8 primes).

Definition be_bytes (n : nat) (x : N) : list N :=
  map (fun i => N.land (N.shiftr x (8 * N.of_nat i)) 0xFF) (rev (seq 0 n)).

Definition pad (msg : list N) : list N :=
  let len := N.of_nat (length msg) in
  let k := (64 - ((len + 9) mod 64)) mod 64 in
  msg ++ [0x80] ++ repeat 0 (N.to_nat k) ++ be_bytes 8 (8 * len).

Fixpoint words (bs : list N) : list N :=
  match bs with
  | a :: b :: c :: d :: rest =>
      (N.shiftl a 24 + N.shiftl b 16 + N.shiftl c 8 + d) :: words rest
  | _ => []
  end.

Fixpoint blocks (fuel : nat) (ws : list N) : list (list N) :=
  match fuel, ws with
  | S fuel', _ :: _ => firstn 16 ws :: blocks fuel' (skipn 16 ws)
  | _, _ => []
  end.

Fixpoint extend (n : nat) (window : list N) : list N :=
  match n with
  | O => []
  | S n' =>
      let w := add32 (add32 (sigma1 (nth 14 window 0)) (nth 9 window 0))
                     (add32 (sigma0 (nth 1 window 0)) (nth 0 window 0)) in
      w :: extend n' (tl window ++ [w])
  end.

Definition schedule (block : list N) : list N := block ++ extend 48 block.

Definition round (st : list N) (kw : N * N) : list N :=
  match st with
  | [a; b; c; d; e; f; g; h] =>
      let t1 := add32 (add32 (add32 h (Sigma1 e)) (add32 (Ch e f g) (fst kw))) (snd kw) in
      let t2 := add32 (Sigma0 a) (Maj a b c) in
      [add32 t1 t2; a; b; c; add32 d t1; e; f; g]
  | _ => st
  end.

Definition compress (h : list N) (block : list N) : list N :=
  map (fun p => add32 (fst p) (snd p))
      (combine h (fold_left round (combine K (schedule block)) h)).

Definition digest (msg : list N) : list N :=
  let ws := words (pad msg) in
  flat_map (be_bytes 4) (fold_left compress (blocks (length ws) ws) H0).
End SHA256.

(** b.toString(16).padStart(2, '0') for each byte, joined. *)
Definition hex_digit (d : N) : N := if d <? 10 then 48 + d else 87 + d.
Definition hex_byte (b : N) : jsstring := [hex_digit (N.shiftr b 4); hex_digit (N.land b 0xF)].

Definition hashContent (content : jsstring) : jsstring :=
  flat_map hex_byte (SHA256.digest (utf8_encode content)).

(** * Strings, objects and arrays *)

(** [===] on strings. *)
Fixpoint str_eqb (a b : jsstring) : bool :=
  match a, b with
  | [], [] => true
  | x :: a', y :: b' => (x =? y) && str_eqb a' b'
  | _, _ => false
  end.

(** s.split(sep) for a one-unit separator: never empty. *)
Fixpoint String_split (sep : N) (s : jsstring) : list jsstring :=
  match s with
  | [] => [[]]
  | c :: rest =>
      if c =? sep then [] :: String_split sep rest
      else match String_split sep rest with
           | p :: ps => (c :: p) :: ps
           | [] => [[c]]
           end
  end.

Definition slash : N := 47.

(** An object used as a dictionary, or a Map: the keys stay in creation
    order and assigning to an existing key keeps its place. *)
Section Dict.
Context {V : Type}.
Fixpoint dict_get (k : jsstring) (d : list (jsstring * V)) : option V :=
  match d with
  | [] => None
  | (k', v) :: d' => if str_eqb k k' then Some v else dict_get k d'
  end.
Fixpoint dict_set (k : jsstring) (v : V) (d : list (jsstring * V)) : list (jsstring * V) :=
  match d with
  | [] => [(k, v)]
  | (k', v') :: d' => if str_eqb k k' then (k', v) :: d' else (k', v') :: dict_set k v d'
  end.
End Dict.

(** The keys that are canonical array indices ("0", "7", "42", below
    2^32 - 1) come first, in numeric order, when an object's properties are
    enumerated. *)
Fixpoint decimal_value (acc : N) (s : jsstring) : option N :=
  match s with
  | [] => Some acc
  | c :: rest => if (48 <=? c) && (c <=? 57) then decimal_value (10 * acc + (c - 48)) rest else None
  end.

Definition array_index (k : jsstring) : option N :=
  match k with
  | [] => None
  | c :: rest =>
      if (c =? 48) && negb (match rest with [] => true | _ => false end) then None
      else match decimal_value 0 k with
           | Some n => if n <? 4294967295 then Some n else None
           | None => None
           end
  end.

(** Array.prototype.sort is stable; for a consistent comparator its result
    is the one of this insertion sort. *)
Section Sorting.
Context {A : Type} (cmp : A -> A -> Z).
Fixpoint sort_insert (x : A) (l : list A) : list A :=
  match l with
  | [] => [x]
  | y :: l' => if (cmp x y <=? 0)%Z then x :: l else y :: sort_insert x l'
  end.
Definition Array_sort (l : list A) : list A := fold_right sort_insert [] l.
End Sorting.

(** Object.entries: array-index keys in ascending order, then the other
    keys in creation order. *)
Definition Object_entries {V} (d : list (jsstring * V)) : list (jsstring * V) :=
  let idx := flat_map (fun e => match array_index (fst e) with Some n => [(n, e)] | None => [] end) d in
  let rest := filter (fun e => match array_index (fst e) with Some _ => false | None => true end) d in
  map snd (Array_sort (fun a b => (Z.of_N (fst a) - Z.of_N (fst b))%Z) idx) ++ rest.

(** * merkle-tree-service.ts *)
Inductive NodeType := File | Directory.
Inductive ChangeType := Added | Modified | Deleted.

Inductive MerkleNodeJSON := mkMerkleNode {
  hash : jsstring;
  nodeType : NodeType;
  path : jsstring;
  size : Z;
  modifiedAt : Z;
  createdAt : Z;
  children : option (list MerkleNodeJSON);
  isLeaf : bool
}.

Record FileChange := mkFileChange {
  changeType : ChangeType;
  fc_path : jsstring;
  oldHash : option jsstring;
  newHash : option jsstring
}.

Record ChangeSummary := mkChangeSummary {
  added : Z; modified : Z; deleted : Z; total : Z
}.

Record FileInput := mkFileInput {
  fi_path : jsstring;
  fi_content : jsstring;
  fi_size : option Z;
  fi_lastModified : option Z
}.

Record MerkleSyncResult := mkMerkleSyncResult {
  changes : list FileChange;
  summary : ChangeSummary;
  filesToProcess : list jsstring;
  deletedFiles : list jsstring
}.

(** A NestedNode of type 'file'. *)
Record FileEntry := mkFileEntry {
  fe_content : jsstring;
  fe_size : option Z;
  fe_lastModified : Z
}.

(** A NestedNode. The children of a directory are held in an object
    literal: [own] are its own properties; reads go on through its
    prototype chain, and assigning the key __proto__ replaces the prototype
    instead of creating a property, so [proto] is the file node such an
    assignment has installed, if any. *)
Inductive NestedNode :=
| NFile (f : FileEntry)
| NDir (own : list (jsstring * NestedNode)) (proto : option FileEntry).

Definition Object_prototype_keys : list jsstring :=
  map js ["constructor"; "__defineGetter__"; "__defineSetter__"; "hasOwnProperty";
          "__lookupGetter__"; "__lookupSetter__"; "isPrototypeOf"; "propertyIsEnumerable";
          "toString"; "valueOf"; "toLocaleString"]%string.

Definition proto_key : jsstring := js "__proto__".

(** What current.children[part] yields where a directory is expected: a
    node of the structure, some other truthy value (inherited from the
    prototype chain, with no children of its own), or a falsy value. *)
Inductive Lookup := LNode (n : NestedNode) | LForeign | LFalsy.

(** [a || b] on numbers: undefined and 0 are falsy. *)
Definition truthy_number (z : Z) : bool := negb (z =? 0)%Z.
Definition or_default (v : option Z) (d : Z) : Z :=
  match v with Some z => if truthy_number z then z else d | None => d end.

Definition get_child (own : list (jsstring * NestedNode)) (proto : option FileEntry)
    (part : jsstring) : Lookup :=
  match dict_get part own with
  | Some n => LNode n
  | None =>
      if str_eqb part proto_key then LForeign
      else
        let inherited := if existsb (str_eqb part) Object_prototype_keys then LForeign else LFalsy in
        match proto with
        | None => inherited
        | Some f =>
            if str_eqb part (js "type") then LForeign
            else if str_eqb part (js "content") then
              match fe_content f with [] => LFalsy | _ => LForeign end
            else if str_eqb part (js "size") then
              match fe_size f with Some z => if truthy_number z then LForeign else LFalsy | None => LFalsy end
            else if str_eqb part (js "lastModified") then
              if truthy_number (fe_lastModified f) then LForeign else LFalsy
            else inherited
        end
  end.

Section Merkle.
(** Date.now(), read as one instant for the whole build, and
    String.prototype.localeCompare, the collation of the platform. *)
Variable Date_now : Z.
Variable localeCompare : jsstring -> jsstring -> Z.

(** hashDirectory; a {hash, path} record is the pair (hash, path). *)
Definition hashDirectory (children : list (jsstring * jsstring)) : jsstring :=
  let sorted := Array_sort (fun a b => localeCompare (snd a) (snd b)) children in
  let combined := concat (map (fun c => fst c ++ snd c) sorted) in
  hashContent combined.

Definition file_entry (file : FileInput) : FileEntry :=
  {| fe_content := fi_content file;
     fe_size := fi_size file;
     fe_lastModified := or_default (fi_lastModified file) Date_now |}.

(** The inner loop of buildNestedStructure for one file; [None] when it
    throws a TypeError because [current] has no [children]. *)
Fixpoint place (parts : list jsstring) (f : FileEntry) (current : NestedNode)
    : option NestedNode :=
  match parts with
  | [] => Some current
  | part :: later =>
      match current with
      | NFile _ => None
      | NDir own proto =>
          match later with
          | [] =>
              if str_eqb part proto_key then Some (NDir own (Some f))
              else Some (NDir (dict_set part (NFile f) own) proto)
          | _ :: _ =>
              match get_child own proto part with
              | LNode child =>
                  match place later f child with
                  | Some child' => Some (NDir (dict_set part child' own) proto)
                  | None => None
                  end
              | LFalsy =>
                  match place later f (NDir [] None) with
                  | Some child' => Some (NDir (dict_set part child' own) proto)
                  | None => None
                  end
              | LForeign => None
              end
          end
      end
  end.

Definition buildNestedStructure (files : list FileInput) : option NestedNode :=
  fold_left
    (fun root file =>
       match root with
       | Some r => place (String_split slash (fi_path file)) (file_entry file) r
       | None => None
       end)
    files (Some (NDir [] None)).

Definition childPath (parent name : jsstring) : jsstring :=
  if str_eqb parent (js "root") then name else parent ++ [slash] ++ name.

Definition byPath (a b : MerkleNodeJSON) : Z := localeCompare (path a) (path b).

(** The children are built in the order the object holds them and then
    taken in Object.entries order; the calls are pure, so this is the
    source's loop over Object.entries. *)
Fixpoint buildTreeFromNested (node : NestedNode) (nodePath : jsstring) : MerkleNodeJSON :=
  match node with
  | NFile f =>
      let byteLength := Z.of_nat (length (utf8_encode (fe_content f))) in
      {| hash := hashContent (fe_content f);
         nodeType := File;
         path := nodePath;
         size := match fe_size f with Some s => s | None => byteLength end;
         modifiedAt := (or_default (Some (fe_lastModified f)) Date_now / 1000)%Z;
         createdAt := (or_default (Some (fe_lastModified f)) Date_now / 1000)%Z;
         children := None;
         isLeaf := true |}
  | NDir own _ =>
      let built :=
        map (fun e => (fst e, buildTreeFromNested (snd e) (childPath nodePath (fst e)))) own in
      let children := Array_sort byPath (map snd (Object_entries built)) in
      {| hash := hashDirectory (map (fun c => (hash c, path c)) children);
         nodeType := Directory;
         path := nodePath;
         size := 0;
         modifiedAt := (Date_now / 1000)%Z;
         createdAt := (Date_now / 1000)%Z;
         children := Some children;
         isLeaf := false |}
  end.

Definition buildTreeFromFiles (files : list FileInput) : option MerkleNodeJSON :=
  match files with
  | [] =>
      Some {| hash := hashContent [];
              nodeType := Directory;
              path := js "root";
              size := 0;
              modifiedAt := (Date_now / 1000)%Z;
              createdAt := (Date_now / 1000)%Z;
              children := Some [];
              isLeaf := false |}
  | _ :: _ =>
      match buildNestedStructure files with
      | Some root => Some (buildTreeFromNested root (js "root"))
      | None => None
      end
  end.

Fixpoint collectAddedRecursive (node : MerkleNodeJSON) (changes : list FileChange)
    : list FileChange :=
  if isLeaf node then
    changes ++ [{| changeType := Added; fc_path := path node;
                   oldHash := None; newHash := Some (hash node) |}]
  else
    match children node with
    | Some cs => fold_left (fun acc child => collectAddedRecursive child acc) cs changes
    | None => changes
    end.

Fixpoint collectDeletedRecursive (node : MerkleNodeJSON) (changes : list FileChange)
    : list FileChange :=
  if isLeaf node then
    changes ++ [{| changeType := Deleted; fc_path := path node;
                   oldHash := Some (hash node); newHash := None |}]
  else
    match children node with
    | Some cs => fold_left (fun acc child => collectDeletedRecursive child acc) cs changes
    | None => changes
    end.

Fixpoint height (node : MerkleNodeJSON) : nat :=
  match children node with
  | Some cs => S (fold_right (fun child h => Nat.max (height child) h) O cs)
  | None => 1
  end.

Definition children_or_empty (node : MerkleNodeJSON) : list MerkleNodeJSON :=
  match children node with Some cs => cs | None => [] end.

Definition Map_of_children (cs : list MerkleNodeJSON) : list (jsstring * MerkleNodeJSON) :=
  fold_left (fun m child => dict_set (path child) child m) cs [].

(** The recursion goes down one level of [newNode] per call; [fuel] bounds
    it, and [None] is running out of it. *)
Fixpoint compareTreesRecursive (fuel : nat) (oldNode newNode : MerkleNodeJSON)
    (changes : list FileChange) : option (list FileChange) :=
  match fuel with
  | O => None
  | S fuel' =>
      if str_eqb (hash oldNode) (hash newNode) then Some changes
      else if isLeaf oldNode && isLeaf newNode then
        Some (changes ++ [{| changeType := Modified; fc_path := path newNode;
                             oldHash := Some (hash oldNode);
                             newHash := Some (hash newNode) |}])
      else if negb (isLeaf oldNode) && negb (isLeaf newNode) then
        let oldMap := Map_of_children (children_or_empty oldNode) in
        let newMap := Map_of_children (children_or_empty newNode) in
        let afterDeleted :=
          fold_left
            (fun acc e =>
               match dict_get (fst e) newMap with
               | Some _ => acc
               | None => collectDeletedRecursive (snd e) acc
               end)
            oldMap changes in
        fold_left
          (fun acc e =>
             match acc with
             | None => None
             | Some acc' =>
                 match dict_get (fst e) oldMap with
                 | Some oldChild =>
                     if negb (str_eqb (hash oldChild) (hash (snd e)))
                     then compareTreesRecursive fuel' oldChild (snd e) acc'
                     else Some acc'
                 | None => Some (collectAddedRecursive (snd e) acc')
                 end
             end)
          newMap (Some afterDeleted)
      else
        Some (collectAddedRecursive newNode (collectDeletedRecursive oldNode changes))
  end.

Definition summarizeChanges (changes : list FileChange) : ChangeSummary :=
  let counted :=
    fold_left
      (fun s change =>
         match changeType change with
         | Added => {| added := added s + 1; modified := modified s;
                       deleted := deleted s; total := total s |}
         | Modified => {| added := added s; modified := modified s + 1;
                          deleted := deleted s; total := total s |}
         | Deleted => {| added := added s; modified := modified s;
                         deleted := deleted s + 1; total := total s |}
         end)
      changes {| added := 0; modified := 0; deleted := 0; total := 0 |} in
  {| added := added counted; modified := modified counted; deleted := deleted counted;
     total := added counted + modified counted + deleted counted |}.

Definition getFilesToProcess (changes : list FileChange) : list jsstring :=
  map fc_path
      (filter (fun c => match changeType c with Added | Modified => true | Deleted => false end)
              changes).

Definition compareTrees (oldTree : option MerkleNodeJSON) (newTree : MerkleNodeJSON)
    : option MerkleSyncResult :=
  let changes :=
    match oldTree with
    | None => Some (collectAddedRecursive newTree [])
    | Some old =>
        if str_eqb (hash old) (hash newTree) then Some []
        else compareTreesRecursive (S (height newTree)) old newTree []
    end in
  match changes with
  | Some cs =>
      Some {| changes := cs;
              summary := summarizeChanges cs;
              filesToProcess := getFilesToProcess cs;
              deletedFiles :=
                map fc_path (filter (fun c => match changeType c with
                                              | Deleted => true | _ => false end) cs) |}
  | None => None
  end.
End Merkle.

(** * Notions used to state the properties *)

(** A consistent comparator, as Array.prototype.sort expects one: the sign
    flips with the arguments and "not after" is transitive. *)
Record Consistent {A : Type} (cmp : A -> A -> Z) : Prop := {
  cmp_flip : forall a b, Z.sgn (cmp b a) = (- Z.sgn (cmp a b))%Z;
  cmp_trans : forall a b c, (cmp a b <= 0)%Z -> (cmp b c <= 0)%Z -> (cmp a c <= 0)%Z
}.

Definition cmp_le {A : Type} (cmp : A -> A -> Z) (a b : A) : Prop := (cmp a b <= 0)%Z.

(** No two different elements of the list compare as equal. *)
Definition tie_free {A : Type} (cmp : A -> A -> Z) (l : list A) : Prop :=
  forall a b, In a l -> In b l -> cmp a b = 0%Z -> a = b.

(** All nodes of a tree, the root first. *)
Fixpoint subnodes (node : MerkleNodeJSON) : list MerkleNodeJSON :=
  node :: match children node with
          | Some cs => flat_map subnodes cs
          | None => []
          end.

(** Comparison of strings by UTF-16 code units, as [<] does it. *)
Fixpoint cu_compare (a b : jsstring) : Z :=
  match a, b with
  | [], [] => 0%Z
  | [], _ :: _ => (-1)%Z
  | _ :: _, [] => 1%Z
  | x :: a', y :: b' =>
      match (x ?= y)%N with
      | Lt => (-1)%Z
      | Gt => 1%Z
      | Eq => cu_compare a' b'
      end
  end.

Definition cu_lt (a b : jsstring) : Prop := (cu_compare a b < 0)%Z.

Definition lower_hex (c : N) : Prop := 48 <= c <= 57 \/ 97 <= c <= 102.

(** A collation to run the code with: on strings of ASCII letters it orders
    as the root collation of the platforms does, alphabetically without
    regard to case, lower case first among strings that differ in case
    only; other code units are ordered by value, before the letters or
    (from 128 on) after them. Keys are compared level by level, as sort
    keys are. *)
Definition is_upper (c : N) : bool := (65 <=? c) && (c <=? 90).
Definition is_lower (c : N) : bool := (97 <=? c) && (c <=? 122).

Definition primary_weight (c : N) : N :=
  if is_upper c then 1000 + (c + 32)
  else if is_lower c then 1000 + c
  else if c <? 128 then c + 1
  else 2000 + c.

Definition tertiary_weight (c : N) : N := if is_upper c then 1 else 0.

Definition sort_key (s : jsstring) : list N :=
  map primary_weight s ++ [0] ++ map tertiary_weight s.

Definition letterCollation (a b : jsstring) : Z := cu_compare (sort_key a) (sort_key b).

(** The files a nested structure holds, each with the names leading to it. *)
Fixpoint leaves (n : NestedNode) : list (list jsstring * FileEntry) :=
  match n with
  | NFile f => [([], f)]
  | NDir own _ =>
      flat_map (fun e => map (fun qf => (fst e :: fst qf, snd qf)) (leaves (snd e))) own
  end.

Definition is_prefix {A : Type} (a b : list A) : Prop := exists c, b = a ++ c.

(** Names that an empty object literal already answers to. *)
Definition reserved (part : jsstring) : Prop :=
  part = proto_key \/ In part Object_prototype_keys.

(** The conditions on a list of input files under which every file ends
    up in the tree under its own path. *)
Definition parts_of (file : FileInput) : list jsstring :=
  String_split slash (fi_path file).

Definition unreserved_paths (files : list FileInput) : Prop :=
  forall file part, In file files -> In part (parts_of file) -> ~ reserved part.

Definition no_nested_paths (files : list FileInput) : Prop :=
  forall f g, In f files -> In g files ->
    is_prefix (parts_of f) (parts_of g) -> fi_path f = fi_path g.

Definition no_root_directory (files : list FileInput) : Prop :=
  forall file rest, In file files -> parts_of file = js "root" :: rest -> rest = [].

Definition Array_join (sep : N) (parts : list jsstring) : jsstring :=
  match parts with
  | [] => []
  | p :: ps => p ++ concat (map (fun q => sep :: q) ps)
  end.

Definition added_change (file : FileInput) : FileChange :=
  {| changeType := Added; fc_path := fi_path file;
     oldHash := None; newHash := Some (hashContent (fi_content file)) |}.

Definition walk (parent : jsstring) (parts : list jsstring) : jsstring :=
  fold_left childPath parts parent.

Definition plainFile (p c : string) : FileInput :=
  {| fi_path := js p; fi_content := js c; fi_size := None; fi_lastModified := None |}.

(** Nested structures as the builder leaves them for such inputs: distinct
    keys, untouched prototypes, no directory without a file below it. *)
Inductive tidy : NestedNode -> Prop :=
| tidy_file f : tidy (NFile f)
| tidy_dir own :
    NoDup (map fst own) ->
    Forall (fun e => tidy (snd e) /\ leaves (snd e) <> []) own ->
    tidy (NDir own None).

Definition added_at (p : jsstring) (qf : list jsstring * FileEntry) : FileChange :=
  {| changeType := Added; fc_path := walk p (fst qf);
     oldHash := None; newHash := Some (hashContent (fe_content (snd qf))) |}.

Definition chunk (e : jsstring * NestedNode) : list (list jsstring * FileEntry) :=
  map (fun qf => (fst e :: fst qf, snd qf)) (leaves (snd e)).

Definition clear_of (parts : list jsstring) (L : list (list jsstring * FileEntry)) : Prop :=
  forall q g, In (q, g) L -> ~ is_prefix q parts /\ ~ is_prefix parts q.

Definition antichain (l : list (list jsstring)) : Prop :=
  NoDup l /\ forall a b, In a l -> In b l -> is_prefix a b -> a = b.

Definition sub (k : jsstring) (L : list (list jsstring * FileEntry))
    : list (list jsstring * FileEntry) :=
  flat_map (fun qf => match fst qf with
                      | k' :: q => if str_eqb k' k then [(q, snd qf)] else []
                      | [] => []
                      end) L.

(** No directory of a nested structure holds a name twice. *)
Inductive distinct_keys : NestedNode -> Prop :=
| distinct_file f : distinct_keys (NFile f)
| distinct_dir own proto :
    NoDup (map fst own) ->
    Forall (fun e => distinct_keys (snd e)) own ->
    distinct_keys (NDir own proto).

(** localeCompare tells the paths of the nodes of a tree apart. *)
Definition separated (localeCompare : jsstring -> jsstring -> Z) (t : MerkleNodeJSON) : Prop :=
  forall a b, In a (subnodes t) -> In b (subnodes t) ->
    localeCompare (path a) (path b) = 0%Z -> path a = path b.

Definition twoSources : list FileInput :=
  [plainFile "src/x.ts" "A"; plainFile "src/y.ts" "B"].

(** Induction over the two tree types. *)
Section NestedInduction.
Variable P : NestedNode -> Prop.
Hypothesis P_file : forall f, P (NFile f).
Hypothesis P_dir : forall own proto, Forall (fun e => P (snd e)) own -> P (NDir own proto).

Fixpoint NestedNode_induction (n : NestedNode) : P n :=
  match n with
  | NFile f => P_file f
  | NDir own proto =>
      P_dir own proto
        ((fix go (l : list (jsstring * NestedNode)) : Forall (fun e => P (snd e)) l :=
            match l with
            | [] => Forall_nil _
            | e :: l' => Forall_cons e (NestedNode_induction (snd e)) (go l')
            end) own)
  end.
End NestedInduction.

Section MerkleInduction.
Variable P : MerkleNodeJSON -> Prop.
Hypothesis P_node :
  forall h t p s m c cs l,
    (forall l', cs = Some l' -> Forall P l') ->
    P (mkMerkleNode h t p s m c cs l).

Fixpoint MerkleNode_induction (n : MerkleNodeJSON) : P n :=
  match n with
  | mkMerkleNode h t p s m c cs l =>
      P_node h t p s m c cs l
        (match cs return forall l', cs = Some l' -> Forall P l' with
         | None => fun l' E => match E in (_ = o) return
                                   (match o with None => True | Some _ => Forall P l' end)
                             with eq_refl => I end
         | Some l0 => fun l' E =>
             match E in (_ = o) return
                   (match o with Some l1 => Forall P l1 | None => True end)
             with eq_refl =>
               (fix go (l : list MerkleNodeJSON) : Forall P l :=
                  match l with
                  | [] => Forall_nil _
                  | x :: l' => Forall_cons x (MerkleNode_induction x) (go l')
                  end) l0
             end
         end)
  end.
End MerkleInduction.

(* ------------------------------------------------------------------ *)
(** * local-ingestion-service.ts *)

Definition String_startsWith (prefix s : jsstring) : bool :=
  str_eqb (firstn (length prefix) s) prefix.

Definition String_slice (start : nat) (s : jsstring) : jsstring := skipn start s.

Definition Set_has (s : list jsstring) (x : jsstring) : bool := existsb (str_eqb x) s.

(** [a || b] on strings: the empty string is the only falsy one. *)
Definition or_string (a : option jsstring) (b : jsstring) : jsstring :=
  match a with
  | Some (c :: s) => c :: s
  | _ => b
  end.

Module LocalIngestion.

Inductive IngestionStatus := pending | processing | completed | failed.

Record LocalProjectInfo := mkLocalProjectInfo {
  projectId : jsstring;
  localHash : jsstring;
  folderName : jsstring;
  folderPath : jsstring;
  ingestionStatus : IngestionStatus;
  totalFiles : Z;
  processedFiles : Z;
  totalChunks : Z;
  error : option jsstring
}.

Record ProgressCounts := mkProgressCounts {
  pc_total : Z; processed : Z; chunks : Z; percent : Z
}.

Record IngestionProgress := mkIngestionProgress {
  ip_projectId : jsstring;
  status : IngestionStatus;
  progress : option ProgressCounts;
  ip_error : option jsstring
}.

Record MerkleSyncResult := mkMerkleSyncResult {
  success : bool;
  changes : option (list (jsstring * jsstring));
  summary : option ChangeSummary;
  filesProcessed : option Z;
  filesDeleted : option Z;
  sr_error : option jsstring
}.

Definition CODE_EXTENSIONS : list jsstring :=
  map js [".js"; ".jsx"; ".ts"; ".tsx"; ".py"; ".java"; ".cpp"; ".c"; ".h"; ".hpp";
          ".cs"; ".go"; ".rs"; ".rb"; ".php"; ".swift"; ".kt"; ".scala"; ".sh";
          ".sql"; ".html"; ".css"; ".scss"; ".json"; ".yaml"; ".yml"; ".xml"; ".md";
          ".txt"]%string.

Definition IGNORE_DIRS : list jsstring :=
  map js ["node_modules"; ".git"; ".next"; "dist"; "build"; "out"; "coverage";
          ".cache"; "vendor"; "target"; "__pycache__"; ".pytest_cache"; ".venv";
          "venv"]%string.

Definition IGNORE_EXTENSIONS : list jsstring :=
  map js [".png"; ".jpg"; ".jpeg"; ".gif"; ".svg"; ".ico"; ".webp";
          ".mp4"; ".mov"; ".avi"; ".mkv"; ".mp3"; ".wav"; ".ogg";
          ".zip"; ".tar"; ".gz"; ".rar"; ".7z"; ".pdf"; ".doc"; ".docx";
          ".exe"; ".dll"; ".so"; ".dylib"; ".lock"; ".log"; ".min.js"; ".min.css";
          ".map"]%string.

(** What the code reads of a URI: toString(), path.toString(), path.base
    and path.ext. *)
Record URI := mkURI {
  uri_string : jsstring;
  uri_path : jsstring;
  uri_base : jsstring;
  uri_ext : jsstring
}.

(** What fileService.resolve reports below a URI. *)
Inductive FsNode :=
| Unresolved (uri : URI)
| FsDirectory (uri : URI) (children : option (list FsNode))
| FsFile (uri : URI) (size : option Z)
| FsOther (uri : URI).

Definition resource (node : FsNode) : URI :=
  match node with
  | Unresolved u | FsDirectory u _ | FsFile u _ | FsOther u => u
  end.

Record CollectedFile := mkCollectedFile {
  cf_uri : URI; cf_path : jsstring; cf_size : Z
}.

(** HTTP exchanges. *)
Inductive Request :=
| PostCheck (folderPath folderName : jsstring)
| PostCreate (folderPath folderName : jsstring)
| PostInit (projectId : jsstring) (totalFiles : Z) (merkleTree : MerkleNodeJSON)
| PostFiles (projectId : jsstring) (files : list FileInput) (batchIndex totalBatches : Z)
| GetProgress (projectId : jsstring)
| PostMerkleSync (projectId : jsstring) (merkleTree : MerkleNodeJSON)
    (files : option (list (jsstring * jsstring))).

Inductive Json (B : Type) :=
| JsonValue (data : B)
| JsonRejects (message : jsstring).
Arguments JsonValue {B} data.
Arguments JsonRejects {B} message.

Inductive Reply (B : Type) :=
| NetworkError (message : jsstring)
| Response (ok : bool) (httpStatus : Z) (statusText : jsstring) (json : Json B).
Arguments NetworkError {B} message.
Arguments Response {B} ok httpStatus statusText json.

Record CheckBody := mkCheckBody {
  cb_exists : bool; cb_project : option LocalProjectInfo
}.
Record CreateBody := mkCreateBody {
  cr_projectId : jsstring; cr_localHash : jsstring
}.
Record FilesBody := mkFilesBody {
  totalProcessed : Z; fb_totalChunks : Z; isComplete : bool
}.
Record ProgressBody := mkProgressBody {
  pb_status : IngestionStatus;
  pb_progress : option ProgressCounts;
  pb_error : option jsstring
}.
Record SyncBody := mkSyncBody {
  sb_changes : option (list (jsstring * jsstring));
  sb_summary : option ChangeSummary;
  needsFiles : option (list jsstring);
  sb_filesProcessed : option Z;
  sb_filesDeleted : option Z;
  sb_error : option jsstring
}.

Inductive Event :=
| ProjectChanged (project : option LocalProjectInfo)
| IngestionProgressed (p : IngestionProgress)
| IngestionComplete (project : LocalProjectInfo)
| IngestionError (projectId error : jsstring).

Inductive Effect :=
| Fetch (backendUrl authToken : jsstring) (request : Request)
| Fire (event : Event).

Definition Trace := list Effect.

(** The server: each answer may depend on everything done so far. *)
Record Backend := mkBackend {
  on_check : Trace -> Request -> Reply CheckBody;
  on_create : Trace -> Request -> Reply CreateBody;
  on_init : Trace -> Request -> Reply unit;
  on_files : Trace -> Request -> Reply FilesBody;
  on_progress : Trace -> Request -> Reply ProgressBody;
  on_merkle_sync : Trace -> Request -> Reply SyncBody
}.

(** The platform and the outside world. *)
Record Env := mkEnv {
  (* Date.now(), localeCompare, toLowerCase, Math.round((done / n) * 100),
     the message of a TypeError, fileService.read, and the server *)
  env_now : Z;
  env_localeCompare : jsstring -> jsstring -> Z;
  env_toLowerCase : jsstring -> jsstring;
  env_roundPercent : Z -> Z -> Z;
  env_typeError : jsstring;
  env_read : URI -> option jsstring;
  env_backend : Backend
}.

Record Service := mkService {
  currentProject : option LocalProjectInfo;
  currentMerkleTree : option MerkleNodeJSON;
  backendUrl : jsstring;
  authToken : jsstring;
  initialized : bool
}.

Definition newService : Service :=
  {| currentProject := None; currentMerkleTree := None;
     backendUrl := []; authToken := []; initialized := false |}.

(** Computations that read and write the service and extend the trace. *)
Definition Run (A : Type) : Type := Service -> Trace -> A * Service * Trace.

Definition ret {A} (a : A) : Run A := fun s t => (a, s, t).
Definition bind {A B} (m : Run A) (k : A -> Run B) : Run B :=
  fun s t => let '(a, s', t') := m s t in k a s' t'.

Notation "x <- m ;; k" := (bind m (fun x => k))
  (at level 61, m at next level, right associativity).
Notation "m ;;; k" := (bind m (fun _ => k))
  (at level 61, right associativity).

Definition fire (e : Event) : Run unit := fun s t => (tt, s, t ++ [Fire e]).
Definition fetch {B} (oracle : Trace -> Request -> Reply B) (r : Request) : Run (Reply B) :=
  fun s t => (oracle t r, s, t ++ [Fetch (backendUrl s) (authToken s) r]).
Definition getProject : Run (option LocalProjectInfo) := fun s t => (currentProject s, s, t).
Definition setProject (p : option LocalProjectInfo) : Run unit :=
  fun s t => (tt, {| currentProject := p; currentMerkleTree := currentMerkleTree s;
                     backendUrl := backendUrl s; authToken := authToken s;
                     initialized := initialized s |}, t).
Definition setMerkleTree (m : MerkleNodeJSON) : Run unit :=
  fun s t => (tt, {| currentProject := currentProject s; currentMerkleTree := Some m;
                     backendUrl := backendUrl s; authToken := authToken s;
                     initialized := initialized s |}, t).

Inductive Outcome (A : Type) :=
| Returned (a : A)
| Thrown (message : jsstring).
Arguments Returned {A} a.
Arguments Thrown {A} message.

Section Orchestrator.
Variable env : Env.

(** collectFiles: the traversal, depth first (the source starts the
    visits of the children of a directory together and awaits them
    all). *)
Fixpoint traverse (rootPath : jsstring) (node : FsNode) : list CollectedFile :=
  match node with
  | Unresolved _ => []
  | FsDirectory uri children =>
      if Set_has IGNORE_DIRS (uri_base uri) then []
      else match children with
           | Some cs => flat_map (traverse rootPath) cs
           | None => []
           end
  | FsFile uri size =>
      let ext := env_toLowerCase env (uri_ext uri) in
      if Set_has IGNORE_EXTENSIONS ext then []
      else if negb (Set_has CODE_EXTENSIONS ext) then []
      else if match size with
              | Some z => truthy_number z && (1024 * 1024 <? z)%Z
              | None => false
              end then []
      else
        let fullPath := uri_path uri in
        let relativePath :=
          if String_startsWith rootPath fullPath
          then String_slice (length rootPath + 1) fullPath
          else fullPath in
        [{| cf_uri := uri; cf_path := relativePath;
            cf_size := or_default size 0 |}]
  | FsOther _ => []
  end.

Definition collectFiles (folder : FsNode) : list CollectedFile :=
  traverse (uri_path (resource folder)) folder.

Definition checkProjectExists (folderPath folderName : jsstring)
    : Run (option LocalProjectInfo) :=
  reply <- fetch (on_check (env_backend env)) (PostCheck folderPath folderName) ;;
  ret match reply with
      | NetworkError _ => None
      | Response ok _ _ json =>
          if negb ok then None
          else match json with
               | JsonRejects _ => None
               | JsonValue data => if cb_exists data then cb_project data else None
               end
      end.

Definition createProject (folderPath folderName : jsstring)
    : Run (option LocalProjectInfo) :=
  reply <- fetch (on_create (env_backend env)) (PostCreate folderPath folderName) ;;
  ret match reply with
      | NetworkError _ => None
      | Response ok _ _ json =>
          if negb ok then None
          else match json with
               | JsonRejects _ => None
               | JsonValue data =>
                   Some {| projectId := cr_projectId data;
                           localHash := cr_localHash data;
                           folderName := folderName;
                           folderPath := folderPath;
                           ingestionStatus := pending;
                           totalFiles := 0;
                           processedFiles := 0;
                           totalChunks := 0;
                           error := None |}
               end
      end.

(** [{...this._currentProject!, ingestionStatus: 'completed', ...}]; the
    fields a missing project would leave undefined are written empty. *)
Definition completedProject (p : option LocalProjectInfo) (done nchunks : Z)
    : LocalProjectInfo :=
  match p with
  | Some p =>
      {| projectId := projectId p; localHash := localHash p;
         folderName := folderName p; folderPath := folderPath p;
         ingestionStatus := completed; totalFiles := totalFiles p;
         processedFiles := done; totalChunks := nchunks; error := error p |}
  | None =>
      {| projectId := []; localHash := []; folderName := []; folderPath := [];
         ingestionStatus := completed; totalFiles := 0;
         processedFiles := done; totalChunks := nchunks; error := None |}
  end.

Definition markCompleted (done nchunks : Z) : Run unit :=
  p <- getProject ;;
  setProject (Some (completedProject p done nchunks)) ;;;
  fire (IngestionComplete (completedProject p done nchunks)).

Definition batchSize : nat := 20.

Definition batchesOf (files : list FileInput) : list (Z * list FileInput) :=
  map (fun k => (Z.of_nat k, firstn batchSize (skipn (k * batchSize) files)))
      (seq 0 ((length files + batchSize - 1) / batchSize)).

(** The batch loop of startIngestion; [Thrown] leaves the loop for the
    catch block. *)
Fixpoint sendBatches (pid : jsstring) (nfiles : nat) (totalBatches : Z)
    (batches : list (Z * list FileInput)) : Run (Outcome unit) :=
  match batches with
  | [] => ret (Returned tt)
  | (batchIndex, batch) :: rest =>
      reply <- fetch (on_files (env_backend env))
                     (PostFiles pid batch batchIndex totalBatches) ;;
      match reply with
      | NetworkError message => ret (Thrown message)
      | Response ok _ _ json =>
          if ok then
            match json with
            | JsonRejects message => ret (Thrown message)
            | JsonValue result =>
                fire (IngestionProgressed
                        {| ip_projectId := pid;
                           status := if isComplete result then completed else processing;
                           progress :=
                             Some {| pc_total := Z.of_nat nfiles;
                                     processed := totalProcessed result;
                                     chunks := fb_totalChunks result;
                                     percent := env_roundPercent env
                                                  (totalProcessed result)
                                                  (Z.of_nat nfiles) |};
                           ip_error := None |}) ;;;
                (if isComplete result
                 then markCompleted (totalProcessed result) (fb_totalChunks result)
                 else ret tt) ;;;
                sendBatches pid nfiles totalBatches rest
            end
          else sendBatches pid nfiles totalBatches rest
      end
  end.

Definition readForIngestion (files : list CollectedFile) : list FileInput :=
  flat_map (fun file =>
              match env_read env (cf_uri file) with
              | Some content =>
                  [{| fi_path := cf_path file; fi_content := content;
                      fi_size := Some (cf_size file);
                      fi_lastModified := Some (env_now env) |}]
              | None => []
              end) files.

Definition startIngestion (pid : jsstring) (folder : FsNode) : Run unit :=
  match collectFiles folder with
  | [] => ret tt
  | files =>
      match readForIngestion files with
      | [] => ret tt
      | filesWithContent =>
          match buildTreeFromFiles (env_now env) (env_localeCompare env)
                                   filesWithContent with
          | None => fire (IngestionError pid (env_typeError env))
          | Some merkleTree =>
              setMerkleTree merkleTree ;;;
              initResponse <-
                fetch (on_init (env_backend env))
                      (PostInit pid (Z.of_nat (length filesWithContent)) merkleTree) ;;
              match initResponse with
              | NetworkError message => fire (IngestionError pid message)
              | Response _ _ _ _ =>
                  let batches := batchesOf filesWithContent in
                  sent <- sendBatches pid (length filesWithContent)
                                      (Z.of_nat (length batches)) batches ;;
                  match sent with
                  | Returned _ => ret tt
                  | Thrown message => fire (IngestionError pid message)
                  end
              end
          end
      end
  end.

(** pollIngestionProgress, run for at most [ticks] timer rounds. *)
Fixpoint pollIngestionProgress (pid : jsstring) (ticks : nat) : Run unit :=
  match ticks with
  | O => ret tt
  | S ticks' =>
      reply <- fetch (on_progress (env_backend env)) (GetProgress pid) ;;
      match reply with
      | NetworkError _ => ret tt
      | Response ok _ _ json =>
          if negb ok then ret tt
          else
            match json with
            | JsonRejects _ => ret tt
            | JsonValue data =>
                fire (IngestionProgressed
                        {| ip_projectId := pid; status := pb_status data;
                           progress := pb_progress data;
                           ip_error := pb_error data |}) ;;;
                match pb_status data with
                | processing => pollIngestionProgress pid ticks'
                | completed =>
                    match pb_progress data with
                    | Some counts => markCompleted (processed counts) (chunks counts)
                    | None => ret tt
                    end
                | failed =>
                    fire (IngestionError pid
                            (or_string (pb_error data) (js "Ingestion failed")))
                | pending => ret tt
                end
            end
      end
  end.

Definition readForSync (files : list CollectedFile)
    : list FileInput * list (jsstring * jsstring) :=
  fold_left
    (fun acc file =>
       match env_read env (cf_uri file) with
       | Some contentStr =>
           (fst acc ++ [{| fi_path := cf_path file; fi_content := contentStr;
                           fi_size := Some (cf_size file);
                           fi_lastModified := None |}],
            dict_set (cf_path file) contentStr (snd acc))
       | None => acc
       end)
    files ([], []).

Definition deletedOrZero (s : option ChangeSummary) : Z :=
  match s with
  | Some s => deleted s
  | None => 0
  end.

Definition failedSync (message : jsstring) : MerkleSyncResult :=
  {| success := false; changes := None; summary := None;
     filesProcessed := None; filesDeleted := None; sr_error := Some message |}.

Definition changedFilesFor (fileContentMap : list (jsstring * jsstring))
    (needed : list jsstring) : list (jsstring * jsstring) :=
  fold_left
    (fun changedFiles filePath =>
       match dict_get filePath fileContentMap with
       | Some content => dict_set filePath content changedFiles
       | None => changedFiles
       end)
    needed [].

Definition syncWithMerkle (pid : jsstring) (folder : FsNode) : Run MerkleSyncResult :=
  match collectFiles folder with
  | [] =>
      ret {| success := true; changes := None;
             summary := Some {| added := 0; modified := 0; deleted := 0; total := 0 |};
             filesProcessed := None; filesDeleted := None; sr_error := None |}
  | files =>
      let '(filesWithContent, fileContentMap) := readForSync files in
      match buildTreeFromFiles (env_now env) (env_localeCompare env)
                               filesWithContent with
      | None => ret (failedSync (env_typeError env))
      | Some newMerkleTree =>
          syncResponse <-
            fetch (on_merkle_sync (env_backend env))
                  (PostMerkleSync pid newMerkleTree None) ;;
          match syncResponse with
          | NetworkError message => ret (failedSync message)
          | Response false _ statusText json =>
              ret (failedSync
                     (or_string match json with
                                | JsonValue errorData => sb_error errorData
                                | JsonRejects _ => None
                                end statusText))
          | Response true _ _ (JsonRejects message) => ret (failedSync message)
          | Response true _ _ (JsonValue syncResult) =>
              match needsFiles syncResult with
              | None | Some [] =>
                  setMerkleTree newMerkleTree ;;;
                  ret {| success := true;
                         changes := sb_changes syncResult;
                         summary := sb_summary syncResult;
                         filesProcessed := Some 0%Z;
                         filesDeleted := Some (deletedOrZero (sb_summary syncResult));
                         sr_error := None |}
              | Some needed =>
                  let changedFiles := changedFilesFor fileContentMap needed in
                  completeResponse <-
                    fetch (on_merkle_sync (env_backend env))
                          (PostMerkleSync pid newMerkleTree (Some changedFiles)) ;;
                  match completeResponse with
                  | NetworkError message => ret (failedSync message)
                  | Response false _ statusText json =>
                      ret (failedSync
                             (or_string match json with
                                        | JsonValue errorData => sb_error errorData
                                        | JsonRejects _ => None
                                        end statusText))
                  | Response true _ _ (JsonRejects message) => ret (failedSync message)
                  | Response true _ _ (JsonValue completeResult) =>
                      setMerkleTree newMerkleTree ;;;
                      ret {| success := true;
                             changes := sb_changes completeResult;
                             summary := sb_summary completeResult;
                             filesProcessed := sb_filesProcessed completeResult;
                             filesDeleted := sb_filesDeleted completeResult;
                             sr_error := None |}
                  end
              end
          end
      end
  end.

Definition ingestFolder (folder : FsNode) (ticks : nat)
    : Run (option LocalProjectInfo) :=
  fun s t =>
    if negb (initialized s) then (None, s, t)
    else
      (let folderPath := uri_path (resource folder) in
       let folderName := uri_base (resource folder) in
       existingProject <- checkProjectExists folderPath folderName ;;
       match existingProject with
       | Some existing =>
           setProject (Some existing) ;;;
           fire (ProjectChanged (Some existing)) ;;;
           match ingestionStatus existing with
           | completed => syncWithMerkle (projectId existing) folder ;;; ret tt
           | processing => pollIngestionProgress (projectId existing) ticks
           | failed => ret tt
           | pending => ret tt
           end ;;;
           ret (Some existing)
       | None =>
           newProject <- createProject folderPath folderName ;;
           match newProject with
           | None => ret None
           | Some created =>
               setProject (Some created) ;;;
               fire (ProjectChanged (Some created)) ;;;
               startIngestion (projectId created) folder ;;;
               ret (Some created)
           end
       end) s t.

Definition checkAndIngestWorkspace (roots : list FsNode) (ticks : nat)
    : Run (option LocalProjectInfo) :=
  match roots with
  | [] => setProject None ;;; fire (ProjectChanged None) ;;; ret None
  | root :: _ => ingestFolder root ticks
  end.

Definition initialize (url token : jsstring) (roots : list FsNode) (ticks : nat)
    : Run unit :=
  fun s t =>
    (checkAndIngestWorkspace roots ticks ;;; ret tt)
      {| currentProject := currentProject s;
         currentMerkleTree := currentMerkleTree s;
         backendUrl := url; authToken := token; initialized := true |} t.
End Orchestrator.



Definition fired (t : Trace) : list Event :=
  flat_map (fun e => match e with Fire ev => [ev] | Fetch _ _ _ => [] end) t.

Definition requests (t : Trace) : list Request :=
  flat_map (fun e => match e with Fetch _ _ r => [r] | Fire _ => [] end) t.

Definition is_complete_event (e : Event) : bool :=
  match e with IngestionComplete _ => true | _ => false end.

Definition is_error_event (e : Event) : bool :=
  match e with IngestionError _ _ => true | _ => false end.

Definition batch_indices (t : Trace) : list Z :=
  flat_map (fun r => match r with PostFiles _ _ k _ => [k] | _ => [] end) (requests t).
End LocalIngestion.

(* ------------------------------------------------------------------ *)
(** * JSON.parse *)

Inductive JSON :=
| JNull
| JBool (b : bool)
| JNumber (lexeme : jsstring)
| JString (s : jsstring)
| JArray (items : list JSON)
| JObject (members : list (jsstring * JSON)).

Module JsonParser.
Definition is_ws (c : N) : bool := (c =? 32) || (c =? 9) || (c =? 10) || (c =? 13).
Definition is_digit (c : N) : bool := (48 <=? c) && (c <=? 57).

Fixpoint skip_ws (s : jsstring) : jsstring :=
  match s with
  | c :: rest => if is_ws c then skip_ws rest else s
  | [] => []
  end.

Definition hex_value (c : N) : option N :=
  if is_digit c then Some (c - 48)
  else if (97 <=? c) && (c <=? 102) then Some (c - 87)
  else if (65 <=? c) && (c <=? 70) then Some (c - 55)
  else None.

(** The characters of a string literal after its opening quote. *)
Fixpoint string_body (s : jsstring) : option (jsstring * jsstring) :=
  match s with
  | [] => None
  | 34 :: rest => Some ([], rest)
  | 92 :: rest =>
      match rest with
      | 117 :: a :: b :: c :: d :: rest' =>
          match hex_value a, hex_value b, hex_value c, hex_value d, string_body rest' with
          | Some x, Some y, Some z, Some w, Some (body, out) =>
              Some ((4096 * x + 256 * y + 16 * z + w) :: body, out)
          | _, _, _, _, _ => None
          end
      | e :: rest' =>
          let unescaped :=
            if e =? 34 then Some 34 else if e =? 92 then Some 92
            else if e =? 47 then Some 47 else if e =? 98 then Some 8
            else if e =? 102 then Some 12 else if e =? 110 then Some 10
            else if e =? 114 then Some 13 else if e =? 116 then Some 9
            else None in
          match unescaped, string_body rest' with
          | Some c, Some (body, out) => Some (c :: body, out)
          | _, _ => None
          end
      | [] => None
      end
  | c :: rest =>
      if c <? 32 then None
      else match string_body rest with
           | Some (body, out) => Some (c :: body, out)
           | None => None
           end
  end.

Fixpoint digits (s : jsstring) : jsstring * jsstring :=
  match s with
  | c :: rest =>
      if is_digit c then let '(ds, out) := digits rest in (c :: ds, out) else ([], s)
  | [] => ([], [])
  end.

Definition digits1 (s : jsstring) : option (jsstring * jsstring) :=
  match digits s with
  | ([], _) => None
  | (ds, out) => Some (ds, out)
  end.

Definition number (s : jsstring) : option (jsstring * jsstring) :=
  let '(sign, s1) := match s with 45 :: r => ([45], r) | _ => ([], s) end in
  match s1 with
  | 48 :: r => Some (sign ++ [48], r)
  | _ => match digits1 s1 with
         | Some (ds, r) => Some (sign ++ ds, r)
         | None => None
         end
  end.

Definition fraction (s : jsstring) : option (jsstring * jsstring) :=
  match s with
  | 46 :: r => match digits1 r with
               | Some (ds, out) => Some (46 :: ds, out)
               | None => None
               end
  | _ => Some ([], s)
  end.

Definition exponent (s : jsstring) : option (jsstring * jsstring) :=
  match s with
  | e :: r =>
      if (e =? 101) || (e =? 69) then
        let '(sign, r1) := match r with
                           | 43 :: r' => ([43], r')
                           | 45 :: r' => ([45], r')
                           | _ => ([], r)
                           end in
        match digits1 r1 with
        | Some (ds, out) => Some (e :: sign ++ ds, out)
        | None => None
        end
      else Some ([], s)
  | [] => Some ([], [])
  end.

Definition number_literal (s : jsstring) : option (jsstring * jsstring) :=
  match number s with
  | Some (i, r1) =>
      match fraction r1 with
      | Some (f, r2) =>
          match exponent r2 with
          | Some (e, r3) => Some (i ++ f ++ e, r3)
          | None => None
          end
      | None => None
      end
  | None => None
  end.

Fixpoint value (fuel : nat) (s : jsstring) : option (JSON * jsstring) :=
  match fuel with
  | O => None
  | S fuel' =>
      match skip_ws s with
      | 110 :: 117 :: 108 :: 108 :: r => Some (JNull, r)
      | 116 :: 114 :: 117 :: 101 :: r => Some (JBool true, r)
      | 102 :: 97 :: 108 :: 115 :: 101 :: r => Some (JBool false, r)
      | 34 :: r =>
          match string_body r with
          | Some (str, out) => Some (JString str, out)
          | None => None
          end
      | 91 :: r =>
          match skip_ws r with
          | 93 :: out => Some (JArray [], out)
          | r' => match elements fuel' r' with
                  | Some (items, out) => Some (JArray items, out)
                  | None => None
                  end
          end
      | 123 :: r =>
          match skip_ws r with
          | 125 :: out => Some (JObject [], out)
          | r' => match members fuel' r' with
                  | Some (ms, out) => Some (JObject ms, out)
                  | None => None
                  end
          end
      | r => match number_literal r with
             | Some (lexeme, out) => Some (JNumber lexeme, out)
             | None => None
             end
      end
  end
with elements (fuel : nat) (s : jsstring) : option (list JSON * jsstring) :=
  match fuel with
  | O => None
  | S fuel' =>
      match value fuel' s with
      | Some (v, r) =>
          match skip_ws r with
          | 44 :: r' =>
              match elements fuel' r' with
              | Some (vs, out) => Some (v :: vs, out)
              | None => None
              end
          | 93 :: out => Some ([v], out)
          | _ => None
          end
      | None => None
      end
  end
with members (fuel : nat) (s : jsstring) : option (list (jsstring * JSON) * jsstring) :=
  match fuel with
  | O => None
  | S fuel' =>
      match skip_ws s with
      | 34 :: r =>
          match string_body r with
          | Some (key, r1) =>
              match skip_ws r1 with
              | 58 :: r2 =>
                  match value fuel' r2 with
                  | Some (v, r3) =>
                      match skip_ws r3 with
                      | 44 :: r4 =>
                          match members fuel' r4 with
                          | Some (ms, out) => Some ((key, v) :: ms, out)
                          | None => None
                          end
                      | 125 :: out => Some ([(key, v)], out)
                      | _ => None
                      end
                  | None => None
                  end
              | _ => None
              end
          | None => None
          end
      | _ => None
      end
  end.
End JsonParser.

(** [Some v] when the text is JSON, [None] when JSON.parse throws. *)
Definition JSON_parse (text : jsstring) : option JSON :=
  match JsonParser.value (2 * length text + 2) text with
  | Some (v, rest) =>
      match JsonParser.skip_ws rest with
      | [] => Some v
      | _ :: _ => None
      end
  | None => None
  end.

(* ------------------------------------------------------------------ *)
(** * backend-chat-service.ts *)

Module BackendChat.

Record ChatRequest := mkChatRequest {
  cr_projectId : jsstring;
  cr_sessionId : option jsstring;
  cr_message : jsstring;
  cr_model : option jsstring
}.

Inductive ReadResult :=
| Chunk (text : jsstring)
| ReadFails (message : jsstring).

Inductive StreamReply :=
| FetchFails (message : jsstring)
| StreamResponse (ok : bool) (statusText : jsstring) (body : option (list ReadResult)).

Record Env := mkEnv {
  selectedModelId : option jsstring;
  send_stream : ChatRequest -> StreamReply
}.

Record Gateway := mkGateway {
  backendUrl : jsstring;
  authToken : jsstring;
  isAvailable : bool
}.

Definition newGateway : Gateway :=
  {| backendUrl := []; authToken := []; isAvailable := false |}.

Definition setAvailable (g : Gateway) (b : bool) : Gateway :=
  {| backendUrl := backendUrl g; authToken := authToken g; isAvailable := b |}.

Definition is_completed (project : option LocalIngestion.LocalProjectInfo) : bool :=
  match project with
  | Some p =>
      match LocalIngestion.ingestionStatus p with
      | LocalIngestion.completed => true
      | _ => false
      end
  | None => false
  end.

(** The two listeners registered in init; each returns the new gateway and
    the values fired on onAvailabilityChanged. *)
Definition onProjectChanged (project : option LocalIngestion.LocalProjectInfo)
    (g : Gateway) : Gateway * list bool :=
  let wasAvailable := isAvailable g in
  let g' := setAvailable g (is_completed project) in
  if negb (Bool.eqb wasAvailable (isAvailable g')) then (g', [isAvailable g'])
  else (g', []).

Definition onIngestionComplete (g : Gateway) : Gateway * list bool :=
  (setAvailable g true, [true]).

Definition notify (e : LocalIngestion.Event) (g : Gateway) : Gateway * list bool :=
  match e with
  | LocalIngestion.ProjectChanged project => onProjectChanged project g
  | LocalIngestion.IngestionComplete _ => onIngestionComplete g
  | _ => (g, [])
  end.

Fixpoint observe (events : list LocalIngestion.Event) (g : Gateway)
    : Gateway * list bool :=
  match events with
  | [] => (g, [])
  | e :: rest =>
      let '(g1, out1) := notify e g in
      let '(g2, out2) := observe rest g1 in
      (g2, out1 ++ out2)
  end.

Definition error_event (message : jsstring) : JSON :=
  JObject [(js "type", JString (js "error")); (js "message", JString message)].

Definition newline : N := 10.

Definition processLine (line : jsstring) : list JSON :=
  if String_startsWith (js "data: ") line then
    match JSON_parse (String_slice 6 line) with
    | Some data => [data]
    | None => []
    end
  else [].

Fixpoint readLoop (reads : list ReadResult) (buffer : jsstring) : list JSON :=
  match reads with
  | [] => []
  | ReadFails message :: _ => [error_event message]
  | Chunk text :: rest =>
      let lines := String_split newline (buffer ++ text) in
      flat_map processLine (removelast lines) ++ readLoop rest (last lines [])
  end.

(** [{...request, model}] with [model = request.model || selectedModelId]. *)
Definition withModel (env : Env) (request : ChatRequest) : ChatRequest :=
  let model := match cr_model request with
               | Some (c :: m) => Some (c :: m)
               | _ => selectedModelId env
               end in
  {| cr_projectId := cr_projectId request;
     cr_sessionId := cr_sessionId request;
     cr_message := cr_message request;
     cr_model := model |}.

Definition sendMessageStream (env : Env) (request : ChatRequest) (g : Gateway)
    : list JSON :=
  if negb (isAvailable g) then
    [error_event (js "Backend chat not available. Workspace needs to be ingested first.")]
  else
    match send_stream env (withModel env request) with
    | FetchFails message => [error_event message]
    | StreamResponse ok statusText body =>
        if negb ok then [error_event (js "Request failed: " ++ statusText)]
        else match body with
             | None => [error_event (js "No response body")]
             | Some reads => readLoop reads []
             end
    end.

Definition streamText (reads : list ReadResult) : jsstring :=
  (fix go (rs : list ReadResult) : jsstring :=
     match rs with
     | Chunk text :: rest => text ++ go rest
     | _ => []
     end) reads.

Fixpoint streamFailure (reads : list ReadResult) : list JSON :=
  match reads with
  | [] => []
  | ReadFails message :: _ => [error_event message]
  | Chunk _ :: rest => streamFailure rest
  end.

Definition completeLines (text : jsstring) : list jsstring :=
  removelast (String_split newline text).
End BackendChat.

(* ------------------------------------------------------------------ *)
(** * A small world to run the services in *)

Module Sample.
Import LocalIngestion.

Definition asciiLowerCase (s : jsstring) : jsstring :=
  map (fun c => if is_upper c then c + 32 else c) s.

Definition workspace : FsNode :=
  FsDirectory (mkURI (js "file:///w") (js "/w") (js "w") [])
    (Some [FsFile (mkURI (js "file:///w/a.ts") (js "/w/a.ts") (js "a.ts") (js ".ts"))
                  (Some 5%Z)]).

Definition offline {B} : Trace -> Request -> Reply B :=
  fun _ _ => NetworkError (js "Failed to fetch").

Definition project (st : IngestionStatus) : LocalProjectInfo :=
  {| projectId := js "p1"; localHash := js "h"; folderName := js "w";
     folderPath := js "/w"; ingestionStatus := st; totalFiles := 1;
     processedFiles := 1; totalChunks := 3; error := None |}.

(** A server that knows the project as completed and answers phase 1 of
    the sync with one deletion and no file to send. *)
Definition deletesOnly : Backend :=
  {| on_check := fun _ _ =>
       Response true 200 (js "OK")
         (JsonValue {| cb_exists := true; cb_project := Some (project completed) |});
     on_create := offline;
     on_init := offline;
     on_files := offline;
     on_progress := offline;
     on_merkle_sync := fun _ _ =>
       Response true 200 (js "OK")
         (JsonValue {| sb_changes := Some [(js "Deleted", js "old.ts")];
                       sb_summary := Some (mkChangeSummary 0 0 1 1);
                       needsFiles := Some [];
                       sb_filesProcessed := None;
                       sb_filesDeleted := None;
                       sb_error := None |}) |}.

(** A server that accepts a new project and its tree, and answers every
    batch of files with 500. *)
Definition rejectsBatches : Backend :=
  {| on_check := fun _ _ =>
       Response true 200 (js "OK")
         (JsonValue {| cb_exists := false; cb_project := None |});
     on_create := fun _ _ =>
       Response true 200 (js "OK")
         (JsonValue {| cr_projectId := js "p1"; cr_localHash := js "h" |});
     on_init := fun _ _ => Response true 200 (js "OK") (JsonValue tt);
     on_files := fun _ _ =>
       Response false 500 (js "Internal Server Error") (JsonRejects []);
     on_progress := offline;
     on_merkle_sync := offline |}.

Definition world (backend : Backend) : Env :=
  {| env_now := 0;
     env_localeCompare := letterCollation;
     env_toLowerCase := asciiLowerCase;
     env_roundPercent := fun done n => ((200 * done + n) / (2 * n))%Z;
     env_typeError := js "TypeError";
     env_read := fun _ => Some (js "hello");
     env_backend := backend |}.

Definition request : BackendChat.ChatRequest :=
  {| BackendChat.cr_projectId := js "p1"; BackendChat.cr_sessionId := None;
     BackendChat.cr_message := js "hi"; BackendChat.cr_model := None |}.

Definition streaming (reads : list BackendChat.ReadResult) : BackendChat.Env :=
  {| BackendChat.selectedModelId := Some (js "gemini-2.5-pro");
     BackendChat.send_stream :=
       fun _ => BackendChat.StreamResponse true (js "OK") (Some reads) |}.

Definition available : BackendChat.Gateway :=
  BackendChat.setAvailable BackendChat.newGateway true.

Definition ready : Service :=
  {| currentProject := None; currentMerkleTree := None;
     backendUrl := js "http://localhost:3001"; authToken := js "dev-token";
     initialized := true |}.
End Sample.

(* ------------------------------------------------------------------ *)
(** * Further notions used to state properties *)

Definition has_type (t : ChangeType) (c : FileChange) : bool :=
  match changeType c, t with
  | Added, Added | Modified, Modified | Deleted, Deleted => true
  | _, _ => false
  end.

Definition is_leaf_of (tree n : MerkleNodeJSON) : Prop :=
  In n (subnodes tree) /\ isLeaf n = true.

(** What a change reports, read against the two trees compared. *)
Definition explained (oldTree : option MerkleNodeJSON) (newTree : MerkleNodeJSON)
    (c : FileChange) : Prop :=
  match changeType c with
  | Added =>
      exists n, is_leaf_of newTree n /\ fc_path c = path n /\
                oldHash c = None /\ newHash c = Some (hash n)
  | Deleted =>
      exists old o, oldTree = Some old /\ is_leaf_of old o /\ fc_path c = path o /\
                    oldHash c = Some (hash o) /\ newHash c = None
  | Modified =>
      exists old o n, oldTree = Some old /\ is_leaf_of old o /\ is_leaf_of newTree n /\
                      fc_path c = path n /\ hash o <> hash n /\
                      oldHash c = Some (hash o) /\ newHash c = Some (hash n)
  end.

(** Whether following [parts] from [n] through own properties arrives at a
    file entry with parts still to go. *)
Fixpoint through_file (parts : list jsstring) (n : NestedNode) : bool :=
  match parts with
  | [] => false
  | p :: later =>
      match n with
      | NFile _ => true
      | NDir own _ =>
          match dict_get p own with
          | Some c => through_file later c
          | None => false
          end
      end
  end.

Module FileSystem.
Import LocalIngestion.

(** The nodes the traversal of collectFiles arrives at: it does not go
    below a directory whose name is in IGNORE_DIRS. *)
Fixpoint visited (node : FsNode) : list FsNode :=
  node ::
  match node with
  | FsDirectory uri (Some cs) =>
      if Set_has IGNORE_DIRS (uri_base uri) then [] else flat_map visited cs
  | _ => []
  end.

Section FsInduction.
Variable P : FsNode -> Prop.
Hypothesis P_unresolved : forall uri, P (Unresolved uri).
Hypothesis P_directory :
  forall uri cs, (forall l, cs = Some l -> Forall P l) -> P (FsDirectory uri cs).
Hypothesis P_file : forall uri size, P (FsFile uri size).
Hypothesis P_other : forall uri, P (FsOther uri).

Fixpoint FsNode_induction (n : FsNode) : P n :=
  match n with
  | Unresolved uri => P_unresolved uri
  | FsDirectory uri cs =>
      P_directory uri cs
        (match cs return forall l, cs = Some l -> Forall P l with
         | None => fun l E => match E in (_ = o) return
                                  (match o with None => True | Some _ => Forall P l end)
                            with eq_refl => I end
         | Some l0 => fun l E =>
             match E in (_ = o) return
                   (match o with Some l1 => Forall P l1 | None => True end)
             with eq_refl =>
               (fix go (l : list FsNode) : Forall P l :=
                  match l with
                  | [] => Forall_nil _
                  | x :: l' => Forall_cons x (FsNode_induction x) (go l')
                  end) l0
             end
         end)
  | FsFile uri size => P_file uri size
  | FsOther uri => P_other uri
  end.
End FsInduction.
End FileSystem.

Module Frame.
Import LocalIngestion.

(** A computation that returns, keeps the service within [I] and adds
    to the trace only effects that satisfy [P]. *)
Definition run_within (I : Service -> Prop) (P : Effect -> Prop) {A} (m : Run A) : Prop :=
  forall s t, I s ->
    exists a s' delta, m s t = (a, s', t ++ delta) /\ I s' /\ Forall P delta.

Definition sent_with (url token : jsstring) (e : Effect) : Prop :=
  match e with
  | Fetch u k _ => u = url /\ k = token
  | Fire _ => True
  end.

Definition configured (url token : jsstring) (s : Service) : Prop :=
  backendUrl s = url /\ authToken s = token /\ initialized s = true.

Definition is_project_event (e : Event) : bool :=
  match e with ProjectChanged _ => true | _ => false end.

(** An effect that is not an event of the kind [p]. *)
Definition never (p : Event -> bool) (e : Effect) : Prop :=
  match e with
  | Fire ev => p ev = false
  | Fetch _ _ _ => True
  end.

Definition is_terminal_event (e : Event) : bool :=
  is_complete_event e || is_error_event e.

(** No event of the kind [p] is fired, except possibly as the very last
    effect. *)
Definition only_last (p : Event -> bool) (delta : Trace) : bool :=
  negb (existsb p (fired (removelast delta))).

End Frame.

(** Reports on onAvailabilityChanged read against the state before them:
    [false] is reported only when the gateway was available. *)
Fixpoint reports_changes (previous : bool) (reports : list bool) : bool :=
  match reports with
  | [] => true
  | b :: rest => (b || previous) && reports_changes b rest
  end.

(** A nested structure with the sizes and times of its file entries
    forgotten. *)
Definition content_of (f : FileEntry) : FileEntry :=
  {| fe_content := fe_content f; fe_size := None; fe_lastModified := 0 |}.

Fixpoint contents_only (n : NestedNode) : NestedNode :=
  match n with
  | NFile f => NFile (content_of f)
  | NDir own proto => NDir (map (fun e => (fst e, contents_only (snd e))) own) proto
  end.

Definition plain_names (files : list FileInput) : Prop :=
  forall f, In f files -> last (parts_of f) [] <> proto_key.

(* ------------------------------------------------------------------ *)
(** * model-selector-service.ts *)

Module ModelSelector.

Record AIModelConfig := mkAIModelConfig {
  id : jsstring;
  name : jsstring;
  vendor : jsstring;
  isDefault : option bool;
  maxTokens : option Z
}.

(** The body of a 2xx answer of /api/custom-chat/models. *)
Record ModelsResponse := mkModelsResponse {
  mr_models : list AIModelConfig;
  mr_default : option jsstring
}.

Inductive Event :=
| ModelsChanged (models : list AIModelConfig)
| SelectedModelChanged (modelId : jsstring).

Record Selector := mkSelector {
  models : list AIModelConfig;
  selectedModelId : option jsstring;
  backendUrl : jsstring
}.

Definition newSelector : Selector :=
  {| models := []; selectedModelId := None; backendUrl := [] |}.

(** A string that is neither undefined nor empty. *)
Definition truthy (s : option jsstring) : bool :=
  match s with
  | Some (_ :: _) => true
  | _ => false
  end.

Definition fallbackModels : list AIModelConfig :=
  [ {| id := js "gemini-2.5-pro"; name := js "Gemini 2.5 Pro"; vendor := js "Google";
       isDefault := Some true; maxTokens := None |};
    {| id := js "gemini-2.5-flash"; name := js "Gemini 2.5 Flash"; vendor := js "Google";
       isDefault := None; maxTokens := None |};
    {| id := js "gemini-2.0-flash-exp"; name := js "Gemini 2.0 Flash"; vendor := js "Google";
       isDefault := None; maxTokens := None |} ].

(** fetchModels, given the answer to the GET request; every way of
    failing (the request, a non-2xx status, an unreadable body) ends in the
    catch block. *)
Definition fetchModels (reply : LocalIngestion.Reply ModelsResponse) (url : jsstring)
    (st : Selector) : Selector * list Event :=
  match reply with
  | LocalIngestion.Response true _ _ (LocalIngestion.JsonValue data) =>
      let selected :=
        if negb (truthy (selectedModelId st)) && truthy (mr_default data)
        then mr_default data
        else selectedModelId st in
      ({| models := mr_models data; selectedModelId := selected; backendUrl := url |},
       [ModelsChanged (mr_models data)])
  | _ =>
      ({| models := fallbackModels; selectedModelId := Some (js "gemini-2.5-pro");
          backendUrl := url |},
       [ModelsChanged fallbackModels])
  end.

Definition Array_find {A} (p : A -> bool) (l : list A) : option A := find p l.

Definition selectModel (modelId : jsstring) (st : Selector) : Selector * list Event :=
  match Array_find (fun m => str_eqb (id m) modelId) (models st) with
  | Some _ =>
      ({| models := models st; selectedModelId := Some modelId;
          backendUrl := backendUrl st |},
       [SelectedModelChanged modelId])
  | None => (st, [])
  end.

Definition getSelectedModel (st : Selector) : option AIModelConfig :=
  match selectedModelId st with
  | Some selected => Array_find (fun m => str_eqb (id m) selected) (models st)
  | None => None
  end.
End ModelSelector.

Definition deleted_change (file : FileInput) : FileChange :=
  {| changeType := Deleted; fc_path := fi_path file;
     oldHash := Some (hashContent (fi_content file)); newHash := None |}.

(** An Added change turned into the Deleted change of the same file. *)
Definition as_deleted (c : FileChange) : FileChange :=
  {| changeType := Deleted; fc_path := fc_path c;
     oldHash := newHash c; newHash := None |}.

(* ================================================================== *)
(** * Properties *)

(** Two closed terms differ: both are evaluated and the values compared. *)
Ltac vm_differ :=
  match goal with
  | |- ?a <> ?b =>
      let a' := eval vm_compute in a in
      let b' := eval vm_compute in b in
      let Ha := fresh in
      let Hb := fresh in
      assert (Ha : a = a') by (vm_compute; reflexivity);
      assert (Hb : b = b') by (vm_compute; reflexivity);
      rewrite Ha, Hb; discriminate
  end.

(* ------------------------------------------------------------------ *)
(** * Strings *)

Lemma str_eqb_spec (a b : jsstring) : reflect (a = b) (str_eqb a b).
Proof.
  revert b; induction a as [|x a IH]; intros [|y b]; simpl; try (constructor; congruence).
  destruct (N.eqb_spec x y) as [->|ne]; simpl.
  - destruct (IH b) as [->|ne]; constructor; congruence.
  - constructor; congruence.
Qed.

Lemma str_eqb_refl (a : jsstring) : str_eqb a a = true.
Proof. destruct (str_eqb_spec a a); congruence. Qed.

Lemma str_eqb_eq (a b : jsstring) : str_eqb a b = true <-> a = b.
Proof. destruct (str_eqb_spec a b); split; congruence. Qed.

Lemma str_eqb_neq (a b : jsstring) : str_eqb a b = false <-> a <> b.
Proof. destruct (str_eqb_spec a b); split; congruence. Qed.

(* ------------------------------------------------------------------ *)
(** * Array.prototype.sort with a consistent comparator *)

Section SortFacts.
Context {A : Type} (cmp : A -> A -> Z).

#[local] Abbreviation cmp_le := (cmp_le cmp).
#[local] Abbreviation tie_free := (tie_free cmp).

Lemma Array_sort_cons x l :
  Array_sort cmp (x :: l) = sort_insert cmp x (Array_sort cmp l).
Proof. reflexivity. Qed.

Lemma sort_insert_perm x l : Permutation (sort_insert cmp x l) (x :: l).
Proof.
  induction l as [|y l IH]; simpl; auto.
  destruct (cmp x y <=? 0)%Z; auto.
  rewrite IH. apply perm_swap.
Qed.

Lemma Array_sort_perm l : Permutation (Array_sort cmp l) l.
Proof.
  induction l as [|x l IH]; [constructor|].
  rewrite Array_sort_cons, sort_insert_perm. auto.
Qed.

Lemma Array_sort_sorted_id l : Sorted cmp_le l -> Array_sort cmp l = l.
Proof.
  induction 1 as [|x l Hs IH Hd]; [reflexivity|].
  rewrite Array_sort_cons, IH.
  destruct Hd as [|y l Hxy]; simpl; auto.
  unfold cmp_le in Hxy. apply Z.leb_le in Hxy. now rewrite Hxy.
Qed.

Hypothesis cmp_ok : Consistent cmp.

Lemma cmp_gt_le a b : (0 < cmp a b)%Z -> (cmp b a <= 0)%Z.
Proof. intros H. pose proof (cmp_flip cmp cmp_ok a b). lia. Qed.

Lemma cmp_zero_flip a b : cmp a b = 0%Z -> cmp b a = 0%Z.
Proof. intros H. pose proof (cmp_flip cmp cmp_ok a b). lia. Qed.

Lemma sort_insert_sorted x l : Sorted cmp_le l -> Sorted cmp_le (sort_insert cmp x l).
Proof.
  induction 1 as [|y l Hs IH Hd]; simpl.
  - repeat constructor.
  - destruct (Z.leb_spec (cmp x y) 0).
    + constructor; [constructor; assumption|constructor; assumption].
    + constructor; [assumption|].
      destruct Hd as [|z l Hyz]; simpl.
      * constructor. apply cmp_gt_le. lia.
      * destruct (Z.leb_spec (cmp x z) 0); constructor; auto.
        apply cmp_gt_le. lia.
Qed.

Lemma Array_sort_sorted l : Sorted cmp_le (Array_sort cmp l).
Proof.
  induction l as [|x l IH]; [constructor|].
  rewrite Array_sort_cons. now apply sort_insert_sorted.
Qed.

Lemma sort_insert_comm x y l :
  (cmp x y = 0%Z -> x = y) ->
  sort_insert cmp x (sort_insert cmp y l) = sort_insert cmp y (sort_insert cmp x l).
Proof.
  intros Htie. pose proof (cmp_flip cmp cmp_ok x y) as Hxy.
  assert (Heq : (cmp x y <= 0)%Z -> (cmp y x <= 0)%Z -> x = y) by (intros; apply Htie; lia).
  induction l as [|z l IH]; simpl.
  - destruct (Z.leb_spec (cmp x y) 0), (Z.leb_spec (cmp y x) 0); auto; try lia.
    now rewrite (Heq ltac:(assumption) ltac:(assumption)).
  - pose proof (cmp_flip cmp cmp_ok x z) as Hxz.
    pose proof (cmp_flip cmp cmp_ok y z) as Hyz.
    pose proof (cmp_trans cmp cmp_ok x y z) as T1.
    pose proof (cmp_trans cmp cmp_ok y x z) as T2.
    repeat (match goal with
            | |- context [(?a <=? 0)%Z] => destruct (Z.leb_spec a 0)
            end; simpl);
      try reflexivity; try (f_equal; exact IH); try lia.
    now rewrite (Heq ltac:(assumption) ltac:(assumption)).
Qed.

Lemma Array_sort_permutation_invariant l l' :
  Permutation l l' -> tie_free l -> Array_sort cmp l = Array_sort cmp l'.
Proof.
  induction 1 as [|x l l' Hp IH|x y l|l l' l'' Hp1 IH1 Hp2 IH2]; intros Htf.
  - reflexivity.
  - rewrite !Array_sort_cons, IH; auto.
    intros a b Ha Hb. apply Htf; now right.
  - rewrite !Array_sort_cons. apply sort_insert_comm. intros Hz. apply Htf; simpl; auto.
  - rewrite IH1 by assumption. apply IH2.
    intros a b Ha Hb. apply Htf; (eapply Permutation_in; [apply Permutation_sym; eassumption|assumption]).
Qed.
End SortFacts.

(* ------------------------------------------------------------------ *)
(** * Code-unit order and the letter collation are consistent comparators *)

Lemma cu_compare_flip a b : Z.sgn (cu_compare b a) = (- Z.sgn (cu_compare a b))%Z.
Proof.
  revert b; induction a as [|x a IH]; intros [|y b]; simpl; auto.
  rewrite (N.compare_antisym x y). destruct (x ?= y); simpl; auto.
Qed.

Lemma cu_compare_eq a b : cu_compare a b = 0%Z -> a = b.
Proof.
  revert b; induction a as [|x a IH]; intros [|y b]; simpl; try discriminate; auto.
  destruct (N.compare_spec x y) as [E|L|G]; try discriminate.
  intros H0. subst. f_equal. auto.
Qed.

Lemma cu_compare_trans a b c :
  (cu_compare a b <= 0)%Z -> (cu_compare b c <= 0)%Z -> (cu_compare a c <= 0)%Z.
Proof.
  revert b c; induction a as [|x a IH]; intros [|y b] [|z c]; simpl; try lia.
  destruct (N.compare_spec x y), (N.compare_spec y z), (N.compare_spec x z);
    subst; try lia; eauto.
Qed.

Lemma cu_compare_consistent : Consistent cu_compare.
Proof. split; [apply cu_compare_flip|apply cu_compare_trans]. Qed.

Lemma Consistent_on {A B : Type} (cmp : B -> B -> Z) (f : A -> B) :
  Consistent cmp -> Consistent (fun a b => cmp (f a) (f b)).
Proof. intros [F T]; split; intros; eauto. Qed.

Lemma letterCollation_consistent : Consistent letterCollation.
Proof. apply (Consistent_on cu_compare sort_key), cu_compare_consistent. Qed.

(* ------------------------------------------------------------------ *)
(** * The digest is 64 lower-case hexadecimal digits *)

Lemma round_length st kw : length st = 8%nat -> length (SHA256.round st kw) = 8%nat.
Proof.
  intros H. do 9 (destruct st as [|? st]; try discriminate). reflexivity.
Qed.

Lemma rounds_length kws st :
  length st = 8%nat -> length (fold_left SHA256.round kws st) = 8%nat.
Proof.
  revert st; induction kws as [|kw kws IH]; intros st H; simpl; auto using round_length.
Qed.

Lemma compress_length h block :
  length h = 8%nat -> length (SHA256.compress h block) = 8%nat.
Proof.
  intros H. unfold SHA256.compress.
  rewrite length_map, length_combine, rounds_length, H; auto.
Qed.

Lemma digest_state_length bs h :
  length h = 8%nat -> length (fold_left SHA256.compress bs h) = 8%nat.
Proof.
  revert h; induction bs as [|b bs IH]; intros h H; simpl; auto using compress_length.
Qed.

Lemma be_bytes_length n x : length (SHA256.be_bytes n x) = n.
Proof. unfold SHA256.be_bytes. now rewrite length_map, length_rev, length_seq. Qed.

Lemma be_bytes_small n x : Forall (fun b => b < 256) (SHA256.be_bytes n x).
Proof.
  unfold SHA256.be_bytes. apply Forall_forall. intros b Hb.
  apply in_map_iff in Hb as [i [<- _]].
  change 0xFF with (N.ones 8). rewrite N.land_ones.
  apply N.mod_lt. discriminate.
Qed.

Lemma flat_map_length_const {A B} (f : A -> list B) k l :
  (forall x, length (f x) = k) -> length (flat_map f l) = (k * length l)%nat.
Proof.
  intros H. induction l as [|x l IH]; simpl; [lia|].
  rewrite length_app, H, IH. lia.
Qed.

Lemma digest_length msg : length (SHA256.digest msg) = 32%nat.
Proof.
  unfold SHA256.digest.
  rewrite (flat_map_length_const _ 4%nat) by (intros; apply be_bytes_length).
  rewrite digest_state_length; reflexivity.
Qed.

Lemma digest_small msg : Forall (fun b => b < 256) (SHA256.digest msg).
Proof.
  unfold SHA256.digest. apply Forall_flat_map, Forall_forall.
  intros x _. apply be_bytes_small.
Qed.

Lemma hex_digit_lower d : d < 16 -> lower_hex (hex_digit d).
Proof.
  intros H. unfold hex_digit, lower_hex.
  destruct (N.ltb_spec d 10); lia.
Qed.

Lemma hex_byte_lower b : b < 256 -> Forall lower_hex (hex_byte b).
Proof.
  intros H. unfold hex_byte.
  constructor; [|constructor; [|constructor]]; apply hex_digit_lower.
  - rewrite N.shiftr_div_pow2. change (2 ^ 4) with 16.
    apply N.Div0.div_lt_upper_bound. lia.
  - change 0xF with (N.ones 4). rewrite N.land_ones. apply N.mod_lt. discriminate.
Qed.

Lemma hashContent_hex content :
  length (hashContent content) = 64%nat /\ Forall lower_hex (hashContent content).
Proof.
  unfold hashContent. split.
  - rewrite (flat_map_length_const _ 2%nat) by reflexivity.
    now rewrite digest_length.
  - apply Forall_flat_map. eapply Forall_impl; [|apply digest_small].
    intros b Hb. now apply hex_byte_lower.
Qed.

(* ------------------------------------------------------------------ *)
(** * Object.entries and the nested structure *)

Lemma filter_split_perm {A} (f : A -> bool) (l : list A) :
  Permutation (filter f l ++ filter (fun x => negb (f x)) l) l.
Proof.
  induction l as [|x l IH]; simpl; auto.
  destruct (f x); simpl; auto.
  apply Permutation_sym, Permutation_cons_app, Permutation_sym, IH.
Qed.

Lemma Object_entries_perm {V} (d : list (jsstring * V)) : Permutation (Object_entries d) d.
Proof.
  unfold Object_entries.
  set (idx := flat_map _ d). set (rest := filter _ d).
  assert (Hidx : map snd idx = filter (fun e => match array_index (fst e) with
                                                | Some _ => true | None => false end) d).
  { subst idx. induction d as [|e d IH]; simpl; auto.
    destruct (array_index (fst e)); simpl; now rewrite IH. }
  rewrite (Permutation_map snd (Array_sort_perm _ idx)), Hidx.
  subst rest. rewrite <- (filter_split_perm (fun e => match array_index (fst e) with
                                                      | Some _ => true | None => false end) d) at 3.
  apply Permutation_app_head.
  rewrite (filter_ext _ (fun x : jsstring * V => negb (match array_index (fst x) with
                                                        | Some _ => true | None => false end)));
    [reflexivity|].
  intros e. now destruct (array_index (fst e)).
Qed.

Section MerkleFacts.
Variable Date_now : Z.
Variable localeCompare : jsstring -> jsstring -> Z.

#[local] Abbreviation build := (buildTreeFromNested Date_now localeCompare).
#[local] Abbreviation byPathLe := (fun a b : MerkleNodeJSON => (localeCompare (path a) (path b) <= 0)%Z).

Lemma byPath_consistent : Consistent localeCompare -> Consistent (byPath localeCompare).
Proof. apply (Consistent_on localeCompare path). Qed.

Lemma build_children (own : list (jsstring * NestedNode)) proto p :
  children (build (NDir own proto) p) =
  Some (Array_sort (byPath localeCompare)
          (map snd (Object_entries
             (map (fun e => (fst e, build (snd e) (childPath p (fst e)))) own)))).
Proof. reflexivity. Qed.

Lemma build_child_in own proto p c cs :
  children (build (NDir own proto) p) = Some cs -> In c cs ->
  exists e, In e own /\ c = build (snd e) (childPath p (fst e)).
Proof.
  rewrite build_children. intros [= <-] Hc.
  apply (Permutation_in _ (Array_sort_perm _ _)) in Hc.
  apply in_map_iff in Hc as [[k v] [<- Hkv]].
  apply (Permutation_in _ (Object_entries_perm _)) in Hkv.
  apply in_map_iff in Hkv as [e [[= <- <-] He]]. eauto.
Qed.

Lemma build_sorted :
  Consistent localeCompare ->
  forall n p d cs,
    In d (subnodes (build n p)) -> children d = Some cs -> Sorted byPathLe cs.
Proof.
  intros HC n. induction n as [f|own proto IH] using NestedNode_induction; intros p d cs Hd Hcs.
  - destruct Hd as [<-|[]]. discriminate.
  - destruct Hd as [<-|Hd].
    + simpl in Hcs. injection Hcs as <-.
      apply (Array_sort_sorted (byPath localeCompare)), byPath_consistent, HC.
    + apply in_flat_map in Hd as [c [Hc Hd]].
      destruct (build_child_in own proto p c _ eq_refl Hc) as [e [He ->]].
      rewrite Forall_forall in IH. eapply IH; eauto.
Qed.

(** C6. An empty file list gives the single empty root directory whose
    hash is the SHA-256 of the empty string. *)
Theorem buildTreeFromFiles_empty :
  exists tree,
    buildTreeFromFiles Date_now localeCompare [] = Some tree /\
    nodeType tree = Directory /\
    path tree = js "root" /\
    children tree = Some [] /\
    isLeaf tree = false /\
    size tree = 0%Z /\
    hash tree = js "e3b0c44298fc1c149afbf4c8996fb92427ae41e4649b934ca495991b7852b855" /\
    hash tree = hashContent [] /\
    subnodes tree = [tree].
Proof.
  eexists. split; [reflexivity|].
  do 5 (split; [reflexivity|]).
  split; [vm_compute; reflexivity|]. split; reflexivity.
Qed.

(** C2 (amended). hashDirectory hashes the concatenation of
    child.hash followed by child.path, with nothing in between, taken
    over a copy of its argument that it first sorts by path with
    localeCompare; the result is 64 lower-case hexadecimal digits, and it
    is the hash of the concatenation in the caller's order exactly when
    that order is already the sorted one. *)
Theorem hashDirectory_hashes_sorted_concatenation :
  Consistent localeCompare ->
  forall entries : list (jsstring * jsstring),
    let le := fun a b : jsstring * jsstring => (localeCompare (snd a) (snd b) <= 0)%Z in
    (exists sorted,
        Permutation sorted entries /\ Sorted le sorted /\
        hashDirectory localeCompare entries =
        hashContent (concat (map (fun c => fst c ++ snd c) sorted))) /\
    (Sorted le entries ->
     hashDirectory localeCompare entries =
     hashContent (concat (map (fun c => fst c ++ snd c) entries))) /\
    length (hashDirectory localeCompare entries) = 64%nat /\
    Forall lower_hex (hashDirectory localeCompare entries).
Proof.
  intros HC entries le. repeat split.
  - exists (Array_sort (fun a b => localeCompare (snd a) (snd b)) entries).
    repeat split.
    + apply Array_sort_perm.
    + apply (Array_sort_sorted (fun a b => localeCompare (snd a) (snd b))).
      apply (Consistent_on localeCompare snd), HC.
  - intros Hs. unfold hashDirectory.
    now rewrite (Array_sort_sorted_id (fun a b => localeCompare (snd a) (snd b))).
  - apply hashContent_hex.
  - apply hashContent_hex.
Qed.
End MerkleFacts.

Lemma hashDirectory_hashes_sorted_concatenation_witness :
  let entries := [(js "h2", js "a"); (js "h1", js "b")] in
  let le := fun a b : jsstring * jsstring => (letterCollation (snd a) (snd b) <= 0)%Z in
  Consistent letterCollation /\
  Sorted le entries /\
  (exists sorted,
      Permutation sorted entries /\ Sorted le sorted /\
      hashDirectory letterCollation entries =
      hashContent (concat (map (fun c => fst c ++ snd c) sorted))) /\
  (Sorted le entries ->
   hashDirectory letterCollation entries =
   hashContent (concat (map (fun c => fst c ++ snd c) entries))) /\
  length (hashDirectory letterCollation entries) = 64%nat /\
  Forall lower_hex (hashDirectory letterCollation entries).
Proof.
  intros entries le.
  split; [apply letterCollation_consistent|]. split.
  - repeat constructor. vm_compute. discriminate.
  - apply (hashDirectory_hashes_sorted_concatenation letterCollation
             letterCollation_consistent).
Defined.

(** C2 (as stated) fails: given the children b, a in that order the
    operation hashes h2 a h1 b, not the caller's h1 b h2 a. *)
Lemma hashDirectory_reorders :
  let entries := [(js "h1", js "b"); (js "h2", js "a")] in
  hashDirectory letterCollation entries <>
    hashContent (concat (map (fun c => fst c ++ snd c) entries)) /\
  hashDirectory letterCollation entries = hashContent (js "h2ah1b").
Proof.
  split; [vm_differ|reflexivity].
Qed.

(* ------------------------------------------------------------------ *)
(** * split and join *)

Lemma String_split_nonempty sep s : String_split sep s <> [].
Proof.
  induction s as [|c s IH]; simpl; [discriminate|].
  destruct (c =? sep); [discriminate|].
  destruct (String_split sep s); [contradiction|discriminate].
Qed.

Lemma Array_join_cons_piece sep c p ps :
  Array_join sep ((c :: p) :: ps) = c :: Array_join sep (p :: ps).
Proof. reflexivity. Qed.

Lemma String_split_join sep s : Array_join sep (String_split sep s) = s.
Proof.
  induction s as [|c s IH]; [reflexivity|].
  cbn [String_split].
  destruct (String_split sep s) as [|p ps] eqn:E;
    [now destruct (String_split_nonempty sep s)|].
  destruct (N.eqb_spec c sep) as [->|ne].
  - change (sep :: Array_join sep (p :: ps) = sep :: s). now rewrite IH.
  - change (c :: Array_join sep (p :: ps) = c :: s). now rewrite IH.
Qed.

Lemma parts_of_inj f g : parts_of f = parts_of g -> fi_path f = fi_path g.
Proof.
  unfold parts_of. intros H.
  rewrite <- (String_split_join slash (fi_path f)), <- (String_split_join slash (fi_path g)).
  now rewrite H.
Qed.

(* ------------------------------------------------------------------ *)
(** * Paths given to the nodes of a tree *)

Lemma childPath_root name : childPath (js "root") name = name.
Proof. reflexivity. Qed.

Lemma childPath_other parent name :
  parent <> js "root" -> childPath parent name = parent ++ slash :: name.
Proof.
  intros H. unfold childPath. apply str_eqb_neq in H. now rewrite H.
Qed.

Lemma childPath_inj parent a b : childPath parent a = childPath parent b -> a = b.
Proof.
  unfold childPath. destruct (str_eqb parent (js "root")); auto.
  intros H. apply app_inv_head in H. now injection H.
Qed.

Lemma slash_not_root l r : l ++ slash :: r <> js "root".
Proof.
  intros H. assert (Hin : In slash (js "root")) by (rewrite <- H; apply in_elt).
  vm_compute in Hin. intuition discriminate.
Qed.

Lemma walk_other parent parts :
  parent <> js "root" ->
  walk parent parts = parent ++ concat (map (fun q => slash :: q) parts).
Proof.
  revert parent; induction parts as [|p parts IH]; intros parent H; simpl.
  - now rewrite app_nil_r.
  - unfold walk in *. simpl. rewrite childPath_other by assumption.
    rewrite IH by apply slash_not_root.
    now rewrite <- app_assoc.
Qed.

Lemma walk_root parts :
  parts <> [] ->
  (forall rest, parts = js "root" :: rest -> rest = []) ->
  walk (js "root") parts = Array_join slash parts.
Proof.
  destruct parts as [|p rest]; intros Hne H; [contradiction|].
  unfold walk. simpl fold_left. rewrite childPath_root.
  destruct (str_eqb_spec p (js "root")) as [->|ne].
  - now rewrite (H rest eq_refl).
  - now apply walk_other.
Qed.

(* ------------------------------------------------------------------ *)
(** * Induction over Merkle trees and the Added collection *)

Lemma collectAdded_fold cs :
  Forall (fun c => forall acc, collectAddedRecursive c acc = acc ++ collectAddedRecursive c []) cs ->
  forall acc,
    fold_left (fun acc child => collectAddedRecursive child acc) cs acc =
    acc ++ flat_map (fun c => collectAddedRecursive c []) cs.
Proof.
  induction 1 as [|c cs Hc _ IH]; intros acc; simpl.
  - now rewrite app_nil_r.
  - rewrite IH, Hc. now rewrite <- app_assoc.
Qed.

Lemma collectAdded_app t :
  forall acc, collectAddedRecursive t acc = acc ++ collectAddedRecursive t [].
Proof.
  induction t as [h t p s m c cs l IH] using MerkleNode_induction. intros acc.
  destruct l; simpl; [reflexivity|].
  destruct cs as [cs|]; [|now rewrite app_nil_r].
  rewrite (collectAdded_fold cs (IH cs eq_refl) acc).
  now rewrite (collectAdded_fold cs (IH cs eq_refl) []).
Qed.

Lemma collectAdded_directory t cs :
  isLeaf t = false -> children t = Some cs ->
  collectAddedRecursive t [] = flat_map (fun c => collectAddedRecursive c []) cs.
Proof.
  destruct t as [h t p s m c cs0 l]; simpl. intros -> ->.
  rewrite collectAdded_fold; [reflexivity|].
  apply Forall_forall. intros x _. apply collectAdded_app.
Qed.

Lemma Permutation_flat_map_pointwise {A B} (f g : A -> list B) l :
  Forall (fun x => Permutation (f x) (g x)) l ->
  Permutation (flat_map f l) (flat_map g l).
Proof.
  induction 1; simpl; auto using Permutation_app.
Qed.

Lemma map_flat_map_swap {A B C} (F : B -> C) (g : A -> list B) l :
  map F (flat_map g l) = flat_map (fun x => map F (g x)) l.
Proof.
  induction l as [|x l IH]; simpl; auto. now rewrite map_app, IH.
Qed.

Section AddedFacts.
Variable Date_now : Z.
Variable localeCompare : jsstring -> jsstring -> Z.
#[local] Abbreviation build := (buildTreeFromNested Date_now localeCompare).

Lemma collectAdded_build n :
  forall p, Permutation (collectAddedRecursive (build n p) []) (map (added_at p) (leaves n)).
Proof.
  induction n as [f|own proto IH] using NestedNode_induction; intros p.
  - apply Permutation_refl.
  - rewrite (collectAdded_directory (build (NDir own proto) p) _ eq_refl
              (build_children _ _ own proto p)).
    rewrite (Permutation_flat_map _ (Array_sort_perm _ _)).
    rewrite (Permutation_flat_map _ (Permutation_map snd (Object_entries_perm _))).
    rewrite map_map, flat_map_concat_map, map_map, <- flat_map_concat_map.
    cbn [fst snd leaves]. rewrite map_flat_map_swap.
    apply Permutation_flat_map_pointwise.
    rewrite Forall_forall in *. intros e He.
    rewrite (IH e He), map_map. apply Permutation_refl.
Qed.
End AddedFacts.

(* ------------------------------------------------------------------ *)
(** * Objects used as dictionaries *)

Section DictFacts.
Context {V : Type}.
Implicit Types d : list (jsstring * V).

Lemma dict_get_In k d v : dict_get k d = Some v -> In (k, v) d.
Proof.
  induction d as [|[k' v'] d IH]; simpl; [discriminate|].
  destruct (str_eqb_spec k k') as [->|ne].
  - intros [= ->]. now left.
  - intros H. right. auto.
Qed.

Lemma dict_get_None k d : dict_get k d = None <-> ~ In k (map fst d).
Proof.
  induction d as [|[k' v'] d IH]; simpl; [tauto|].
  destruct (str_eqb_spec k k') as [->|ne].
  - split; [discriminate|]. intros H. exfalso. auto.
  - rewrite IH. split; intros H; [intros [E|I]; [congruence|auto]|auto].
Qed.

Lemma dict_get_unique k d v :
  NoDup (map fst d) -> In (k, v) d -> dict_get k d = Some v.
Proof.
  induction d as [|[k' v'] d IH]; simpl; [tauto|].
  intros Hnd [E|I]; inversion Hnd as [|? ? Hk Hnd']; subst.
  - injection E as -> ->. now rewrite str_eqb_refl.
  - destruct (str_eqb_spec k k') as [->|ne]; auto.
    exfalso. apply Hk. apply (in_map fst) in I. exact I.
Qed.

Lemma dict_set_absent k v d : dict_get k d = None -> dict_set k v d = d ++ [(k, v)].
Proof.
  induction d as [|[k' v'] d IH]; simpl; auto.
  destruct (str_eqb k k'); [discriminate|]. intros H. now rewrite IH.
Qed.

Lemma dict_set_present k v v0 d :
  dict_get k d = Some v0 ->
  exists l1 l2, d = l1 ++ (k, v0) :: l2 /\ dict_set k v d = l1 ++ (k, v) :: l2.
Proof.
  induction d as [|[k' v'] d IH]; simpl; [discriminate|].
  destruct (str_eqb_spec k k') as [->|ne].
  - intros [= ->]. now exists [], d.
  - intros H. destruct (IH H) as [l1 [l2 [-> ->]]].
    now exists ((k', v') :: l1), l2.
Qed.
End DictFacts.

(* ------------------------------------------------------------------ *)
(** * Placing one file in the nested structure *)

Lemma leaves_dir own proto : leaves (NDir own proto) = flat_map chunk own.
Proof. reflexivity. Qed.

Lemma in_leaves_dir own proto k c q g :
  In (k, c) own -> In (q, g) (leaves c) -> In (k :: q, g) (leaves (NDir own proto)).
Proof.
  intros Hk Hq. rewrite leaves_dir. apply in_flat_map. exists (k, c). split; auto.
  unfold chunk. apply in_map_iff. exists (q, g). auto.
Qed.

Lemma is_prefix_cons {A} (x : A) a b : is_prefix a b -> is_prefix (x :: a) (x :: b).
Proof. intros [c ->]. now exists c. Qed.

Lemma existsb_str_eqb_false k l : ~ In k l -> existsb (str_eqb k) l = false.
Proof.
  induction l as [|x l IH]; simpl; auto. intros H.
  destruct (str_eqb_spec k x) as [->|ne]; [tauto|]. apply IH. tauto.
Qed.

Lemma get_child_own own proto k c : dict_get k own = Some c -> get_child own proto k = LNode c.
Proof. intros H. unfold get_child. now rewrite H. Qed.

Lemma get_child_fresh own k :
  dict_get k own = None -> ~ reserved k -> get_child own None k = LFalsy.
Proof.
  intros H Hr. unfold get_child, reserved in *. rewrite H.
  destruct (str_eqb_spec k proto_key) as [->|ne]; [tauto|].
  rewrite existsb_str_eqb_false; tauto.
Qed.

Lemma place_last p f own proto :
  p <> proto_key ->
  place [p] f (NDir own proto) = Some (NDir (dict_set p (NFile f) own) proto).
Proof. intros H. simpl. apply str_eqb_neq in H. now rewrite H. Qed.

Lemma place_inner p p2 later f own proto :
  place (p :: p2 :: later) f (NDir own proto) =
  match get_child own proto p with
  | LNode child =>
      match place (p2 :: later) f child with
      | Some child' => Some (NDir (dict_set p child' own) proto)
      | None => None
      end
  | LFalsy =>
      match place (p2 :: later) f (NDir [] None) with
      | Some child' => Some (NDir (dict_set p child' own) proto)
      | None => None
      end
  | LForeign => None
  end.
Proof. reflexivity. Qed.

Lemma tidy_empty : tidy (NDir [] None).
Proof. constructor; constructor. Qed.

Lemma chunk_perm k c c' x :
  Permutation (leaves c') (x :: leaves c) ->
  Permutation (chunk (k, c')) ((k :: fst x, snd x) :: chunk (k, c)).
Proof.
  intros H. unfold chunk. cbn [fst snd].
  now rewrite (Permutation_map _ H).
Qed.

Lemma tidy_append own k c :
  tidy (NDir own None) -> dict_get k own = None -> tidy c -> leaves c <> [] ->
  tidy (NDir (own ++ [(k, c)]) None).
Proof.
  intros Ht Hk Hc Hl. inversion Ht as [|? Hnd Hall]; subst.
  constructor.
  - rewrite map_app. simpl.
    apply (Permutation_NoDup (Permutation_cons_append (map fst own) k)).
    constructor; auto. now apply dict_get_None.
  - apply Forall_app. split; auto.
Qed.

Lemma leaves_append own k c x :
  Permutation (leaves c) [x] ->
  Permutation (leaves (NDir (own ++ [(k, c)]) None))
              ((k :: fst x, snd x) :: leaves (NDir own None)).
Proof.
  intros H. rewrite !leaves_dir, flat_map_app. cbn [flat_map]. rewrite app_nil_r.
  rewrite (chunk_perm k (NDir [] None) c x) by exact H.
  change (chunk (k, NDir [] None)) with (@nil (list jsstring * FileEntry)).
  apply Permutation_sym, Permutation_cons_append.
Qed.

Lemma place_spec :
  forall parts f N,
    parts <> [] ->
    (forall part, In part parts -> ~ reserved part) ->
    tidy N -> clear_of parts (leaves N) ->
    exists N',
      place parts f N = Some N' /\ tidy N' /\
      Permutation (leaves N') ((parts, f) :: leaves N).
Proof.
  induction parts as [|p later IH]; intros f N Hne Hres Ht Hclear; [contradiction|].
  destruct N as [g|own proto].
  { exfalso. destruct (Hclear [] g (or_introl eq_refl)) as [H _].
    apply H. now exists (p :: later). }
  assert (Hp : ~ reserved p) by (apply Hres; now left).
  inversion Ht as [|? Hnd Hall]; subst.
  destruct later as [|p2 later].
  - (* the last part: the file itself *)
    rewrite place_last by (intros ->; apply Hp; now left).
    destruct (dict_get p own) as [child|] eqn:E.
    + exfalso. apply dict_get_In in E.
      rewrite Forall_forall in Hall. destruct (Hall _ E) as [_ Hl]. cbn [snd] in Hl.
      destruct (leaves child) as [|[q g] r] eqn:El; [contradiction|].
      destruct (Hclear (p :: q) g) as [_ H].
      * eapply in_leaves_dir; eauto. rewrite El. now left.
      * apply H. now exists q.
    + rewrite (dict_set_absent _ _ _ E). eexists. split; [reflexivity|]. split.
      * apply tidy_append; auto using tidy. discriminate.
      * apply (leaves_append own p (NFile f) ([], f)). apply Permutation_refl.
  - (* a directory on the way *)
    rewrite place_inner.
    assert (Hres' : forall part, In part (p2 :: later) -> ~ reserved part)
      by (intros part Hpart; apply Hres; now right).
    destruct (dict_get p own) as [child|] eqn:E.
    + rewrite (get_child_own _ _ _ _ E).
      pose proof (dict_get_In _ _ _ E) as Hin.
      assert (Hchild : tidy child).
      { rewrite Forall_forall in Hall. now destruct (Hall _ Hin). }
      destruct (IH f child ltac:(discriminate) Hres' Hchild) as [child' [Hpl [Ht' Hl']]].
      { intros q g Hq. destruct (Hclear (p :: q) g) as [H1 H2].
        - eapply in_leaves_dir; eauto.
        - split; intros H; [apply H1|apply H2]; now apply is_prefix_cons. }
      rewrite Hpl. eexists. split; [reflexivity|].
      destruct (dict_set_present p child' child own E) as [l1 [l2 [Eown ->]]].
      subst own. split.
      * constructor.
        -- rewrite map_app in *. exact Hnd.
        -- apply Forall_app in Hall as [H1 H2]. inversion H2; subst.
           apply Forall_app. split; auto. constructor; auto. split; auto.
           cbn [snd]. intros Hnil. rewrite Hnil in Hl'.
           apply Permutation_nil in Hl'. discriminate.
      * rewrite !leaves_dir, !flat_map_app. cbn [flat_map].
        rewrite (chunk_perm p child child' (p2 :: later, f)) by exact Hl'.
        cbn [fst snd]. rewrite <- app_comm_cons.
        apply Permutation_sym, Permutation_middle.
    + rewrite (get_child_fresh _ _ E Hp).
      destruct (IH f (NDir [] None) ltac:(discriminate) Hres' tidy_empty)
        as [child' [Hpl [Ht' Hl']]].
      { intros q g []. }
      rewrite Hpl, (dict_set_absent _ _ _ E). eexists. split; [reflexivity|]. split.
      * apply tidy_append; auto.
        intros Hnil. rewrite Hnil in Hl'. apply Permutation_nil in Hl'. discriminate.
      * apply (leaves_append own p child' (p2 :: later, f)). exact Hl'.
Qed.

(* ------------------------------------------------------------------ *)
(** * The nested structure built from a list of files *)

Lemma antichain_perm l l' : Permutation l l' -> antichain l -> antichain l'.
Proof.
  intros Hp [Hnd Hpre]. split.
  - eapply Permutation_NoDup; eauto.
  - intros a b Ha Hb.
    apply Hpre; (eapply Permutation_in; [apply Permutation_sym; exact Hp|assumption]).
Qed.

Section NestedFacts.
Variable Date_now : Z.

#[local] Abbreviation entry_of :=
  (fun file : FileInput => (parts_of file, file_entry Date_now file)).
#[local] Abbreviation step :=
  (fun (root : option NestedNode) (file : FileInput) =>
     match root with
     | Some r => place (String_split slash (fi_path file)) (file_entry Date_now file) r
     | None => None
     end).

Lemma nested_fold_spec files :
  unreserved_paths files ->
  forall N0,
    tidy N0 ->
    antichain (map fst (leaves N0) ++ map parts_of files) ->
    exists N,
      fold_left step files (Some N0) = Some N /\ tidy N /\
      Permutation (leaves N) (leaves N0 ++ map entry_of files).
Proof.
  induction files as [|x files IH]; intros Hres N0 Ht Hanti.
  - exists N0. simpl. rewrite app_nil_r. auto.
  - cbn [fold_left map] in *.
    destruct (place_spec (parts_of x) (file_entry Date_now x) N0) as [N1 [Hpl [Ht1 Hl1]]].
    + apply String_split_nonempty.
    + intros part Hpart. apply (Hres x part); auto. now left.
    + exact Ht.
    + destruct Hanti as [Hnd Hpre]. intros q g Hq.
      assert (Hin : In q (map fst (leaves N0))) by (apply (in_map fst) in Hq; exact Hq).
      assert (Hne : q <> parts_of x).
      { intros ->. apply NoDup_remove_2 in Hnd. apply Hnd. apply in_or_app. now left. }
      split; intros H; apply Hne.
      * apply Hpre; auto; apply in_or_app; [now left|right; now left].
      * symmetry. apply Hpre; auto; apply in_or_app; [right; now left|now left].
    + unfold parts_of in Hpl. rewrite Hpl.
      destruct (IH (fun f part Hf => Hres f part (or_intror Hf)) N1 Ht1) as [N [Hf [HtN HlN]]].
      * eapply antichain_perm; [|exact Hanti].
        rewrite (Permutation_map fst Hl1). cbn [map fst].
        apply Permutation_sym, Permutation_middle.
      * exists N. split; [exact Hf|]. split; [exact HtN|].
        rewrite HlN, Hl1. cbn [app]. apply Permutation_middle.
Qed.

Lemma buildNestedStructure_spec files :
  NoDup (map fi_path files) -> no_nested_paths files -> unreserved_paths files ->
  exists N,
    buildNestedStructure Date_now files = Some N /\ tidy N /\
    Permutation (leaves N) (map entry_of files).
Proof.
  intros Hnd Hnest Hres.
  destruct (nested_fold_spec files Hres (NDir [] None) tidy_empty) as [N H];
    [|exists N; exact H].
  cbn [leaves flat_map map app]. split.
  - induction files as [|x files IH]; simpl in *; [constructor|].
    inversion Hnd as [|? ? Hx Hnd']; subst. constructor.
    + intros Hin. apply in_map_iff in Hin as [y [Hy Hin]].
      apply Hx. apply in_map_iff. exists y. split; auto. now apply parts_of_inj.
    + apply IH; auto.
      * intros f g Hf Hg. apply Hnest; now right.
      * intros f part Hf. apply (Hres f part). now right.
  - intros a b Ha Hb Hpre.
    apply in_map_iff in Ha as [f [<- Hf]]. apply in_map_iff in Hb as [g [<- Hg]].
    unfold parts_of. now rewrite (Hnest f g Hf Hg Hpre).
Qed.
End NestedFacts.

Section FirstSync.
Variable Date_now : Z.
Variable localeCompare : jsstring -> jsstring -> Z.

(** C4 (amended). When the input paths are pairwise distinct, none of
    them lies below another one used as a directory, none has a part
    named like a property of Object.prototype, and no top-level
    directory is called root, the first comparison (old tree null)
    reports exactly one Added change per input file, carrying that file's
    path and the SHA-256 of the UTF-8 encoding of its content. *)
Theorem first_sync_adds_every_file :
  forall files,
    NoDup (map fi_path files) ->
    no_nested_paths files ->
    unreserved_paths files ->
    no_root_directory files ->
    exists tree result,
      buildTreeFromFiles Date_now localeCompare files = Some tree /\
      compareTrees None tree = Some result /\
      Permutation (changes result) (map added_change files).
Proof.
  intros files Hnd Hnest Hres Hroot.
  destruct files as [|x files].
  { eexists. eexists. split; [reflexivity|]. split; [reflexivity|]. constructor. }
  destruct (buildNestedStructure_spec Date_now _ Hnd Hnest Hres) as [N [HN [_ Hl]]].
  unfold buildTreeFromFiles. rewrite HN.
  eexists. eexists. split; [reflexivity|]. split; [reflexivity|].
  cbn [changes]. rewrite collectAdded_build, Hl, map_map.
  erewrite map_ext_in; [apply Permutation_refl|].
  intros f Hf. unfold added_at, added_change. cbn [fst snd file_entry fe_content].
  f_equal. rewrite walk_root.
  - apply String_split_join.
  - apply String_split_nonempty.
  - intros rest. apply Hroot. exact Hf.
Qed.
End FirstSync.

Lemma twoSources_distinct : NoDup (map fi_path twoSources).
Proof. repeat constructor; simpl; intuition discriminate. Qed.

Lemma twoSources_not_nested : no_nested_paths twoSources.
Proof.
  intros f g [<-|[<-|[]]] [<-|[<-|[]]] [c Hc]; try reflexivity;
    vm_compute in Hc; discriminate.
Qed.

Lemma twoSources_unreserved : unreserved_paths twoSources.
Proof.
  intros f part [<-|[<-|[]]] Hp; vm_compute in Hp;
    destruct Hp as [<-|[<-|[]]]; intros [H|H]; vm_compute in H;
    intuition discriminate.
Qed.

Lemma twoSources_no_root_directory : no_root_directory twoSources.
Proof. intros f rest [<-|[<-|[]]] H; vm_compute in H; discriminate. Qed.

Lemma first_sync_adds_every_file_witness :
  NoDup (map fi_path twoSources) /\ no_nested_paths twoSources /\
  unreserved_paths twoSources /\ no_root_directory twoSources /\
  exists tree result,
    buildTreeFromFiles 0 letterCollation twoSources = Some tree /\
    compareTrees None tree = Some result /\
    Permutation (changes result) (map added_change twoSources).
Proof.
  split; [exact twoSources_distinct|]. split; [exact twoSources_not_nested|].
  split; [exact twoSources_unreserved|]. split; [exact twoSources_no_root_directory|].
  exact (first_sync_adds_every_file 0 letterCollation twoSources
           twoSources_distinct twoSources_not_nested
           twoSources_unreserved twoSources_no_root_directory).
Defined.

(** C4 (as stated) fails. The two distinct paths a/b and a, given in that
    order, leave a tree that holds the file a only, so the first comparison
    reports one Added change instead of two. A file below a top-level
    directory called root is reported without that directory in its path,
    and a file called __proto__ is not reported at all. *)
Lemma first_sync_misses_nested_path :
  (let files := [plainFile "a/b" "y"; plainFile "a" "x"] in
   NoDup (map fi_path files) /\
   exists tree result,
     buildTreeFromFiles 0 letterCollation files = Some tree /\
     compareTrees None tree = Some result /\
     map fc_path (changes result) = [js "a"] /\
     ~ Permutation (changes result) (map added_change files)) /\
  (exists tree result,
     buildTreeFromFiles 0 letterCollation [plainFile "root/a.ts" "x"] = Some tree /\
     compareTrees None tree = Some result /\
     map fc_path (changes result) = [js "a.ts"]) /\
  (exists tree result,
     buildTreeFromFiles 0 letterCollation [plainFile "__proto__" "x"] = Some tree /\
     compareTrees None tree = Some result /\
     changes result = []).
Proof.
  split; [split|split].
  - repeat constructor; simpl; intuition discriminate.
  - eexists. eexists. split; [reflexivity|]. split; [reflexivity|].
    split; [reflexivity|].
    intros H. apply Permutation_length in H. discriminate.
  - eexists. eexists. split; [reflexivity|]. split; reflexivity.
  - eexists. eexists. split; [reflexivity|]. split; reflexivity.
Qed.

(* ------------------------------------------------------------------ *)
(** * The comparison always returns *)

Lemma dict_set_In {V} k (v : V) d k' v' :
  In (k', v') (dict_set k v d) -> In (k', v') d \/ v' = v.
Proof.
  induction d as [|[k0 v0] d IH]; cbn [dict_set].
  - intros [[= _ <-]|[]]. now right.
  - destruct (str_eqb k k0).
    + intros [[= _ <-]|H]; [now right|left; now right].
    + intros [H|H]; [left; now left|].
      destruct (IH H) as [H'|H']; [left; now right|now right].
Qed.

Lemma Map_of_children_values cs k v : In (k, v) (Map_of_children cs) -> In v cs.
Proof.
  unfold Map_of_children.
  assert (H : forall m, In (k, v) (fold_left (fun m child => dict_set (path child) child m) cs m) ->
                        In (k, v) m \/ In v cs).
  { induction cs as [|c cs IH]; intros m Hin; [now left|].
    cbn [fold_left] in Hin. destruct (IH _ Hin) as [H|H]; [|right; now right].
    destruct (dict_set_In _ _ _ _ _ H) as [H'|H']; [now left|right; left; now symmetry]. }
  intros Hin. destruct (H [] Hin) as [[]|Hv]. exact Hv.
Qed.

Lemma height_child n cs c : children n = Some cs -> In c cs -> (height c < height n)%nat.
Proof.
  destruct n as [h t p s m cr cs0 l]. cbn [children height]. intros -> Hc.
  induction cs as [|x cs IH]; [contradiction|]. cbn [fold_right].
  destruct Hc as [->|Hc]; [lia|]. specialize (IH Hc). lia.
Qed.

Lemma compareTreesRecursive_total fuel :
  forall oldNode newNode acc,
    (height newNode < fuel)%nat ->
    exists r, compareTreesRecursive fuel oldNode newNode acc = Some r.
Proof.
  induction fuel as [|fuel IH]; intros oldNode newNode acc Hh; [lia|].
  cbn [compareTreesRecursive].
  destruct (str_eqb (hash oldNode) (hash newNode)); [eauto|].
  destruct (isLeaf oldNode && isLeaf newNode); [eauto|].
  destruct (negb (isLeaf oldNode) && negb (isLeaf newNode)); [|eauto].
  set (oldMap := Map_of_children (children_or_empty oldNode)).
  set (start := fold_left _ oldMap acc).
  assert (Hvals : forall e, In e (Map_of_children (children_or_empty newNode)) ->
                            (height (snd e) < fuel)%nat).
  { intros [k v] He. apply Map_of_children_values in He.
    unfold children_or_empty in He.
    destruct (children newNode) as [cs|] eqn:E; [|contradiction].
    pose proof (height_child _ _ _ E He). cbn [snd]. lia. }
  revert Hvals. generalize (Map_of_children (children_or_empty newNode)).
  generalize start. clear start.
  intros start newMap. revert start.
  induction newMap as [|e newMap IHm]; intros start Hvals; cbn [fold_left]; [eauto|].
  destruct (dict_get (fst e) oldMap) as [oldChild|].
  - destruct (negb (str_eqb (hash oldChild) (hash (snd e)))).
    + destruct (IH oldChild (snd e) start) as [r ->]; [apply Hvals; now left|].
      apply IHm. intros e' He'. apply Hvals. now right.
    + apply IHm. intros e' He'. apply Hvals. now right.
  - apply IHm. intros e' He'. apply Hvals. now right.
Qed.

Lemma compareTrees_total oldTree newTree :
  exists result, compareTrees oldTree newTree = Some result.
Proof.
  unfold compareTrees. destruct oldTree as [old|]; [|eauto].
  destruct (str_eqb (hash old) (hash newTree)); [eauto|].
  destruct (compareTreesRecursive_total (S (height newTree)) old newTree []) as [r ->];
    [lia|eauto].
Qed.

(* ------------------------------------------------------------------ *)
(** * The files of a directory determine its tree *)

Lemma sub_perm k L L' : Permutation L L' -> Permutation (sub k L) (sub k L').
Proof. intros H. unfold sub. now apply Permutation_flat_map. Qed.

Lemma sub_app k A B : sub k (A ++ B) = sub k A ++ sub k B.
Proof. apply flat_map_app. Qed.

Lemma sub_chunk_same k c : sub k (chunk (k, c)) = leaves c.
Proof.
  unfold chunk. cbn [fst snd]. induction (leaves c) as [|[q g] l IH]; [reflexivity|].
  cbn [map fst snd]. unfold sub in *. cbn [flat_map fst snd].
  rewrite str_eqb_refl, IH. reflexivity.
Qed.

Lemma sub_chunk_other k k' c : k' <> k -> sub k (chunk (k', c)) = [].
Proof.
  intros H. unfold chunk. cbn [fst snd]. induction (leaves c) as [|[q g] l IH]; [reflexivity|].
  cbn [map fst snd]. unfold sub in *. cbn [flat_map fst snd].
  apply str_eqb_neq in H. rewrite H, IH. reflexivity.
Qed.

Lemma sub_outside k own :
  ~ In k (map fst own) -> sub k (flat_map chunk own) = [].
Proof.
  induction own as [|[k' c] own IH]; [reflexivity|].
  cbn [flat_map map fst In]. intros H. rewrite sub_app, sub_chunk_other, IH; auto.
Qed.

Lemma sub_inside k c own :
  NoDup (map fst own) -> In (k, c) own -> sub k (flat_map chunk own) = leaves c.
Proof.
  induction own as [|[k' c'] own IH]; [contradiction|].
  cbn [flat_map map fst]. intros Hnd Hin. inversion Hnd as [|? ? Hk Hnd']; subst.
  rewrite sub_app. destruct Hin as [[= -> ->]|Hin].
  - rewrite sub_chunk_same, sub_outside, app_nil_r; auto.
  - rewrite sub_chunk_other, IH; auto.
    intros ->. apply Hk. now apply (in_map fst) in Hin.
Qed.

Lemma own_functional (own : list (jsstring * NestedNode)) k c1 c2 :
  NoDup (map fst own) -> In (k, c1) own -> In (k, c2) own -> c1 = c2.
Proof.
  intros Hnd H1 H2.
  apply (dict_get_unique _ _ _ Hnd) in H1. apply (dict_get_unique _ _ _ Hnd) in H2.
  congruence.
Qed.

Lemma children_correspond own own' :
  tidy (NDir own None) -> tidy (NDir own' None) ->
  Permutation (leaves (NDir own None)) (leaves (NDir own' None)) ->
  forall k c, In (k, c) own ->
    exists c', In (k, c') own' /\ Permutation (leaves c) (leaves c').
Proof.
  intros Ht Ht' Hperm k c Hin.
  inversion Ht as [|? Hnd Hall]; subst. inversion Ht' as [|? Hnd' Hall']; subst.
  apply (sub_perm k) in Hperm. rewrite !leaves_dir in Hperm.
  rewrite (sub_inside k c own Hnd Hin) in Hperm.
  destruct (dict_get k own') as [c'|] eqn:E.
  - apply dict_get_In in E. exists c'. split; auto.
    now rewrite (sub_inside k c' own' Hnd' E) in Hperm.
  - apply dict_get_None in E. rewrite (sub_outside k own' E) in Hperm.
    apply Permutation_sym, Permutation_nil in Hperm.
    rewrite Forall_forall in Hall. destruct (Hall _ Hin) as [_ Hne]. contradiction.
Qed.

Lemma leaves_dir_nonempty_parts own proto q g :
  In (q, g) (leaves (NDir own proto)) -> q <> [].
Proof.
  rewrite leaves_dir. intros H. apply in_flat_map in H as [e [_ H]].
  unfold chunk in H. apply in_map_iff in H as [qf [[= <- _] _]]. discriminate.
Qed.

Lemma NoDup_map_injective {A B} (f : A -> B) l :
  (forall x y, f x = f y -> x = y) -> NoDup l -> NoDup (map f l).
Proof.
  intros Hf. induction 1 as [|x l Hx Hnd IH]; simpl; constructor; auto.
  intros Hin. apply in_map_iff in Hin as [y [E Hy]].
  apply Hf in E. now subst.
Qed.

Lemma subnodes_self t : In t (subnodes t).
Proof. destruct t; now left. Qed.

Lemma subnodes_child t cs c :
  children t = Some cs -> In c cs -> incl (subnodes c) (subnodes t).
Proof.
  intros Hcs Hc x Hx. destruct t as [h ty p s m cr cs0 l]. simpl in *. subst cs0.
  right. apply in_flat_map. eauto.
Qed.

Section Determined.
Variable Date_now : Z.
Variable localeCompare : jsstring -> jsstring -> Z.
Hypothesis localeCompare_consistent : Consistent localeCompare.

#[local] Abbreviation build := (buildTreeFromNested Date_now localeCompare).
#[local] Abbreviation built_child :=
  (fun (p : jsstring) (e : jsstring * NestedNode) => build (snd e) (childPath p (fst e))).

#[local] Abbreviation separated := (separated localeCompare).

Lemma build_path n p : path (build n p) = p.
Proof. destruct n; reflexivity. Qed.

Lemma build_children_perm own proto p cs :
  children (build (NDir own proto) p) = Some cs ->
  Permutation cs (map (built_child p) own).
Proof.
  rewrite build_children. intros [= <-].
  rewrite Array_sort_perm, (Permutation_map snd (Object_entries_perm _)), map_map.
  apply Permutation_refl.
Qed.

Lemma build_dir_ext own own' proto proto' p :
  children (build (NDir own proto) p) = children (build (NDir own' proto') p) ->
  build (NDir own proto) p = build (NDir own' proto') p.
Proof.
  rewrite !build_children. intros [= H].
  cbn [buildTreeFromNested]. now rewrite H.
Qed.

Lemma built_children_NoDup own p :
  NoDup (map fst own) -> NoDup (map (built_child p) own).
Proof.
  intros H. apply (NoDup_map_inv path). rewrite map_map.
  erewrite map_ext; [|intros e; apply build_path].
  rewrite <- (map_map fst (childPath p)).
  apply NoDup_map_injective; auto. intros a b. apply childPath_inj.
Qed.

Lemma built_child_subnodes own proto p e :
  In e own ->
  incl (subnodes (built_child p e)) (subnodes (build (NDir own proto) p)).
Proof.
  intros He. eapply subnodes_child; [apply build_children|].
  eapply Permutation_in;
    [apply Permutation_sym, (build_children_perm own proto p), build_children|].
  apply (in_map (built_child p) own e He).
Qed.

Lemma leaves_determine n :
  forall n' p,
    tidy n -> tidy n' -> Permutation (leaves n) (leaves n') ->
    separated (build n p) -> build n p = build n' p.
Proof.
  induction n as [f|own proto IH] using NestedNode_induction;
    intros n' p Ht Ht' Hperm Hsep.
  - destruct n' as [f'|own' proto'].
    + apply Permutation_length_1 in Hperm. now injection Hperm as ->.
    + exfalso. eapply (leaves_dir_nonempty_parts own' proto' [] f); [|reflexivity].
      eapply Permutation_in; [exact Hperm|now left].
  - destruct n' as [f'|own' proto'].
    + exfalso. eapply (leaves_dir_nonempty_parts own proto [] f'); [|reflexivity].
      eapply Permutation_in; [apply Permutation_sym; exact Hperm|now left].
    + assert (proto = None) by (inversion Ht; reflexivity).
      assert (proto' = None) by (inversion Ht'; reflexivity). subst proto proto'.
      assert (Hnd : NoDup (map fst own)) by (inversion Ht; assumption).
      assert (Hnd' : NoDup (map fst own')) by (inversion Ht'; assumption).
      assert (Hkids : forall c, In c (map (built_child p) own) ->
                                In c (subnodes (build (NDir own None) p))).
      { intros c Hc. apply in_map_iff in Hc as [e [<- He]].
        apply (built_child_subnodes own None p e He), subnodes_self. }
      assert (Hfwd : forall k c, In (k, c) own ->
                exists c', In (k, c') own' /\ built_child p (k, c) = built_child p (k, c')).
      { intros k c Hin.
        destruct (children_correspond own own' Ht Ht' Hperm k c Hin) as [c' [Hin' Hl]].
        exists c'. split; auto. cbn [fst snd].
        rewrite Forall_forall in IH. apply (IH _ Hin); auto.
        - inversion Ht as [|? _ Hall]; subst. rewrite Forall_forall in Hall.
          now destruct (Hall _ Hin).
        - inversion Ht' as [|? _ Hall]; subst. rewrite Forall_forall in Hall.
          now destruct (Hall _ Hin').
        - intros a b Ha Hb.
          apply Hsep; apply (built_child_subnodes own None p (k, c) Hin); assumption. }
      assert (Hp : Permutation (map (built_child p) own) (map (built_child p) own')).
      { apply NoDup_Permutation; auto using built_children_NoDup.
        intros x. split; intros Hx; apply in_map_iff in Hx as [[k c] [<- Hin]].
        - destruct (Hfwd k c Hin) as [c' [Hin' ->]].
          apply (in_map (built_child p) own' (k, c') Hin').
        - destruct (children_correspond own' own Ht' Ht (Permutation_sym Hperm) k c Hin)
            as [c0 [Hin0 _]].
          destruct (Hfwd k c0 Hin0) as [c1 [Hin1 E]].
          rewrite (own_functional own' k c c1 Hnd' Hin Hin1), <- E.
          apply (in_map (built_child p) own (k, c0) Hin0). }
      apply build_dir_ext. rewrite !build_children. f_equal.
      apply (Array_sort_permutation_invariant (byPath localeCompare)).
      * apply byPath_consistent, localeCompare_consistent.
      * rewrite !(Permutation_map snd (Object_entries_perm _)), !map_map. exact Hp.
      * intros a b Ha Hb Hz.
        assert (Ha' : In a (map (built_child p) own)).
        { eapply Permutation_in; [|exact Ha].
          rewrite (Permutation_map snd (Object_entries_perm _)), map_map.
          apply Permutation_refl. }
        assert (Hb' : In b (map (built_child p) own)).
        { eapply Permutation_in; [|exact Hb].
          rewrite (Permutation_map snd (Object_entries_perm _)), map_map.
          apply Permutation_refl. }
        pose proof (Hsep a b (Hkids a Ha') (Hkids b Hb') Hz) as Hpath.
        apply in_map_iff in Ha' as [[ka ca] [<- Hina]].
        apply in_map_iff in Hb' as [[kb cb] [<- Hinb]].
        cbn [fst snd] in *. rewrite !build_path in Hpath.
        apply childPath_inj in Hpath. subst kb.
        now rewrite (own_functional own ka ca cb Hnd Hina Hinb).
Qed.
End Determined.

(* ------------------------------------------------------------------ *)
(** * Sibling paths are distinct *)

Lemma dict_set_keys {V} k (v : V) d :
  map fst (dict_set k v d) =
  match dict_get k d with
  | Some _ => map fst d
  | None => map fst d ++ [k]
  end.
Proof.
  induction d as [|[k' v'] d IH]; [reflexivity|]. cbn [dict_set dict_get].
  destruct (str_eqb k k'); [reflexivity|].
  cbn [map fst]. rewrite IH. now destruct (dict_get k d).
Qed.

Lemma dict_set_NoDup {V} k (v : V) d :
  NoDup (map fst d) -> NoDup (map fst (dict_set k v d)).
Proof.
  intros H. rewrite dict_set_keys. destruct (dict_get k d) eqn:E; [exact H|].
  apply (Permutation_NoDup (Permutation_cons_append (map fst d) k)).
  constructor; [now apply dict_get_None|exact H].
Qed.

Lemma dict_set_Forall {V} (P : jsstring * V -> Prop) k v d :
  (forall k', P (k', v)) -> Forall P d -> Forall P (dict_set k v d).
Proof.
  intros Hv. induction 1 as [|[k' v'] d Hx Hd IH]; cbn [dict_set].
  - constructor; auto.
  - destruct (str_eqb k k'); constructor; auto.
Qed.

Lemma distinct_keys_dir own proto k c :
  distinct_keys (NDir own proto) -> distinct_keys c ->
  distinct_keys (NDir (dict_set k c own) proto).
Proof.
  intros H Hc. inversion H as [|? ? Hnd Hall]; subst. constructor.
  - now apply dict_set_NoDup.
  - apply dict_set_Forall; auto.
Qed.

Lemma place_distinct_keys parts f :
  forall n n', distinct_keys n -> place parts f n = Some n' -> distinct_keys n'.
Proof.
  induction parts as [|p later IH]; intros n n' Hn Hpl.
  - injection Hpl as <-. exact Hn.
  - destruct n as [g|own proto]; [discriminate|].
    destruct later as [|p2 later].
    + cbn [place] in Hpl. destruct (str_eqb p proto_key).
      * injection Hpl as <-. inversion Hn; subst. now constructor.
      * injection Hpl as <-. apply distinct_keys_dir; auto. constructor.
    + rewrite place_inner in Hpl.
      destruct (get_child own proto p) as [child| |] eqn:E; [| discriminate |].
      * destruct (place (p2 :: later) f child) as [child'|] eqn:E'; [|discriminate].
        injection Hpl as <-. apply distinct_keys_dir; auto.
        apply (IH child); auto.
        unfold get_child in E. destruct (dict_get p own) as [c|] eqn:Eg.
        -- injection E as ->. apply dict_get_In in Eg.
           inversion Hn as [|? ? _ Hall]; subst. rewrite Forall_forall in Hall.
           apply (Hall _ Eg).
        -- exfalso. destruct (str_eqb p proto_key); [discriminate|].
           destruct (existsb (str_eqb p) Object_prototype_keys);
             destruct proto as [g|]; try discriminate;
             repeat match type of E with
                    | (if ?c then _ else _) = _ => destruct c
                    | match ?c with _ => _ end = _ => destruct c
                    end; discriminate.
      * destruct (place (p2 :: later) f (NDir [] None)) as [child'|] eqn:E'; [|discriminate].
        injection Hpl as <-. apply distinct_keys_dir; auto.
        apply (IH (NDir [] None)); auto. constructor; constructor.
Qed.

Section SiblingPaths.
Variable Date_now : Z.
Variable localeCompare : jsstring -> jsstring -> Z.
#[local] Abbreviation build := (buildTreeFromNested Date_now localeCompare).

Lemma buildNestedStructure_distinct_keys files n :
  buildNestedStructure Date_now files = Some n -> distinct_keys n.
Proof.
  unfold buildNestedStructure.
  assert (H : distinct_keys (NDir [] None)) by (constructor; constructor).
  revert H. generalize (NDir [] None).
  induction files as [|x files IH]; intros n0 Hn0 Hf; cbn [fold_left] in Hf.
  - now injection Hf as <-.
  - destruct (place (String_split slash (fi_path x)) (file_entry Date_now x) n0)
      as [n1|] eqn:E.
    + apply (IH n1); auto. eapply place_distinct_keys; eauto.
    + exfalso. clear -Hf. induction files as [|y files IHf]; [discriminate|].
      apply IHf. exact Hf.
Qed.

Lemma build_sibling_paths n :
  distinct_keys n ->
  forall p d cs,
    In d (subnodes (build n p)) -> children d = Some cs -> NoDup (map path cs).
Proof.
  induction n as [f|own proto IH] using NestedNode_induction; intros Hn p d cs Hd Hcs.
  - destruct Hd as [<-|[]]. discriminate.
  - inversion Hn as [|? ? Hnd Hall]; subst.
    destruct Hd as [<-|Hd].
    + apply (Permutation_NoDup
               (Permutation_sym
                  (Permutation_map path (build_children_perm _ _ own proto p cs Hcs)))).
      rewrite map_map. erewrite map_ext; [|intros e; apply build_path].
      rewrite <- (map_map fst (childPath p)).
      apply NoDup_map_injective; auto. intros a b. apply childPath_inj.
    + apply in_flat_map in Hd as [c [Hc Hd]].
      destruct (build_child_in _ _ own proto p c _ eq_refl Hc) as [e [He ->]].
      rewrite Forall_forall in IH, Hall. eapply (IH e He); eauto.
Qed.
End SiblingPaths.

Section SortedChildren.
Variable Date_now : Z.
Variable localeCompare : jsstring -> jsstring -> Z.

(** C1 (amended). Every directory node of a tree returned by
    buildTreeFromFiles has its children in ascending order of [path]
    under the comparator the code sorts with, localeCompare: each child
    compares less than or equal to the next one; and the paths of the
    children of one directory are pairwise distinct. *)
Theorem children_sorted_by_localeCompare :
  Consistent localeCompare ->
  forall files tree,
    buildTreeFromFiles Date_now localeCompare files = Some tree ->
    forall d cs,
      In d (subnodes tree) -> children d = Some cs ->
      Sorted (fun a b => (localeCompare (path a) (path b) <= 0)%Z) cs /\
      NoDup (map path cs).
Proof.
  intros HC files tree Hb d cs Hd Hcs.
  destruct files as [|f files].
  - injection Hb as <-. destruct Hd as [<-|[]]. injection Hcs as <-.
    split; constructor.
  - unfold buildTreeFromFiles in Hb.
    destruct (buildNestedStructure Date_now (f :: files)) as [root|] eqn:E; [|discriminate].
    injection Hb as <-. split.
    + eapply build_sorted; eauto.
    + eapply build_sibling_paths; eauto.
      eapply buildNestedStructure_distinct_keys; eauto.
Qed.
End SortedChildren.

Lemma children_sorted_by_localeCompare_witness :
  Consistent letterCollation /\
  forall d cs,
    In d (subnodes (buildTreeFromNested 0 letterCollation
                      (NDir [(js "B", NFile (file_entry 0 (plainFile "B" "x")));
                             (js "a", NFile (file_entry 0 (plainFile "a" "y")))] None)
                      (js "root"))) ->
    children d = Some cs ->
    Sorted (fun a b => (letterCollation (path a) (path b) <= 0)%Z) cs /\
    NoDup (map path cs).
Proof.
  split; [apply letterCollation_consistent|].
  apply (children_sorted_by_localeCompare 0 letterCollation letterCollation_consistent
           [plainFile "B" "x"; plainFile "a" "y"]).
  reflexivity.
Defined.

(** C1 (as stated) fails: with two top-level files named B and a the
    root's children come out as a, B, which is descending in UTF-16
    code-unit order. *)
Lemma children_not_code_unit_sorted :
  exists tree cs,
    buildTreeFromFiles 0 letterCollation [plainFile "B" "x"; plainFile "a" "y"] = Some tree /\
    In tree (subnodes tree) /\
    children tree = Some cs /\
    map path cs = [js "a"; js "B"] /\
    ~ Sorted (fun a b => cu_lt (path a) (path b)) cs.
Proof.
  eexists. eexists. split; [reflexivity|]. split; [left; reflexivity|].
  split; [reflexivity|]. split; [reflexivity|].
  intros H. inversion H as [|? ? _ Hd]; subst. inversion Hd as [|? ? Hlt]; subst.
  cbv [path cu_lt] in Hlt. vm_compute in Hlt. discriminate.
Qed.

Lemma no_nested_paths_perm files files' :
  Permutation files files' -> no_nested_paths files -> no_nested_paths files'.
Proof.
  intros Hp H f g Hf Hg.
  apply H; (eapply Permutation_in; [apply Permutation_sym; exact Hp|assumption]).
Qed.

Lemma unreserved_paths_perm files files' :
  Permutation files files' -> unreserved_paths files -> unreserved_paths files'.
Proof.
  intros Hp H f part Hf. apply H.
  eapply Permutation_in; [apply Permutation_sym; exact Hp|assumption].
Qed.

Section Shuffle.
Variable Date_now : Z.
Variable localeCompare : jsstring -> jsstring -> Z.

(** C5 (amended). Reordering the input list leaves the root hash
    unchanged when the input paths are pairwise distinct, none of them
    lies below another one used as a directory, none has a part named
    like a property of Object.prototype, and localeCompare tells apart
    the paths of the tree's nodes. *)
Theorem root_hash_ignores_input_order :
  Consistent localeCompare ->
  forall files files' tree,
    Permutation files files' ->
    NoDup (map fi_path files) ->
    no_nested_paths files ->
    unreserved_paths files ->
    buildTreeFromFiles Date_now localeCompare files = Some tree ->
    separated localeCompare tree ->
    exists tree',
      buildTreeFromFiles Date_now localeCompare files' = Some tree' /\
      hash tree' = hash tree.
Proof.
  intros HC files files' tree Hp Hnd Hnest Hres Hb Hsep.
  destruct files as [|x files].
  { apply Permutation_nil in Hp. subst files'. exists tree. auto. }
  destruct files' as [|x' files'].
  { apply Permutation_sym, Permutation_nil in Hp. discriminate. }
  destruct (buildNestedStructure_spec Date_now _ Hnd Hnest Hres) as [N [HN [Ht Hl]]].
  destruct (buildNestedStructure_spec Date_now (x' :: files')) as [N' [HN' [Ht' Hl']]].
  { eapply Permutation_NoDup; [apply Permutation_map; exact Hp|exact Hnd]. }
  { eapply no_nested_paths_perm; eauto. }
  { eapply unreserved_paths_perm; eauto. }
  unfold buildTreeFromFiles in *. rewrite HN in Hb. rewrite HN'.
  injection Hb as <-. eexists. split; [reflexivity|].
  f_equal. symmetry. apply leaves_determine; auto.
  rewrite Hl, Hl'. now apply Permutation_map.
Qed.
End Shuffle.

Lemma twoSources_paths :
  map path (subnodes (buildTreeFromNested 0 letterCollation
                        (NDir [(js "src",
                                NDir [(js "x.ts", NFile (file_entry 0 (plainFile "src/x.ts" "A")));
                                      (js "y.ts", NFile (file_entry 0 (plainFile "src/y.ts" "B")))]
                                     None)] None)
                        (js "root"))) =
  [js "root"; js "src"; js "src/x.ts"; js "src/y.ts"].
Proof. vm_compute. reflexivity. Qed.

Lemma twoSources_separated :
  separated letterCollation
    (buildTreeFromNested 0 letterCollation
       (NDir [(js "src",
               NDir [(js "x.ts", NFile (file_entry 0 (plainFile "src/x.ts" "A")));
                     (js "y.ts", NFile (file_entry 0 (plainFile "src/y.ts" "B")))]
                    None)] None)
       (js "root")).
Proof.
  intros a b Ha Hb.
  apply (in_map path) in Ha, Hb. rewrite twoSources_paths in Ha, Hb.
  destruct Ha as [<-|[<-|[<-|[<-|[]]]]]; destruct Hb as [<-|[<-|[<-|[<-|[]]]]];
    intros H; try reflexivity; vm_compute in H; discriminate.
Qed.

Lemma twoSources_tree :
  buildTreeFromFiles 0 letterCollation twoSources =
  Some (buildTreeFromNested 0 letterCollation
          (NDir [(js "src",
                  NDir [(js "x.ts", NFile (file_entry 0 (plainFile "src/x.ts" "A")));
                        (js "y.ts", NFile (file_entry 0 (plainFile "src/y.ts" "B")))]
                       None)] None)
          (js "root")).
Proof. reflexivity. Qed.

Lemma root_hash_ignores_input_order_witness :
  exists tree,
    Consistent letterCollation /\
    Permutation twoSources (rev twoSources) /\
    NoDup (map fi_path twoSources) /\
    no_nested_paths twoSources /\
    unreserved_paths twoSources /\
    buildTreeFromFiles 0 letterCollation twoSources = Some tree /\
    separated letterCollation tree /\
    exists tree',
      buildTreeFromFiles 0 letterCollation (rev twoSources) = Some tree' /\
      hash tree' = hash tree.
Proof.
  eexists. split; [apply letterCollation_consistent|].
  split; [apply Permutation_rev|]. split; [exact twoSources_distinct|].
  split; [exact twoSources_not_nested|]. split; [exact twoSources_unreserved|].
  split; [exact twoSources_tree|]. split; [exact twoSources_separated|].
  exact (root_hash_ignores_input_order 0 letterCollation letterCollation_consistent
           twoSources (rev twoSources) _ (Permutation_rev twoSources)
           twoSources_distinct twoSources_not_nested twoSources_unreserved
           twoSources_tree twoSources_separated).
Defined.

(** C5 (as stated) fails: two inputs for the same path with different
    contents give a different root hash when their order is swapped, since
    the later one overwrites the earlier one. *)
Lemma root_hash_depends_on_order_of_duplicates :
  let files := [plainFile "a" "x"; plainFile "a" "y"] in
  let files' := [plainFile "a" "y"; plainFile "a" "x"] in
  Permutation files files' /\
  exists tree tree',
    buildTreeFromFiles 0 letterCollation files = Some tree /\
    buildTreeFromFiles 0 letterCollation files' = Some tree' /\
    hash tree <> hash tree'.
Proof.
  split; [apply perm_swap|].
  eexists. eexists. split; [reflexivity|]. split; [reflexivity|].
  vm_differ.
Qed.

(* ------------------------------------------------------------------ *)
(** * The sync orchestrator *)

Section OrchestratorFacts.
Import LocalIngestion.
Variable env : Env.

(** C10. Before initialize has run, ingestFolder returns undefined and
    does nothing else: no request, no event, and the service, with its
    current project and Merkle tree, is left as it was. *)
Theorem ingestFolder_uninitialized :
  forall folder ticks s t,
    initialized s = false ->
    ingestFolder env folder ticks s t = (None, s, t).
Proof.
  intros folder ticks s t H. unfold ingestFolder. now rewrite H.
Qed.

(** C3 (amended). When phase 1 of the sync is answered with an empty or
    absent needsFiles list, syncWithMerkle keeps the new tree as
    currentMerkleTree and returns success with filesProcessed 0, having
    issued no request besides phase 1 and fired no event at all. *)
Theorem sync_without_needed_files :
  forall pid folder s t tree code text body,
    collectFiles env folder <> [] ->
    buildTreeFromFiles (env_now env) (env_localeCompare env)
      (fst (readForSync env (collectFiles env folder))) = Some tree ->
    on_merkle_sync (env_backend env) t (PostMerkleSync pid tree None) =
      Response true code text (JsonValue body) ->
    needsFiles body = None \/ needsFiles body = Some [] ->
    exists result s',
      syncWithMerkle env pid folder s t =
        (result, s', t ++ [Fetch (backendUrl s) (authToken s) (PostMerkleSync pid tree None)]) /\
      currentMerkleTree s' = Some tree /\
      currentProject s' = currentProject s /\
      success result = true /\
      filesProcessed result = Some 0%Z /\
      fired (t ++ [Fetch (backendUrl s) (authToken s) (PostMerkleSync pid tree None)]) = fired t.
Proof.
  intros pid folder s t tree code text body Hfiles Htree Hreply Hneeds.
  unfold syncWithMerkle.
  destruct (collectFiles env folder) as [|f files]; [contradiction|].
  destruct (readForSync env (f :: files)) as [filesWithContent fileContentMap].
  cbn [fst] in Htree. rewrite Htree.
  unfold bind, fetch. rewrite Hreply.
  assert (Hfired : fired (t ++ [Fetch (backendUrl s) (authToken s)
                                  (PostMerkleSync pid tree None)]) = fired t).
  { unfold fired. rewrite flat_map_app. simpl. now rewrite app_nil_r. }
  destruct Hneeds as [-> | ->]; eexists; eexists; (split; [reflexivity|]); repeat split;
    exact Hfired.
Qed.

Lemma fired_app a b : fired (a ++ b) = fired a ++ fired b.
Proof. apply flat_map_app. Qed.

Lemma requests_app a b : requests (a ++ b) = requests a ++ requests b.
Proof. apply flat_map_app. Qed.

Lemma batch_indices_app a b : batch_indices (a ++ b) = batch_indices a ++ batch_indices b.
Proof. unfold batch_indices. now rewrite requests_app, flat_map_app. Qed.

Lemma fired_fetch u k r l : fired (Fetch u k r :: l) = fired l.
Proof. reflexivity. Qed.

Lemma fired_fire e l : fired (Fire e :: l) = e :: fired l.
Proof. reflexivity. Qed.







End OrchestratorFacts.

Lemma ingestFolder_uninitialized_witness :
  LocalIngestion.initialized LocalIngestion.newService = false /\
  LocalIngestion.ingestFolder (Sample.world Sample.deletesOnly) Sample.workspace 3
    LocalIngestion.newService [] = (None, LocalIngestion.newService, []).
Proof.
  split; [reflexivity|].
  apply (ingestFolder_uninitialized (Sample.world Sample.deletesOnly)). reflexivity.
Defined.

Lemma sync_without_needed_files_witness :
  let env := Sample.world Sample.deletesOnly in
  let s := Sample.ready in
  exists tree code text body,
    LocalIngestion.collectFiles env Sample.workspace <> [] /\
    buildTreeFromFiles (LocalIngestion.env_now env) (LocalIngestion.env_localeCompare env)
      (fst (LocalIngestion.readForSync env (LocalIngestion.collectFiles env Sample.workspace)))
      = Some tree /\
    LocalIngestion.on_merkle_sync (LocalIngestion.env_backend env) []
      (LocalIngestion.PostMerkleSync (js "p1") tree None) =
      LocalIngestion.Response true code text (LocalIngestion.JsonValue body) /\
    (LocalIngestion.needsFiles body = None \/ LocalIngestion.needsFiles body = Some []) /\
    exists result s',
      LocalIngestion.syncWithMerkle env (js "p1") Sample.workspace s [] =
        (result, s',
         [] ++ [LocalIngestion.Fetch (LocalIngestion.backendUrl s) (LocalIngestion.authToken s)
                  (LocalIngestion.PostMerkleSync (js "p1") tree None)]) /\
      LocalIngestion.currentMerkleTree s' = Some tree /\
      LocalIngestion.currentProject s' = LocalIngestion.currentProject s /\
      LocalIngestion.success result = true /\
      LocalIngestion.filesProcessed result = Some 0%Z /\
      LocalIngestion.fired
        ([] ++ [LocalIngestion.Fetch (LocalIngestion.backendUrl s) (LocalIngestion.authToken s)
                  (LocalIngestion.PostMerkleSync (js "p1") tree None)]) =
      LocalIngestion.fired [].
Proof.
  intros env s.
  assert (H1 : LocalIngestion.collectFiles env Sample.workspace <> [])
    by (vm_compute; discriminate).
  eexists. eexists. eexists. eexists.
  split; [exact H1|]. split; [reflexivity|]. split; [reflexivity|].
  split; [right; reflexivity|].
  exact (sync_without_needed_files env (js "p1") Sample.workspace s [] _ _ _ _
           H1 eq_refl eq_refl (or_intror eq_refl)).
Defined.

(** C3 (as stated) fails: phase 1 is answered with needsFiles empty and one
    deletion, and the sync ends without onIngestionComplete, or any other
    event, being fired; the same holds when ingestFolder runs that sync
    for a project the server reports as completed. *)
Lemma sync_fires_no_completion :
  let env := Sample.world Sample.deletesOnly in
  (exists result s' t',
      LocalIngestion.syncWithMerkle env (js "p1") Sample.workspace Sample.ready [] =
        (result, s', t') /\
      LocalIngestion.success result = true /\
      LocalIngestion.filesDeleted result = Some 1%Z /\
      length (LocalIngestion.requests t') = 1%nat /\
      existsb LocalIngestion.is_complete_event (LocalIngestion.fired t') = false) /\
  (exists p s' t',
      LocalIngestion.ingestFolder env Sample.workspace 3 Sample.ready [] = (Some p, s', t') /\
      existsb LocalIngestion.is_complete_event (LocalIngestion.fired t') = false).
Proof.
  split.
  - eexists. eexists. eexists. split; [vm_compute; reflexivity|].
    repeat split.
  - eexists. eexists. eexists. split; [vm_compute; reflexivity|].
    reflexivity.
Qed.



(* ------------------------------------------------------------------ *)
(** * The chat gateway *)

Lemma String_split_app sep a b :
  String_split sep (a ++ b) =
  removelast (String_split sep a) ++ String_split sep (last (String_split sep a) [] ++ b).
Proof.
  induction a as [|c a IH]; [reflexivity|].
  cbn [app String_split]. rewrite IH.
  destruct (String_split sep a) as [|p ps] eqn:E;
    [now destruct (String_split_nonempty sep a)|].
  destruct (c =? sep) eqn:Ec.
  - reflexivity.
  - destruct ps as [|p2 ps].
    + cbn [removelast last app String_split]. rewrite Ec. reflexivity.
    + reflexivity.
Qed.

Lemma removelast_app_nonempty {A} (l l' : list A) :
  l' <> [] -> removelast (l ++ l') = l ++ removelast l'.
Proof. intros H. now apply removelast_app. Qed.

Lemma String_split_pieces sep s : Forall (fun p => ~ In sep p) (String_split sep s).
Proof.
  induction s as [|c s IH]; cbn [String_split]; [repeat constructor; auto|].
  destruct (N.eqb_spec c sep) as [->|ne].
  - constructor; auto.
  - destruct (String_split sep s) as [|p ps]; [repeat constructor; simpl; tauto|].
    inversion IH as [|? ? Hp Hps]; subst. constructor; auto.
    simpl. intros [E|I]; [congruence|auto].
Qed.

Lemma String_split_whole sep s : ~ In sep s -> String_split sep s = [s].
Proof.
  induction s as [|c s IH]; [reflexivity|]. cbn [String_split In]. intros H.
  destruct (N.eqb_spec c sep) as [->|ne]; [tauto|].
  rewrite IH by tauto. reflexivity.
Qed.

Lemma last_Forall {A} (P : A -> Prop) l d : Forall P l -> P d -> P (last l d).
Proof.
  induction 1 as [|x l Hx Hl IH]; intros Hd; [exact Hd|].
  destruct l; [exact Hx|]. now apply IH.
Qed.

Section GatewayFacts.
Import BackendChat.

Lemma readLoop_spec reads :
  forall buffer,
    ~ In newline buffer ->
    readLoop reads buffer =
    flat_map processLine (completeLines (buffer ++ streamText reads)) ++ streamFailure reads.
Proof.
  unfold completeLines.
  induction reads as [|[text|message] rest IH]; intros buffer Hb.
  - cbn [readLoop streamText streamFailure]. rewrite !app_nil_r.
    now rewrite String_split_whole.
  - cbn [readLoop streamFailure]. rewrite IH.
    + change (streamText (Chunk text :: rest)) with (text ++ streamText rest).
      rewrite (app_assoc buffer text), (String_split_app newline (buffer ++ text)).
      rewrite removelast_app_nonempty by apply String_split_nonempty.
      now rewrite flat_map_app, app_assoc.
    + apply last_Forall; [apply String_split_pieces|intros []].
  - cbn [readLoop streamFailure].
    change (streamText (ReadFails message :: rest)) with (@nil N).
    rewrite app_nil_r, String_split_whole by assumption. reflexivity.
Qed.

(** C9 (amended). In sendMessageStream a transport error, whether the
    request is rejected or a read of the body fails, yields exactly one
    error event, after which nothing more is fired; a line starting with
    [data: ] whose remainder is not JSON yields no event and the stream
    goes on: the events fired for a 2xx response are the parsed payloads
    of the complete data lines of the text received, in order, followed by
    the error event of a failed read if there is one. *)
Theorem stream_events :
  forall env request g,
    isAvailable g = true ->
    (forall message,
        send_stream env (withModel env request) = FetchFails message ->
        sendMessageStream env request g = [error_event message]) /\
    (forall statusText reads,
        send_stream env (withModel env request) = StreamResponse true statusText (Some reads) ->
        sendMessageStream env request g =
          flat_map processLine (completeLines (streamText reads)) ++ streamFailure reads) /\
    (forall line,
        String_startsWith (js "data: ") line = true ->
        JSON_parse (String_slice 6 line) = None ->
        processLine line = []) /\
    (forall reads, length (streamFailure reads) <= 1)%nat.
Proof.
  intros env request g Hav. unfold sendMessageStream. rewrite Hav. cbn [negb].
  repeat split.
  - intros message ->. reflexivity.
  - intros statusText reads ->. cbn [negb]. now rewrite readLoop_spec.
  - intros line Hd Hp. unfold processLine. now rewrite Hd, Hp.
  - induction reads as [|[text|message] rest IH]; simpl; lia.
Qed.

(** What the listener for onProjectChanged does, as opposed to the one
    for onIngestionComplete: it fires only when the value changes. *)
Lemma onProjectChanged_fires_on_edges project g :
  snd (onProjectChanged project g) =
  if Bool.eqb (isAvailable g) (is_completed project) then [] else [is_completed project].
Proof.
  unfold onProjectChanged. cbn [isAvailable setAvailable].
  destruct (Bool.eqb (isAvailable g) (is_completed project)); reflexivity.
Qed.
End GatewayFacts.

Lemma stream_events_witness :
  BackendChat.isAvailable Sample.available = true /\
  BackendChat.sendMessageStream
    (Sample.streaming
       [BackendChat.Chunk (js "data: {"); BackendChat.Chunk (js "}" ++ [10] ++ js "da");
        BackendChat.Chunk (js "ta: nope" ++ [10]); BackendChat.ReadFails (js "reset")])
    Sample.request Sample.available =
  [JObject []; BackendChat.error_event (js "reset")].
Proof.
  split; [reflexivity|].
  destruct (stream_events
              (Sample.streaming [BackendChat.Chunk (js "data: {");
                                 BackendChat.Chunk (js "}" ++ [10] ++ js "da");
                                 BackendChat.Chunk (js "ta: nope" ++ [10]);
                                 BackendChat.ReadFails (js "reset")])
              Sample.request Sample.available eq_refl) as [_ [H _]].
  rewrite (H (js "OK") _ eq_refl). vm_compute. reflexivity.
Defined.

(** C9 (as stated) fails: the data line whose remainder is the lone brace
    is not JSON, and the stream ends without any event having been fired. *)
Lemma malformed_data_line_is_dropped :
  JSON_parse (js "{") = None /\
  String_startsWith (js "data: ") (js "data: {") = true /\
  BackendChat.sendMessageStream
    (Sample.streaming [BackendChat.Chunk (js "data: {" ++ [10])])
    Sample.request Sample.available = [].
Proof. repeat split. Qed.

(** C8, at the failing input: the project arrives as completed, then its
    ingestion completes; onAvailabilityChanged is fired with true both
    times. *)
Lemma availability_reported_twice :
  snd (BackendChat.observe
         [LocalIngestion.ProjectChanged (Some (Sample.project LocalIngestion.completed));
          LocalIngestion.IngestionComplete (Sample.project LocalIngestion.completed)]
         BackendChat.newGateway) = [true; true].
Proof. reflexivity. Qed.

(* ------------------------------------------------------------------ *)
(** * Shape and hashes of the nodes of a built tree *)

Lemma Sorted_map {A B} (R : B -> B -> Prop) (f : A -> B) l :
  Sorted (fun a b => R (f a) (f b)) l -> Sorted R (map f l).
Proof.
  induction 1 as [|x l Hs IH Hd]; simpl; constructor; auto.
  destruct Hd; simpl; constructor; auto.
Qed.

Section BuiltNodes.
Variable Date_now : Z.
Variable localeCompare : jsstring -> jsstring -> Z.
#[local] Abbreviation build := (buildTreeFromNested Date_now localeCompare).

Lemma built_nodes_shape n :
  forall p d,
    In d (subnodes (build n p)) ->
    (isLeaf d = true <-> nodeType d = File) /\
    (isLeaf d = true <-> children d = None) /\
    (nodeType d = Directory -> size d = 0%Z) /\
    length (hash d) = 64%nat /\ Forall lower_hex (hash d).
Proof.
  induction n as [f|own proto IH] using NestedNode_induction; intros p d Hd.
  - destruct Hd as [<-|[]]. cbn [buildTreeFromNested isLeaf nodeType children size hash].
    repeat split; try tauto; try discriminate; apply hashContent_hex.
  - destruct Hd as [<-|Hd].
    + cbn [buildTreeFromNested isLeaf nodeType children size hash].
      repeat split; try tauto; try discriminate; apply hashContent_hex.
    + apply in_flat_map in Hd as [c [Hc Hd]].
      destruct (build_child_in _ _ own proto p c _ eq_refl Hc) as [e [He ->]].
      rewrite Forall_forall in IH. exact (IH e He _ d Hd).
Qed.

(** X1. In a tree returned by buildTreeFromFiles every node is either a
    file (isLeaf, no children array) or a directory (not isLeaf, with a
    children array, size 0), and every hash is 64 lower-case hexadecimal
    digits. *)
Theorem built_tree_nodes_well_formed :
  forall files tree d,
    buildTreeFromFiles Date_now localeCompare files = Some tree ->
    In d (subnodes tree) ->
    (isLeaf d = true <-> nodeType d = File) /\
    (isLeaf d = true <-> children d = None) /\
    (nodeType d = Directory -> size d = 0%Z) /\
    length (hash d) = 64%nat /\ Forall lower_hex (hash d).
Proof.
  intros files tree d Hb Hd. destruct files as [|f files].
  - injection Hb as <-. destruct Hd as [<-|[]].
    cbn [isLeaf nodeType children size hash].
    repeat split; try tauto; try discriminate; apply hashContent_hex.
  - unfold buildTreeFromFiles in Hb.
    destruct (buildNestedStructure Date_now (f :: files)) as [root|]; [|discriminate].
    injection Hb as <-. eapply built_nodes_shape; eauto.
Qed.

Lemma built_directory_hash :
  Consistent localeCompare ->
  forall n p d cs,
    In d (subnodes (build n p)) -> children d = Some cs ->
    hash d = hashContent (concat (map (fun c => hash c ++ path c) cs)).
Proof.
  intros HC n. induction n as [f|own proto IH] using NestedNode_induction; intros p d cs Hd Hcs.
  - destruct Hd as [<-|[]]. discriminate.
  - destruct Hd as [Hd|Hd].
    + assert (Hd' : d = build (NDir own proto) p) by (symmetry; exact Hd).
      clear Hd. subst d.
      pose proof (build_sorted Date_now localeCompare HC (NDir own proto) p _ cs
                    (subnodes_self _) Hcs) as Hs.
      rewrite build_children in Hcs. injection Hcs as Hcs.
      cbn [buildTreeFromNested hash]. rewrite Hcs. unfold hashDirectory.
      rewrite (Array_sort_sorted_id (fun a b => localeCompare (snd a) (snd b))).
      * now rewrite map_map.
      * apply (Sorted_map (fun a b : jsstring * jsstring =>
                             (localeCompare (snd a) (snd b) <= 0)%Z)
                          (fun c => (hash c, path c))). exact Hs.
    + apply in_flat_map in Hd as [c [Hc Hd]].
      destruct (build_child_in _ _ own proto p c _ eq_refl Hc) as [e [He ->]].
      rewrite Forall_forall in IH. exact (IH e He _ d cs Hd Hcs).
Qed.

(** X2. The Merkle property: in a tree returned by buildTreeFromFiles the
    hash of every directory node is the SHA-256 of the concatenation of
    child.hash followed by child.path over its children array as stored. *)
Theorem directory_hash_covers_children :
  Consistent localeCompare ->
  forall files tree d cs,
    buildTreeFromFiles Date_now localeCompare files = Some tree ->
    In d (subnodes tree) -> children d = Some cs ->
    hash d = hashContent (concat (map (fun c => hash c ++ path c) cs)).
Proof.
  intros HC files tree d cs Hb Hd Hcs. destruct files as [|f files].
  - injection Hb as <-. destruct Hd as [<-|[]]. injection Hcs as <-. reflexivity.
  - unfold buildTreeFromFiles in Hb.
    destruct (buildNestedStructure Date_now (f :: files)) as [root|]; [|discriminate].
    injection Hb as <-. eapply built_directory_hash; eauto.
Qed.
End BuiltNodes.

(* ------------------------------------------------------------------ *)
(** * What compareTrees reports *)

Lemma summarizeChanges_counts cs :
  let count t := Z.of_nat (length (filter (has_type t) cs)) in
  added (summarizeChanges cs) = count Added /\
  modified (summarizeChanges cs) = count Modified /\
  deleted (summarizeChanges cs) = count Deleted /\
  total (summarizeChanges cs) = Z.of_nat (length cs).
Proof.
  unfold summarizeChanges.
  set (step := fun (s : ChangeSummary) (change : FileChange) => _).
  assert (H : forall s,
             let r := fold_left step cs s in
             added r = (added s + Z.of_nat (length (filter (has_type Added) cs)))%Z /\
             modified r = (modified s + Z.of_nat (length (filter (has_type Modified) cs)))%Z /\
             deleted r = (deleted s + Z.of_nat (length (filter (has_type Deleted) cs)))%Z /\
             (Z.of_nat (length (filter (has_type Added) cs)) +
              Z.of_nat (length (filter (has_type Modified) cs)) +
              Z.of_nat (length (filter (has_type Deleted) cs)) = Z.of_nat (length cs))%Z).
  { induction cs as [|c cs IH]; intros s; cbn [fold_left filter length].
    - cbn. lia.
    - destruct (IH (step s c)) as (Ha & Hm & Hd & Ht). cbv zeta.
      rewrite Ha, Hm, Hd. unfold step. unfold has_type in *.
      destruct (changeType c); cbn [added modified deleted length]; lia. }
  destruct (H {| added := 0; modified := 0; deleted := 0; total := 0 |}) as (Ha & Hm & Hd & Ht).
  cbn [added modified deleted total] in *. cbv zeta. lia.
Qed.

(** X3. compareTrees always returns, and the summary it returns counts the
    change list it returns: added, modified and deleted are the numbers of
    changes of each type, total is the length of the list, filesToProcess
    has one path per added or modified change and deletedFiles one per
    deleted change. *)
Theorem compareTrees_summary_counts_changes :
  forall oldTree newTree,
  exists r,
    compareTrees oldTree newTree = Some r /\
    let count t := Z.of_nat (length (filter (has_type t) (changes r))) in
    added (summary r) = count Added /\
    modified (summary r) = count Modified /\
    deleted (summary r) = count Deleted /\
    total (summary r) = Z.of_nat (length (changes r)) /\
    Z.of_nat (length (filesToProcess r)) = (count Added + count Modified)%Z /\
    Z.of_nat (length (deletedFiles r)) = count Deleted /\
    (forall p, In p (filesToProcess r) <->
               exists c, In c (changes r) /\ fc_path c = p /\ changeType c <> Deleted) /\
    (forall p, In p (deletedFiles r) <->
               exists c, In c (changes r) /\ fc_path c = p /\ changeType c = Deleted).
Proof.
  intros oldTree newTree.
  destruct (compareTrees_total oldTree newTree) as [r Hr]. exists r. split; [exact Hr|].
  unfold compareTrees in Hr.
  destruct (match oldTree with Some _ => _ | None => _ end) as [cs|]; [|discriminate].
  injection Hr as <-. cbn [changes summary filesToProcess deletedFiles]. cbv zeta.
  destruct (summarizeChanges_counts cs) as (Ha & Hm & Hd & Ht).
  repeat split; try assumption.
  - unfold getFilesToProcess. rewrite length_map.
    clear. induction cs as [|c cs IH]; [reflexivity|]. cbn [filter].
    unfold has_type in *. destruct (changeType c); cbn [length]; lia.
  - rewrite length_map. clear. induction cs as [|c cs IH]; [reflexivity|]. cbn [filter].
    unfold has_type in *. destruct (changeType c); cbn [length]; lia.
  - unfold getFilesToProcess. intros H. apply in_map_iff in H as [c [Hp Hc]].
    apply filter_In in Hc as [Hc Ht']. exists c. repeat split; auto.
    destruct (changeType c); congruence.
  - intros [c (Hc & Hp & Ht')]. unfold getFilesToProcess. apply in_map_iff. exists c.
    split; [exact Hp|]. apply filter_In. split; [exact Hc|].
    destruct (changeType c); congruence.
  - intros H. apply in_map_iff in H as [c [Hp Hc]].
    apply filter_In in Hc as [Hc Ht']. exists c. repeat split; auto.
    destruct (changeType c); congruence.
  - intros [c (Hc & Hp & Ht')]. apply in_map_iff. exists c.
    split; [exact Hp|]. apply filter_In. split; [exact Hc|]. now rewrite Ht'.
Qed.

(* ------------------------------------------------------------------ *)
(** * Every change is about a file *)

Lemma is_leaf_of_child t cs c n :
  children t = Some cs -> In c cs -> is_leaf_of c n -> is_leaf_of t n.
Proof.
  intros Hcs Hc [Hn Hl]. split; [|exact Hl]. eapply subnodes_child; eauto.
Qed.

Lemma collectAdded_leaves t :
  forall acc c, In c (collectAddedRecursive t acc) ->
    In c acc \/ exists n, is_leaf_of t n /\ c = {| changeType := Added; fc_path := path n;
                                                   oldHash := None; newHash := Some (hash n) |}.
Proof.
  induction t as [h ty p s m cr cs l IH] using MerkleNode_induction.
  intros acc c. cbn [collectAddedRecursive isLeaf children path hash].
  destruct l.
  - intros H. apply in_app_or in H as [H|[<-|[]]]; [now left|right].
    eexists. split; [split; [apply subnodes_self|reflexivity]|reflexivity].
  - destruct cs as [cs|]; [|now left].
    specialize (IH cs eq_refl).
    assert (Hgen : forall l acc,
               Forall (fun t => forall acc c, In c (collectAddedRecursive t acc) ->
                          In c acc \/ exists n, is_leaf_of t n /\
                            c = {| changeType := Added; fc_path := path n;
                                   oldHash := None; newHash := Some (hash n) |}) l ->
               In c (fold_left (fun acc child => collectAddedRecursive child acc) l acc) ->
               In c acc \/ exists x n, In x l /\ is_leaf_of x n /\
                            c = {| changeType := Added; fc_path := path n;
                                   oldHash := None; newHash := Some (hash n) |}).
    { clear. induction l as [|x l IHl]; intros acc HF H; [now left|].
      cbn [fold_left] in H. inversion HF as [|? ? Hx Hrest]; subst.
      destruct (IHl _ Hrest H) as [H'|(y & n & Hy & Hn & ->)].
      - destruct (Hx _ _ H') as [H''|[n [Hn ->]]]; [now left|right].
        exists x, n. repeat split; try apply Hn. now left.
      - right. exists y, n. repeat split; try apply Hn. now right. }
    intros H. destruct (Hgen cs acc IH H) as [H'|(x & n & Hx & Hn & ->)]; [now left|right].
    exists n. split; [|reflexivity]. eapply is_leaf_of_child; eauto. reflexivity.
Qed.

Lemma collectDeleted_leaves t :
  forall acc c, In c (collectDeletedRecursive t acc) ->
    In c acc \/ exists n, is_leaf_of t n /\ c = {| changeType := Deleted; fc_path := path n;
                                                   oldHash := Some (hash n); newHash := None |}.
Proof.
  induction t as [h ty p s m cr cs l IH] using MerkleNode_induction.
  intros acc c. cbn [collectDeletedRecursive isLeaf children path hash].
  destruct l.
  - intros H. apply in_app_or in H as [H|[<-|[]]]; [now left|right].
    eexists. split; [split; [apply subnodes_self|reflexivity]|reflexivity].
  - destruct cs as [cs|]; [|now left].
    specialize (IH cs eq_refl).
    assert (Hgen : forall l acc,
               Forall (fun t => forall acc c, In c (collectDeletedRecursive t acc) ->
                          In c acc \/ exists n, is_leaf_of t n /\
                            c = {| changeType := Deleted; fc_path := path n;
                                   oldHash := Some (hash n); newHash := None |}) l ->
               In c (fold_left (fun acc child => collectDeletedRecursive child acc) l acc) ->
               In c acc \/ exists x n, In x l /\ is_leaf_of x n /\
                            c = {| changeType := Deleted; fc_path := path n;
                                   oldHash := Some (hash n); newHash := None |}).
    { clear. induction l as [|x l IHl]; intros acc HF H; [now left|].
      cbn [fold_left] in H. inversion HF as [|? ? Hx Hrest]; subst.
      destruct (IHl _ Hrest H) as [H'|(y & n & Hy & Hn & ->)].
      - destruct (Hx _ _ H') as [H''|[n [Hn ->]]]; [now left|right].
        exists x, n. repeat split; try apply Hn. now left.
      - right. exists y, n. repeat split; try apply Hn. now right. }
    intros H. destruct (Hgen cs acc IH H) as [H'|(x & n & Hx & Hn & ->)]; [now left|right].
    exists n. split; [|reflexivity]. eapply is_leaf_of_child; eauto. reflexivity.
Qed.

(** The changes one call adds, read against the two nodes compared. *)
Lemma compareTreesRecursive_explained fuel :
  forall o n acc r c,
    compareTreesRecursive fuel o n acc = Some r -> In c r ->
    In c acc \/ explained (Some o) n c.
Proof.
  induction fuel as [|fuel IH]; intros o n acc r c Hr Hc; [discriminate|].
  cbn [compareTreesRecursive] in Hr.
  destruct (str_eqb_spec (hash o) (hash n)) as [_|Hne].
  { injection Hr as <-. now left. }
  destruct (isLeaf o && isLeaf n) eqn:Hll.
  { injection Hr as <-. apply in_app_or in Hc as [Hc|[<-|[]]]; [now left|right].
    apply andb_true_iff in Hll as [Hlo Hln].
    exists o, o, n. repeat split; auto using subnodes_self. }
  destruct (negb (isLeaf o) && negb (isLeaf n)) eqn:Hdd.
  - set (oldMap := Map_of_children (children_or_empty o)) in *.
    set (newMap := Map_of_children (children_or_empty n)) in *.
    set (afterDeleted := fold_left _ oldMap acc) in *.
    assert (Hold : forall k v, In (k, v) oldMap -> forall x, is_leaf_of v x -> is_leaf_of o x).
    { intros k v Hkv x Hx. apply Map_of_children_values in Hkv.
      unfold children_or_empty in Hkv. destruct (children o) as [cs|] eqn:E; [|contradiction].
      eapply is_leaf_of_child; eauto. }
    assert (Hnew : forall k v, In (k, v) newMap -> forall x, is_leaf_of v x -> is_leaf_of n x).
    { intros k v Hkv x Hx. apply Map_of_children_values in Hkv.
      unfold children_or_empty in Hkv. destruct (children n) as [cs|] eqn:E; [|contradiction].
      eapply is_leaf_of_child; eauto. }
    assert (Hdel : forall x, In x afterDeleted -> In x acc \/ explained (Some o) n x).
    { subst afterDeleted. clearbody newMap. revert Hold. generalize oldMap. clear -o.
      intros m Hm. revert acc.
      induction m as [|[k v] m IHm]; intros acc x Hx; [now left|].
      cbn [fold_left fst snd] in Hx.
      destruct (IHm (fun k' v' H => Hm k' v' (or_intror H)) _ x Hx) as [H|H]; [|now right].
      destruct (dict_get k newMap); [now left|].
      destruct (collectDeleted_leaves _ _ _ H) as [H'|[y [Hy ->]]]; [now left|right].
      exists o, y. repeat split; try apply (Hm k v (or_introl eq_refl) y Hy). }
    clearbody afterDeleted.
    assert (Hgo : forall m start r,
               (forall k v, In (k, v) m -> forall x, is_leaf_of v x -> is_leaf_of n x) ->
               fold_left
                 (fun acc e =>
                    match acc with
                    | None => None
                    | Some acc' =>
                        match dict_get (fst e) oldMap with
                        | Some oldChild =>
                            if negb (str_eqb (hash oldChild) (hash (snd e)))
                            then compareTreesRecursive fuel oldChild (snd e) acc'
                            else Some acc'
                        | None => Some (collectAddedRecursive (snd e) acc')
                        end
                    end) m start = Some r ->
               exists s, start = Some s /\
                 forall x, In x r -> In x s \/ explained (Some o) n x).
    { clear Hr Hc r Hdel Hnew. induction m as [|[k v] m IHm]; intros start r Hm Hf.
      - cbn in Hf. subst start. eauto.
      - cbn [fold_left fst snd] in Hf.
        destruct (IHm _ _ (fun k' v' H => Hm k' v' (or_intror H)) Hf) as [s [Hs Hin]].
        destruct start as [acc'|]; [|discriminate]. exists acc'. split; [reflexivity|].
        intros x Hx. destruct (Hin x Hx) as [H|H]; [|now right].
        pose proof (Hm k v (or_introl eq_refl)) as Hv.
        destruct (dict_get k oldMap) as [oldChild|] eqn:Eo.
        + apply dict_get_In in Eo. pose proof (Hold _ _ Eo) as Ho.
          destruct (negb (str_eqb (hash oldChild) (hash v))).
          * destruct (IH _ _ _ _ x Hs H) as [H'|H']; [now left|right].
            unfold explained in *. destruct (changeType x).
            -- destruct H' as (y & Hy & Hrest). exists y. split; auto.
            -- destruct H' as (o' & a & b & [= <-] & Ha & Hb & Hrest).
               exists o, a, b. repeat split; try apply Hrest; auto.
               ++ apply (Ho a Ha). ++ apply (Ho a Ha). ++ apply (Hv b Hb). ++ apply (Hv b Hb).
            -- destruct H' as (o' & a & [= <-] & Ha & Hrest).
               exists o, a. repeat split; try apply Hrest; auto.
               ++ apply (Ho a Ha). ++ apply (Ho a Ha).
          * injection Hs as <-. now left.
        + injection Hs as <-.
          destruct (collectAdded_leaves _ _ _ H) as [H'|[y [Hy ->]]]; [now left|right].
          exists y. repeat split; try apply (Hv y Hy). }
    destruct (Hgo newMap (Some afterDeleted) r Hnew Hr) as [s [[= <-] Hin]].
    destruct (Hin c Hc) as [H|H]; [|now right]. apply Hdel, H.
  - injection Hr as <-.
    destruct (collectAdded_leaves _ _ _ Hc) as [H|[y [Hy ->]]].
    + destruct (collectDeleted_leaves _ _ _ H) as [H'|[y [Hy ->]]]; [now left|right].
      exists o, y. repeat split; try apply Hy.
    + right. exists y. repeat split; try apply Hy.
Qed.

(** X4. compareTrees always returns, and every change it reports is about
    a file: an added change carries the path and hash of a file node of the
    new tree, a deleted change those of a file node of the old tree, and a
    modified change the path and hash of a file node of the new tree with
    the hash, a different one, of a file node of the old tree. *)
Theorem compareTrees_reports_files :
  forall oldTree newTree,
  exists r,
    compareTrees oldTree newTree = Some r /\
    Forall (explained oldTree newTree) (changes r).
Proof.
  intros oldTree newTree.
  destruct (compareTrees_total oldTree newTree) as [r Hr]. exists r. split; [exact Hr|].
  unfold compareTrees in Hr. apply Forall_forall. intros c Hc.
  destruct oldTree as [old|].
  - destruct (str_eqb (hash old) (hash newTree)).
    + injection Hr as <-. destruct Hc.
    + destruct (compareTreesRecursive _ old newTree []) as [cs|] eqn:E; [|discriminate].
      injection Hr as <-. cbn [changes] in Hc.
      destruct (compareTreesRecursive_explained _ _ _ _ _ _ E Hc) as [[]|H]. exact H.
  - injection Hr as <-. cbn [changes] in Hc.
    destruct (collectAdded_leaves _ _ _ Hc) as [[]|[y [Hy ->]]].
    exists y. repeat split; try apply Hy.
Qed.

(* ------------------------------------------------------------------ *)
(** * Paths that run through a file, and paths given twice *)

Lemma dict_get_set {V} k k' (v : V) d :
  dict_get k (dict_set k' v d) = if str_eqb k k' then Some v else dict_get k d.
Proof.
  induction d as [|[k0 v0] d IH]; cbn [dict_set dict_get].
  - reflexivity.
  - destruct (str_eqb_spec k' k0) as [->|ne]; cbn [dict_get].
    + destruct (str_eqb k k0); reflexivity.
    + rewrite IH. destruct (str_eqb_spec k k0) as [->|ne'].
      * apply not_eq_sym, str_eqb_neq in ne. now rewrite ne.
      * reflexivity.
Qed.

Lemma dict_set_twice {V} k (v1 v2 : V) d :
  dict_set k v2 (dict_set k v1 d) = dict_set k v2 d.
Proof.
  induction d as [|[k0 v0] d IH]; cbn [dict_set].
  - now rewrite str_eqb_refl.
  - destruct (str_eqb k k0) eqn:E; cbn [dict_set]; rewrite E; [reflexivity|].
    now rewrite IH.
Qed.

Lemma through_file_more parts n : through_file parts n = true -> parts <> [].
Proof. destruct parts; [discriminate|discriminate]. Qed.

Lemma through_file_throws parts :
  forall g n, through_file parts n = true -> place parts g n = None.
Proof.
  induction parts as [|p later IH]; intros g n H; [discriminate|].
  destruct n as [f|own proto]; [reflexivity|]. cbn [through_file] in H.
  destruct (dict_get p own) as [c|] eqn:E; [|discriminate].
  pose proof (through_file_more _ _ H) as Hne.
  destruct later as [|p2 later]; [congruence|].
  rewrite place_inner, (get_child_own _ _ _ _ E), (IH g c H). reflexivity.
Qed.

Lemma through_file_kept q :
  forall h n n' parts,
    place q h n = Some n' -> through_file parts n = true -> through_file parts n' = true.
Proof.
  induction q as [|x later IH]; intros h n n' parts Hp Ht.
  - injection Hp as <-. exact Ht.
  - destruct n as [f|own proto]; [discriminate|].
    destruct parts as [|p rest]; [discriminate|]. cbn [through_file] in Ht.
    destruct (dict_get p own) as [c|] eqn:E; [|discriminate].
    destruct later as [|x2 later].
    + cbn [place] in Hp. destruct (str_eqb x proto_key).
      * injection Hp as <-. cbn [through_file]. now rewrite E.
      * injection Hp as <-. cbn [through_file]. rewrite dict_get_set.
        destruct (str_eqb_spec p x) as [->|ne]; [|now rewrite E].
        pose proof (through_file_more _ _ Ht). destruct rest; [congruence|reflexivity].
    + rewrite place_inner in Hp.
      destruct (get_child own proto x) as [child| |] eqn:G; [| discriminate |].
      * destruct (place (x2 :: later) h child) as [child'|] eqn:P; [|discriminate].
        injection Hp as <-. cbn [through_file]. rewrite dict_get_set.
        destruct (str_eqb_spec p x) as [->|ne]; [|now rewrite E].
        rewrite (get_child_own _ _ _ _ E) in G. injection G as <-.
        eapply IH; eauto.
      * destruct (place (x2 :: later) h (NDir [] None)) as [child'|] eqn:P; [|discriminate].
        injection Hp as <-. cbn [through_file]. rewrite dict_get_set.
        destruct (str_eqb_spec p x) as [->|ne]; [|now rewrite E].
        rewrite (get_child_own _ _ _ _ E) in G. discriminate.
Qed.

Lemma place_blocks ps :
  forall name f n n' extra,
    place (ps ++ [name]) f n = Some n' -> name <> proto_key -> extra <> [] ->
    through_file (ps ++ [name] ++ extra) n' = true.
Proof.
  induction ps as [|p ps IH]; intros name f n n' extra Hp Hn He.
  - destruct n as [f0|own proto]; [discriminate|]. cbn [app] in *.
    rewrite place_last in Hp by assumption. injection Hp as <-.
    cbn [through_file]. rewrite dict_get_set, str_eqb_refl.
    destruct extra; [congruence|reflexivity].
  - destruct n as [f0|own proto]; [discriminate|].
    change ((p :: ps) ++ [name]) with (p :: (ps ++ [name])) in Hp.
    destruct (ps ++ [name]) as [|p2 later] eqn:El; [now destruct ps|].
    rewrite place_inner in Hp.
    change ((p :: ps) ++ [name] ++ extra) with (p :: (ps ++ [name] ++ extra)).
    destruct (get_child own proto p) as [child| |]; [| discriminate |].
    + destruct (place (p2 :: later) f child) as [child'|] eqn:P; [|discriminate].
      injection Hp as <-. cbn [through_file]. rewrite dict_get_set, str_eqb_refl.
      rewrite <- El in P. eapply IH; eauto.
    + destruct (place (p2 :: later) f (NDir [] None)) as [child'|] eqn:P; [|discriminate].
      injection Hp as <-. cbn [through_file]. rewrite dict_get_set, str_eqb_refl.
      rewrite <- El in P. eapply IH; eauto.
Qed.

Lemma place_twice parts :
  forall f g n,
    match place parts f n with
    | Some n' => place parts g n' = place parts g n
    | None => place parts g n = None
    end.
Proof.
  induction parts as [|p later IH]; intros f g n; [reflexivity|].
  destruct n as [f0|own proto]; [reflexivity|].
  destruct later as [|p2 later].
  - cbn [place]. destruct (str_eqb p proto_key) eqn:E; cbn [place]; rewrite ?E; [reflexivity|].
    now rewrite dict_set_twice.
  - rewrite !place_inner.
    destruct (get_child own proto p) as [child| |] eqn:G; [| reflexivity |].
    + specialize (IH f g child).
      destruct (place (p2 :: later) f child) as [child'|]; [|now rewrite IH].
      rewrite place_inner. unfold get_child at 1. rewrite dict_get_set, str_eqb_refl.
      rewrite IH. destruct (place (p2 :: later) g child); [|reflexivity].
      now rewrite dict_set_twice.
    + specialize (IH f g (NDir [] None)).
      destruct (place (p2 :: later) f (NDir [] None)) as [child'|]; [|now rewrite IH].
      rewrite place_inner. unfold get_child at 1. rewrite dict_get_set, str_eqb_refl.
      rewrite IH. destruct (place (p2 :: later) g (NDir [] None)); [|reflexivity].
      now rewrite dict_set_twice.
Qed.

Section Overwriting.
Variable Date_now : Z.
Variable localeCompare : jsstring -> jsstring -> Z.

#[local] Abbreviation step :=
  (fun (root : option NestedNode) (file : FileInput) =>
     match root with
     | Some r => place (String_split slash (fi_path file)) (file_entry Date_now file) r
     | None => None
     end).

Lemma nested_fold_None files : fold_left step files None = None.
Proof. induction files; auto. Qed.

Lemma nested_fold_blocked files :
  forall r parts g,
    through_file parts r = true ->
    In g files -> String_split slash (fi_path g) = parts ->
    fold_left step files (Some r) = None.
Proof.
  induction files as [|h files IH]; intros r parts g Ht Hg Hparts; [destruct Hg|].
  cbn [fold_left].
  destruct (place (String_split slash (fi_path h)) (file_entry Date_now h) r) as [r'|] eqn:P;
    [|apply nested_fold_None].
  destruct Hg as [->|Hg].
  - rewrite Hparts, (through_file_throws _ _ _ Ht) in P. discriminate.
  - eapply IH; eauto. eapply through_file_kept; eauto.
Qed.

(** X5. A file entry cannot be used as a directory: when a path of the
    list continues, with further parts, the path of a file that comes
    earlier in the list (whose name is not __proto__), buildTreeFromFiles
    throws, whatever else the list holds. *)
Theorem path_through_earlier_file_throws :
  forall files before f later g extra,
    files = before ++ f :: later ->
    In g later ->
    parts_of g = parts_of f ++ extra -> extra <> [] ->
    last (parts_of f) [] <> proto_key ->
    buildTreeFromFiles Date_now localeCompare files = None.
Proof.
  intros files before f later g extra -> Hg Hparts He Hlast.
  unfold buildTreeFromFiles.
  destruct (before ++ f :: later) as [|x l] eqn:E; [now destruct before|]. rewrite <- E.
  unfold buildNestedStructure. rewrite fold_left_app. cbn [fold_left].
  destruct (fold_left _ before (Some (NDir [] None))) as [r|]; [|now rewrite nested_fold_None].
  destruct (place _ (file_entry Date_now f) r) as [r'|] eqn:P; [|now rewrite nested_fold_None].
  fold (parts_of f) in P.
  assert (Hne : parts_of f <> []) by apply String_split_nonempty.
  rewrite (app_removelast_last [] Hne) in P, Hparts.
  rewrite <- app_assoc in Hparts.
  rewrite (nested_fold_blocked later r' _ g (place_blocks _ _ _ _ _ extra P Hlast He) Hg Hparts).
  reflexivity.
Qed.

(** X6. The last write wins: when the list gives the same path twice in
    succession, buildTreeFromFiles returns what it returns for the list
    without the first of the two. *)
Theorem repeated_path_last_wins :
  forall before f g after,
    fi_path f = fi_path g ->
    buildTreeFromFiles Date_now localeCompare (before ++ f :: g :: after) =
    buildTreeFromFiles Date_now localeCompare (before ++ g :: after).
Proof.
  intros before f g after Hp. unfold buildTreeFromFiles.
  destruct (before ++ f :: g :: after) as [|x l] eqn:E; [now destruct before|]. rewrite <- E.
  destruct (before ++ g :: after) as [|y l'] eqn:E'; [now destruct before|]. rewrite <- E'.
  clear E E' x l y l'.
  assert (H : buildNestedStructure Date_now (before ++ f :: g :: after) =
              buildNestedStructure Date_now (before ++ g :: after)); [|now rewrite H].
  unfold buildNestedStructure. rewrite !fold_left_app. cbn [fold_left].
  destruct (fold_left _ before (Some (NDir [] None))) as [r|]; [|reflexivity].
  rewrite Hp.
  pose proof (place_twice (String_split slash (fi_path g)) (file_entry Date_now f)
                (file_entry Date_now g) r) as H.
  destruct (place _ (file_entry Date_now f) r) as [r'|]; now rewrite H.
Qed.
End Overwriting.

(* ------------------------------------------------------------------ *)
(** * What is collected, batched and sent back *)

Section CollectedFacts.
Import LocalIngestion FileSystem.
Variable env : Env.

(** X7. Every file collectFiles returns is a file the traversal arrived
    at without entering an ignored directory; its lower-cased extension is
    in CODE_EXTENSIONS and not in IGNORE_EXTENSIONS, and its size, 0 when
    the file system reports none, is at most 1 MiB. *)
Theorem collected_files_pass_the_filters :
  forall folder f,
    In f (collectFiles env folder) ->
    exists size,
      In (FsFile (cf_uri f) size) (visited folder) /\
      Set_has CODE_EXTENSIONS (env_toLowerCase env (uri_ext (cf_uri f))) = true /\
      Set_has IGNORE_EXTENSIONS (env_toLowerCase env (uri_ext (cf_uri f))) = false /\
      cf_size f = or_default size 0%Z /\
      (cf_size f <= 1024 * 1024)%Z.
Proof.
  intros node. unfold collectFiles. generalize (uri_path (resource node)).
  intros rootPath.
  induction node as [uri|uri cs IH|uri size|uri] using FsNode_induction; intros f Hf;
    cbn [traverse] in Hf; try contradiction.
  - cbn [visited]. destruct cs as [cs|].
    + destruct (Set_has IGNORE_DIRS (uri_base uri)); [contradiction|].
      apply in_flat_map in Hf as [c [Hc Hf]].
      specialize (IH cs eq_refl). rewrite Forall_forall in IH.
      destruct (IH c Hc f Hf) as [size [Hv Hrest]]. exists size. split; [|exact Hrest].
      right. apply in_flat_map. eauto.
    + destruct (Set_has IGNORE_DIRS (uri_base uri)); contradiction.
  - destruct (Set_has IGNORE_EXTENSIONS _) eqn:Ei; [contradiction|].
    destruct (Set_has CODE_EXTENSIONS _) eqn:Ec; [|contradiction]. cbn [negb] in Hf.
    destruct (match size with Some z => _ | None => false end) eqn:Es; [contradiction|].
    destruct Hf as [<-|[]]. cbn [cf_uri cf_size]. exists size.
    repeat split; auto; [now left|].
    unfold or_default, truthy_number in *. destruct size as [z|]; [|lia].
    destruct (Z.eqb_spec z 0) as [->|ne]; cbn [negb andb] in *; [lia|].
    apply Z.ltb_ge in Es. exact Es.
Qed.
End CollectedFacts.

Section BatchFacts.
Import LocalIngestion.

Lemma slices_concat n :
  forall (files : list FileInput),
    (length files <= n * batchSize)%nat ->
    concat (map (fun k => firstn batchSize (skipn (k * batchSize) files)) (seq 0 n)) = files.
Proof.
  induction n as [|n IH]; intros files Hlen.
  - destruct files; [reflexivity|simpl in Hlen; lia].
  - cbn [seq map concat]. rewrite <- seq_shift, map_map.
    change (skipn (0 * batchSize) files) with files.
    rewrite (map_ext _ (fun k => firstn batchSize (skipn (k * batchSize) (skipn batchSize files)))).
    + rewrite IH; [apply firstn_skipn|]. rewrite length_skipn. lia.
    + intros k. rewrite skipn_skipn. do 2 f_equal. lia.
Qed.

(** X8. The batches startIngestion sends cut the list of files read into
    consecutive pieces: put together in order they give back the list,
    each batch holds between 1 and 20 files, and the batches are numbered
    from 0 upwards. *)
Theorem batches_partition_the_files :
  forall files,
    concat (map snd (batchesOf files)) = files /\
    Forall (fun b => (1 <= length (snd b) <= 20)%nat) (batchesOf files) /\
    map fst (batchesOf files) = map Z.of_nat (seq 0 (length (batchesOf files))) /\
    (length files <= 20 * length (batchesOf files) < length files + 20)%nat.
Proof.
  intros files. unfold batchesOf. rewrite map_map. cbn [snd].
  set (n := ((length files + batchSize - 1) / batchSize)%nat).
  assert (Hb : (batchSize = 20)%nat) by reflexivity.
  assert (Hn : (length files <= n * batchSize < length files + batchSize)%nat).
  { subst n. rewrite Hb.
    pose proof (Nat.div_mod_eq (length files + 20 - 1) 20).
    pose proof (Nat.mod_upper_bound (length files + 20 - 1) 20). lia. }
  split; [apply slices_concat; lia|]. split; [|split].
  - apply Forall_forall. intros b Hin. apply in_map_iff in Hin as [k [<- Hk]].
    apply in_seq in Hk. cbn [snd]. rewrite length_firstn, length_skipn. rewrite Hb in *. lia.
  - rewrite length_map, length_seq, map_map. reflexivity.
  - rewrite length_map, length_seq. rewrite Hb in *. lia.
Qed.

(** X9. Phase 2 of the sync sends exactly the files the server asked for
    that were read: under a path other than __proto__ (an assignment to
    that key defines no property), the object of changed files holds the
    content read for that path when the path is in needsFiles, and nothing
    otherwise. *)
Theorem changed_files_are_the_needed_files_read :
  forall fileContentMap needed p,
    p <> proto_key ->
    dict_get p (changedFilesFor fileContentMap needed) =
    if Set_has needed p then dict_get p fileContentMap else None.
Proof.
  intros m needed p _. unfold changedFilesFor.
  assert (H : forall acc,
             dict_get p (fold_left
                           (fun changedFiles filePath =>
                              match dict_get filePath m with
                              | Some content => dict_set filePath content changedFiles
                              | None => changedFiles
                              end) needed acc) =
             if Set_has needed p
             then match dict_get p m with Some c => Some c | None => dict_get p acc end
             else dict_get p acc).
  { induction needed as [|q needed IH]; intros acc; [reflexivity|].
    cbn [fold_left]. rewrite IH. unfold Set_has. cbn [existsb].
    destruct (str_eqb_spec p q) as [->|ne]; cbn [orb].
    - destruct (dict_get q m) as [c|] eqn:E.
      + rewrite dict_get_set, str_eqb_refl. now destruct (existsb _ needed).
      + now destruct (existsb _ needed).
    - destruct (dict_get q m) as [c|] eqn:E; [|reflexivity].
      rewrite dict_get_set. apply str_eqb_neq in ne. now rewrite ne. }
  rewrite H. destruct (Set_has needed p); [|reflexivity].
  now destruct (dict_get p m).
Qed.
End BatchFacts.

(* ------------------------------------------------------------------ *)
(** * What the runs of the ingestion service keep *)

Section Within.
Import LocalIngestion Frame.
Variable env : Env.
Variable I : Service -> Prop.
Variable P : Effect -> Prop.
Hypothesis I_tree :
  forall s m, I s ->
    I {| currentProject := currentProject s; currentMerkleTree := Some m;
         backendUrl := backendUrl s; authToken := authToken s;
         initialized := initialized s |}.
Hypothesis I_project :
  forall s p, I s ->
    I {| currentProject := Some p; currentMerkleTree := currentMerkleTree s;
         backendUrl := backendUrl s; authToken := authToken s;
         initialized := initialized s |}.
Hypothesis P_fetch : forall s r, I s -> P (Fetch (backendUrl s) (authToken s) r).
Hypothesis P_progress : forall p, P (Fire (IngestionProgressed p)).
Hypothesis P_complete : forall p, P (Fire (IngestionComplete p)).
Hypothesis P_error : forall pid message, P (Fire (IngestionError pid message)).

Lemma within_ret {A} (a : A) : run_within I P (ret a).
Proof. intros s t Hs. exists a, s, []. rewrite app_nil_r. auto. Qed.

Lemma within_bind {A B} (m : Run A) (k : A -> Run B) :
  run_within I P m -> (forall a, run_within I P (k a)) -> run_within I P (bind m k).
Proof.
  intros Hm Hk s t Hs. unfold bind.
  destruct (Hm s t Hs) as (a & s1 & d1 & -> & Hs1 & Hd1).
  destruct (Hk a s1 (t ++ d1) Hs1) as (b & s2 & d2 & -> & Hs2 & Hd2).
  exists b, s2, (d1 ++ d2). rewrite app_assoc. repeat split; auto.
  apply Forall_app; auto.
Qed.

Lemma within_fire e : P (Fire e) -> run_within I P (fire e).
Proof. intros He s t Hs. exists tt, s, [Fire e]. repeat split; auto. Qed.

Lemma within_fetch {B} (oracle : Trace -> Request -> Reply B) r :
  run_within I P (fetch oracle r).
Proof.
  intros s t Hs. exists (oracle t r), s, [Fetch (backendUrl s) (authToken s) r].
  repeat split; auto.
Qed.

Lemma within_getProject : run_within I P getProject.
Proof. intros s t Hs. exists (currentProject s), s, []. rewrite app_nil_r. auto. Qed.

Lemma within_setProject p : run_within I P (setProject (Some p)).
Proof.
  intros s t Hs. eexists tt, _, []. rewrite app_nil_r.
  split; [reflexivity|]. split; [apply I_project, Hs|constructor].
Qed.

Lemma within_setMerkleTree m : run_within I P (setMerkleTree m).
Proof.
  intros s t Hs. eexists tt, _, []. rewrite app_nil_r.
  split; [reflexivity|]. split; [apply I_tree, Hs|constructor].
Qed.

Ltac within :=
  repeat first
    [ apply within_ret
    | apply within_fetch
    | apply within_getProject
    | apply within_setProject
    | apply within_setMerkleTree
    | apply within_fire;
      solve [apply P_progress | apply P_complete | apply P_error]
    | apply within_bind; [|intros ?]
    | match goal with
      | |- run_within _ _ (match ?x with _ => _ end) => destruct x
      | |- run_within _ _ (if ?x then _ else _) => destruct x
      end ].

Lemma within_markCompleted done nchunks : run_within I P (markCompleted done nchunks).
Proof. unfold markCompleted. within. Qed.

Lemma within_checkProjectExists folderPath folderName :
  run_within I P (checkProjectExists env folderPath folderName).
Proof. unfold checkProjectExists. within. Qed.

Lemma within_createProject folderPath folderName :
  run_within I P (createProject env folderPath folderName).
Proof. unfold createProject. within. Qed.

Lemma within_sendBatches pid nfiles totalBatches batches :
  run_within I P (sendBatches env pid nfiles totalBatches batches).
Proof.
  induction batches as [|[k batch] rest IH]; cbn [sendBatches]; within;
    try apply within_markCompleted; exact IH.
Qed.

Lemma within_startIngestion pid folder :
  run_within I P (startIngestion env pid folder).
Proof. unfold startIngestion. within; apply within_sendBatches. Qed.

Lemma within_pollIngestionProgress pid ticks :
  run_within I P (pollIngestionProgress env pid ticks).
Proof.
  induction ticks as [|ticks IH]; cbn [pollIngestionProgress]; within;
    try apply within_markCompleted; exact IH.
Qed.

Lemma within_syncWithMerkle pid folder :
  run_within I P (syncWithMerkle env pid folder).
Proof. unfold syncWithMerkle. within. Qed.

(** ingestFolder on an initialised service: either nothing is announced
    and the service is left as it was, or the project returned is
    announced once, after the requests that found or created it. *)
Lemma ingestFolder_shape folder ticks :
  forall s t,
    I s -> initialized s = true ->
    exists r s' found rest,
      ingestFolder env folder ticks s t = (r, s', t ++ found ++ rest) /\
      fired found = [] /\ Forall P found /\
      match r with
      | None => rest = [] /\ s' = s
      | Some p =>
          exists later,
            rest = Fire (ProjectChanged (Some p)) :: later /\ Forall P later /\ I s'
      end.
Proof.
  intros s t Hs Hinit. unfold ingestFolder. rewrite Hinit. cbn [negb].
  unfold bind at 1. unfold checkProjectExists at 1, bind at 1, fetch at 1, ret at 1.
  set (check := Fetch (backendUrl s) (authToken s)
                  (PostCheck (uri_path (resource folder)) (uri_base (resource folder)))).
  assert (Hcheck : P check) by (apply P_fetch, Hs).
  match goal with
  | |- context [match ?e with Some existing => _ | None => _ end ?s0 ?t0] =>
      destruct e as [existing|]
  end.
  - unfold bind at 1, setProject at 1. unfold bind at 1, fire at 1. unfold bind at 1.
    set (s1 := {| currentProject := Some existing |}).
    assert (Hs1 : I s1) by (apply I_project, Hs).
    assert (H : run_within I P
                  match ingestionStatus existing with
                  | pending => ret tt
                  | processing => pollIngestionProgress env (projectId existing) ticks
                  | completed =>
                      bind (syncWithMerkle env (projectId existing) folder) (fun _ => ret tt)
                  | failed => ret tt
                  end).
    { destruct (ingestionStatus existing);
        first [apply within_ret | apply within_pollIngestionProgress
              | apply within_bind; [apply within_syncWithMerkle|intros; apply within_ret]]. }
    destruct (H s1 ((t ++ [check]) ++ [Fire (ProjectChanged (Some existing))]) Hs1)
      as ([] & s2 & later & -> & Hs2 & Hlater).
    unfold ret. exists (Some existing), s2, [check], (Fire (ProjectChanged (Some existing)) :: later).
    split; [now rewrite <- !app_assoc|]. split; [reflexivity|].
    split; [now constructor|]. exists later. auto.
  - unfold bind at 1. unfold createProject at 1, bind at 1, fetch at 1, ret at 1.
    set (create := Fetch (backendUrl s) (authToken s)
                     (PostCreate (uri_path (resource folder)) (uri_base (resource folder)))).
    assert (Hcreate : P create) by (apply P_fetch, Hs).
    match goal with
    | |- context [match ?e with Some created => _ | None => _ end ?s0 ?t0] =>
        destruct e as [created|]
    end.
    + unfold bind at 1, setProject at 1. unfold bind at 1, fire at 1. unfold bind at 1.
      set (s1 := {| currentProject := Some created |}).
      assert (Hs1 : I s1) by (apply I_project, Hs).
      destruct (within_startIngestion (projectId created) folder s1
                  (((t ++ [check]) ++ [create]) ++ [Fire (ProjectChanged (Some created))]) Hs1)
        as ([] & s2 & later & -> & Hs2 & Hlater).
      unfold ret.
      exists (Some created), s2, [check; create], (Fire (ProjectChanged (Some created)) :: later).
      split; [now rewrite <- !app_assoc|]. split; [reflexivity|].
      split; [now repeat constructor|]. exists later. auto.
    + unfold ret. exists None, s, [check; create], [].
      split; [now rewrite <- !app_assoc|]. split; [reflexivity|].
      split; [now repeat constructor|]. auto.
Qed.
End Within.

Section FrameTheorems.
Import LocalIngestion Frame.
Variable env : Env.

Lemma never_fired p delta :
  Forall (never p) delta -> existsb p (fired delta) = false.
Proof.
  induction 1 as [|e delta He _ IH]; [reflexivity|].
  destruct e as [u k r|ev]; [exact IH|].
  rewrite fired_fire. cbn [existsb]. cbn in He. now rewrite He, IH.
Qed.

Lemma only_last_cons p e delta :
  never p e -> only_last p delta = true -> only_last p (e :: delta) = true.
Proof.
  unfold only_last. intros He H. destruct delta as [|x delta]; [reflexivity|].
  change (removelast (e :: x :: delta)) with (e :: removelast (x :: delta)).
  destruct e as [u k r|ev]; [exact H|].
  rewrite fired_fire. cbn [existsb]. cbn in He. now rewrite He.
Qed.

Lemma only_last_none p delta :
  existsb p (fired delta) = false -> only_last p delta = true.
Proof.
  induction delta as [|e delta IH]; [reflexivity|]. intros H.
  destruct e as [u k r|ev].
  - apply only_last_cons; [exact I|]. apply IH. exact H.
  - rewrite fired_fire in H. cbn [existsb] in H. apply orb_false_iff in H as [He H].
    apply only_last_cons; [exact He|]. apply IH, H.
Qed.

Lemma only_last_snoc p delta e :
  existsb p (fired delta) = false -> only_last p (delta ++ [e]) = true.
Proof. intros H. unfold only_last. now rewrite removelast_last, H. Qed.

(** X10. Every request of a run started by initialize goes to the
    backend URL and carries the token given to initialize, and the service
    keeps both. *)
Theorem requests_carry_the_configuration :
  forall url token roots ticks s t,
  exists s' delta,
    initialize env url token roots ticks s t = (tt, s', t ++ delta) /\
    configured url token s' /\
    Forall (sent_with url token) delta.
Proof.
  intros url token roots ticks s t. unfold initialize.
  set (s0 := {| backendUrl := url |}).
  assert (Hs0 : configured url token s0) by (repeat split).
  unfold bind, checkAndIngestWorkspace. destruct roots as [|root roots].
  - unfold bind, setProject, fire, ret. eexists _, [Fire (ProjectChanged None)].
    split; [reflexivity|]. split; [repeat split|repeat constructor].
  - assert (H1 : forall s1 m, configured url token s1 ->
               configured url token
                 {| currentProject := currentProject s1; currentMerkleTree := Some m;
                    backendUrl := backendUrl s1; authToken := authToken s1;
                    initialized := initialized s1 |}) by (intros s1 m H; exact H).
    assert (H2 : forall s1 p, configured url token s1 ->
               configured url token
                 {| currentProject := Some p; currentMerkleTree := currentMerkleTree s1;
                    backendUrl := backendUrl s1; authToken := authToken s1;
                    initialized := initialized s1 |}) by (intros s1 p H; exact H).
    assert (H3 : forall s1 q, configured url token s1 ->
               sent_with url token (Fetch (backendUrl s1) (authToken s1) q))
      by (intros s1 q (Hu & Hk & _); split; assumption).
    destruct (ingestFolder_shape env _ _ H1 H2 H3 (fun _ => I) (fun _ => I) (fun _ _ => I)
                root ticks s0 t Hs0 eq_refl)
      as (r & s' & found & rest & -> & _ & Hfound & Hr).
    unfold ret. exists s', (found ++ rest). split; [reflexivity|].
    destruct r as [p|].
    + destruct Hr as (later & -> & Hlater & Hs'). split; [exact Hs'|].
      apply Forall_app. split; [exact Hfound|]. constructor; [exact I|exact Hlater].
    + destruct Hr as [-> ->]. split; [exact Hs0|]. now rewrite app_nil_r.
Qed.

(** X11. An initialised ingestFolder announces the project it returns:
    when it returns a project, onProjectChanged is fired with that project
    before any other event and is not fired again; when it returns
    undefined, no event is fired and the service is left as it was. *)
Theorem ingestFolder_announces_its_project :
  forall folder ticks s t,
    initialized s = true ->
    exists r s' delta,
      ingestFolder env folder ticks s t = (r, s', t ++ delta) /\
      match r with
      | None => fired delta = [] /\ s' = s
      | Some p =>
          exists events,
            fired delta = ProjectChanged (Some p) :: events /\
            existsb is_project_event events = false
      end.
Proof.
  intros folder ticks s t Hinit.
  assert (H3 : forall (s1 : Service) q, True ->
             (never is_project_event) (Fetch (backendUrl s1) (authToken s1) q))
    by (intros; exact I).
  destruct (ingestFolder_shape env (fun _ => True) (never is_project_event)
              (fun _ _ _ => I) (fun _ _ _ => I) H3
              (fun _ => eq_refl) (fun _ => eq_refl) (fun _ _ => eq_refl)
              folder ticks s t I Hinit)
    as (r & s' & found & rest & E & Hnone & Hfound & Hr).
  exists r, s', (found ++ rest). split; [exact E|].
  rewrite fired_app, Hnone. destruct r as [p|].
  - destruct Hr as (later & -> & Hlater & _). exists (fired later).
    split; [reflexivity|]. apply never_fired, Hlater.
  - destruct Hr as [-> ->]. auto.
Qed.
End FrameTheorems.

Section RunTheorems.
Import LocalIngestion Frame.
Variable env : Env.

(** X12. syncWithMerkle fires no event, makes at most two requests and
    never touches the current project.  When it reports failure the
    service is exactly as before and an error message is returned; when it
    reports success for a folder with files to collect, the tree it built
    from the files read is the new currentMerkleTree. *)
Theorem sync_is_silent_and_all_or_nothing :
  forall pid folder s t,
  exists r s' delta,
    syncWithMerkle env pid folder s t = (r, s', t ++ delta) /\
    fired delta = [] /\
    (length delta <= 2)%nat /\
    currentProject s' = currentProject s /\
    (if success r
     then sr_error r = None /\
          (collectFiles env folder = [] /\ s' = s /\ delta = [] \/
           collectFiles env folder <> [] /\ delta <> [] /\
           buildTreeFromFiles (env_now env) (env_localeCompare env)
             (fst (readForSync env (collectFiles env folder))) = currentMerkleTree s')
     else s' = s /\ sr_error r <> None).
Proof.
  intros pid folder s t. unfold syncWithMerkle.
  destruct (collectFiles env folder) as [|f files] eqn:Ef.
  { eexists _, s, []. rewrite app_nil_r. unfold ret. split; [reflexivity|].
    cbn [fired flat_map app length success sr_error currentProject failedSync]. repeat split; auto. }
  destruct (readForSync env (f :: files)) as [filesWithContent fileContentMap].
  cbn [fst].
  destruct (buildTreeFromFiles _ _ filesWithContent) as [tree|].
  2:{ eexists _, s, []. rewrite app_nil_r. unfold ret. split; [reflexivity|].
      cbn [fired flat_map app length success sr_error currentProject failedSync]. repeat split; auto. discriminate. }
  unfold bind at 1. unfold fetch at 1.
  destruct (on_merkle_sync (env_backend env) t (PostMerkleSync pid tree None))
    as [message|[|] code text [body|message]].
  2:{ destruct (needsFiles body) as [[|n needed]|].
      2:{ unfold bind at 1. unfold fetch at 1.
          match goal with
          | |- context [on_merkle_sync (env_backend env) ?t1 ?q] =>
              destruct (on_merkle_sync (env_backend env) t1 q)
                as [message|[|] code2 text2 [body2|message]]
          end;
          unfold bind, setMerkleTree, ret; eexists _, _, [_; _];
          (split; [rewrite <- app_assoc; reflexivity|]);
          cbn [fired flat_map app length success sr_error currentProject failedSync]; repeat split; auto; try discriminate;
          right; repeat split; discriminate. }
      all: unfold bind, setMerkleTree, ret; eexists _, _, [_];
        (split; [reflexivity|]); cbn [fired flat_map app length success sr_error currentProject failedSync]; repeat split; auto;
        right; repeat split; discriminate. }
  all: unfold ret; eexists _, s, [_]; (split; [reflexivity|]);
    cbn [fired flat_map app length success sr_error currentProject failedSync]; repeat split; auto; try discriminate.
Qed.

Lemma requests_fetch u k r l : requests (Fetch u k r :: l) = r :: requests l.
Proof. reflexivity. Qed.

Lemma requests_fire e l : requests (Fire e :: l) = requests l.
Proof. reflexivity. Qed.

(** X13. startIngestion fires onIngestionError at most once, and then as
    the last thing it does: no request is made and no event is fired after
    it. *)
Theorem ingestion_error_ends_the_run :
  forall pid folder s t,
  exists s' delta,
    startIngestion env pid folder s t = (tt, s', t ++ delta) /\
    only_last is_error_event delta = true /\
    (forall p message, In (Fire (IngestionError p message)) delta -> p = pid).
Proof.
  intros pid folder s t. unfold startIngestion.
  destruct (collectFiles env folder) as [|f files].
  { exists s, []. unfold ret. rewrite app_nil_r. repeat split. intros ? ? []. }
  destruct (readForIngestion env (f :: files)) as [|x xs].
  { exists s, []. unfold ret. rewrite app_nil_r. repeat split. intros ? ? []. }
  destruct (buildTreeFromFiles _ _ (x :: xs)) as [tree|].
  2:{ unfold fire. eexists s, [_]. repeat split.
      intros p m [[= <- _]|[]]. reflexivity. }
  unfold bind at 1. unfold setMerkleTree at 1. unfold bind at 1. unfold fetch at 1.
  match goal with
  | |- context [on_init (env_backend env) ?t0 ?q] =>
      destruct (on_init (env_backend env) t0 q) as [message|ok code text json]
  end.
  { unfold fire. eexists _, [_; _]. rewrite <- app_assoc. repeat split.
    intros p m [[=]|[[= <- _]|[]]]. reflexivity. }
  unfold bind at 1.
  match goal with
  | |- context [sendBatches env pid ?n ?k ?bs ?s1 ?t1] =>
      destruct (within_sendBatches env (fun _ => True) (never is_error_event)
                  (fun _ _ _ => I) (fun _ _ _ => I) (fun _ => eq_refl) (fun _ => eq_refl)
                  pid n k bs s1 t1 I) as (out & s2 & d & -> & _ & Hd)
  end.
  assert (Hnone : existsb is_error_event (fired d) = false) by (apply never_fired, Hd).
  assert (Hin : forall p m, ~ In (Fire (IngestionError p m)) d).
  { intros p m Hin. rewrite Forall_forall in Hd. specialize (Hd _ Hin). discriminate. }
  destruct out as [[]|message].
  - unfold ret. eexists _, (_ :: d). rewrite <- app_assoc. split; [reflexivity|]. split.
    + apply only_last_cons; [exact I|]. now apply only_last_none.
    + intros p m [[=]|H]. now apply Hin in H.
  - unfold fire. eexists _, ((_ :: d) ++ [_]).
    split; [now rewrite <- !app_assoc|]. split.
    + apply only_last_snoc. rewrite fired_fetch. exact Hnone.
    + intros p m H. apply in_app_or in H as [[[=]|H]|[[= <- _]|[]]]; [|reflexivity].
      now apply Hin in H.
Qed.

(** X14. A run of pollIngestionProgress asks for the progress of its
    project only, once per round, and ends with the first
    onIngestionComplete or onIngestionError it fires: nothing is requested
    or fired after one of the two. *)
Theorem polling_ends_with_the_outcome :
  forall pid ticks s t,
  exists s' delta,
    pollIngestionProgress env pid ticks s t = (tt, s', t ++ delta) /\
    only_last is_terminal_event delta = true /\
    (length (requests delta) <= ticks)%nat /\
    Forall (eq (GetProgress pid)) (requests delta) /\
    currentMerkleTree s' = currentMerkleTree s.
Proof.
  intros pid ticks. induction ticks as [|ticks IH]; intros s t.
  { exists s, []. unfold ret. cbn. rewrite app_nil_r. repeat split; auto. }
  cbn [pollIngestionProgress]. unfold bind at 1. unfold fetch at 1.
  destruct (on_progress (env_backend env) t (GetProgress pid)) as [message|[|] code text [data|message]].
  2:{ cbn [negb]. unfold bind at 1. unfold fire at 1.
      destruct (pb_status data).
      - unfold ret. eexists _, [_; _]. rewrite <- app_assoc. split; [reflexivity|].
        cbn. repeat split; auto; try lia; repeat constructor; auto.
      - match goal with
        | |- context [pollIngestionProgress env pid ticks ?s1 ?t1] =>
            destruct (IH s1 t1) as (s2 & d & -> & Hlast & Hlen & Hreq & Hm)
        end.
        eexists _, (_ :: _ :: d). split; [now rewrite <- !app_assoc|].
        split; [do 2 (apply only_last_cons; [exact I || reflexivity|]); exact Hlast|].
        rewrite requests_fetch, requests_fire. cbn [length].
        split; [lia|]. split; [now constructor|exact Hm].
      - destruct (pb_progress data) as [counts|].
        + unfold markCompleted, bind, getProject, setProject, fire.
          eexists _, [_; _; _]. split; [now rewrite <- !app_assoc|].
          cbn. repeat split; auto; try lia; repeat constructor; auto.
        + unfold ret. eexists _, [_; _]. rewrite <- app_assoc. split; [reflexivity|].
          cbn. repeat split; auto; try lia; repeat constructor; auto.
      - unfold fire. eexists _, [_; _; _]. split; [now rewrite <- !app_assoc|].
        cbn. repeat split; auto; try lia; repeat constructor; auto. }
  all: cbn [negb]; unfold ret; eexists _, [_]; (split; [reflexivity|]);
    cbn; repeat split; auto; try lia; repeat constructor; auto.
Qed.


(** X22. startIngestion keeps the tree it built: once files were read and
    the tree is built, the first request is the init request with that
    tree and the number of files read, and the tree is the
    currentMerkleTree afterwards, whatever the server answers to the init
    request or to any batch. *)
Theorem ingestion_keeps_its_tree :
  forall pid folder s t tree,
    readForIngestion env (collectFiles env folder) <> [] ->
    buildTreeFromFiles (env_now env) (env_localeCompare env)
      (readForIngestion env (collectFiles env folder)) = Some tree ->
    exists s' delta,
      startIngestion env pid folder s t =
        (tt, s',
         t ++ Fetch (backendUrl s) (authToken s)
                (PostInit pid
                   (Z.of_nat (length (readForIngestion env (collectFiles env folder))))
                   tree) :: delta) /\
      currentMerkleTree s' = Some tree.
Proof.
  intros pid folder s t tree Hread Htree. unfold startIngestion.
  destruct (collectFiles env folder) as [|f files].
  { now destruct Hread. }
  destruct (readForIngestion env (f :: files)) as [|x xs]; [now destruct Hread|].
  rewrite Htree.
  unfold bind at 1. unfold setMerkleTree at 1. unfold bind at 1. unfold fetch at 1.
  cbn [backendUrl authToken].
  match goal with
  | |- context [on_init (env_backend env) ?t0 ?q] =>
      destruct (on_init (env_backend env) t0 q) as [message|ok code text json]
  end.
  { unfold fire. eexists _, [_]. split; [now rewrite <- app_assoc|reflexivity]. }
  unfold bind at 1.
  match goal with
  | |- context [sendBatches env pid ?n ?k ?bs ?s1 ?t1] =>
      destruct (within_sendBatches env (fun s => currentMerkleTree s = Some tree)
                  (fun _ => True)
                  (fun _ _ H => H) (fun _ _ _ => I) (fun _ => I) (fun _ => I)
                  pid n k bs s1 t1 eq_refl) as (out & s2 & d & -> & Hs2 & _)
  end.
  destruct out as [[]|message].
  - unfold ret. exists s2, d. split; [now rewrite <- app_assoc|exact Hs2].
  - unfold fire. exists s2, (d ++ [Fire (IngestionError pid message)]).
    split; [now rewrite <- !app_assoc|exact Hs2].
Qed.
End RunTheorems.

(* ------------------------------------------------------------------ *)
(** * The availability a listener has been told *)

Section AvailabilityFacts.
Import BackendChat.

Lemma last_cons_default {A} (l : list A) x d : last (x :: l) d = last l x.
Proof.
  revert x d. induction l as [|a l IH]; intros x d; [reflexivity|].
  change (last (x :: a :: l) d) with (last (a :: l) d). now rewrite !IH.
Qed.

Lemma last_app_default {A} (l1 l2 : list A) d :
  last (l1 ++ l2) d = last l2 (last l1 d).
Proof.
  revert d. induction l1 as [|x l1 IH]; intros d; [reflexivity|].
  change ((x :: l1) ++ l2) with (x :: (l1 ++ l2)).
  now rewrite !last_cons_default, IH.
Qed.

Lemma reports_changes_app previous l1 l2 :
  reports_changes previous (l1 ++ l2) =
  reports_changes previous l1 && reports_changes (last l1 previous) l2.
Proof.
  revert previous. induction l1 as [|b l1 IH]; intros previous; [reflexivity|].
  cbn [app reports_changes]. rewrite IH, andb_assoc, last_cons_default. reflexivity.
Qed.

Lemma notify_reports e g :
  isAvailable (fst (notify e g)) = last (snd (notify e g)) (isAvailable g) /\
  reports_changes (isAvailable g) (snd (notify e g)) = true /\
  backendUrl (fst (notify e g)) = backendUrl g /\
  authToken (fst (notify e g)) = authToken g.
Proof.
  destruct e as [project|p|project|pid message]; cbn [notify fst snd]; auto.
  - unfold onProjectChanged. cbn [isAvailable setAvailable].
    destruct (isAvailable g), (is_completed project); cbn; auto.
Qed.

(** X16. Whatever events of the ingestion service the gateway observes,
    its isAvailable is the value it last fired on onAvailabilityChanged
    (its initial value if it fired none), false is fired only when it was
    available just before, and the backend URL and token are untouched. *)
Theorem availability_is_the_last_report :
  forall events g,
    isAvailable (fst (observe events g)) = last (snd (observe events g)) (isAvailable g) /\
    reports_changes (isAvailable g) (snd (observe events g)) = true /\
    backendUrl (fst (observe events g)) = backendUrl g /\
    authToken (fst (observe events g)) = authToken g.
Proof.
  induction events as [|e events IH]; intros g; [cbn; auto|].
  cbn [observe]. destruct (notify_reports e g) as (Ha & Hr & Hu & Hk).
  destruct (notify e g) as [g1 out1]. cbn [fst snd] in *.
  destruct (IH g1) as (Ha' & Hr' & Hu' & Hk').
  destruct (observe events g1) as [g2 out2]. cbn [fst snd] in *.
  rewrite last_app_default, reports_changes_app, Hr, <- Ha, Hr'.
  repeat split; congruence.
Qed.
End AvailabilityFacts.

(* ------------------------------------------------------------------ *)
(** * Hashes depend on paths and contents only *)

Lemma sort_insert_map {A B} (f : A -> B) cmpA cmpB :
  (forall a b, cmpB (f a) (f b) = cmpA a b) ->
  forall x l, map f (sort_insert cmpA x l) = sort_insert cmpB (f x) (map f l).
Proof.
  intros H x l. induction l as [|y l IH]; [reflexivity|].
  cbn [sort_insert map]. rewrite H. destruct (cmpA x y <=? 0)%Z; [reflexivity|].
  cbn [map]. now rewrite IH.
Qed.

Lemma Array_sort_map {A B} (f : A -> B) cmpA cmpB :
  (forall a b, cmpB (f a) (f b) = cmpA a b) ->
  forall l, map f (Array_sort cmpA l) = Array_sort cmpB (map f l).
Proof.
  intros H l. induction l as [|x l IH]; [reflexivity|].
  cbn [map]. rewrite !Array_sort_cons, (sort_insert_map f cmpA cmpB H), IH. reflexivity.
Qed.

Lemma Object_entries_map {V W} (F : jsstring * V -> W) (d : list (jsstring * V)) :
  Object_entries (map (fun e => (fst e, F e)) d) =
  map (fun e => (fst e, F e)) (Object_entries d).
Proof.
  unfold Object_entries. rewrite map_app. f_equal.
  - set (G := fun ne : N * (jsstring * V) => (fst ne, (fst (snd ne), F (snd ne)))).
    assert (E : flat_map (fun e : jsstring * W =>
                            match array_index (fst e) with Some n => [(n, e)] | None => [] end)
                         (map (fun e => (fst e, F e)) d) =
                map G (flat_map (fun e : jsstring * V =>
                                   match array_index (fst e) with
                                   | Some n => [(n, e)] | None => []
                                   end) d)).
    { induction d as [|[k v] d IH]; [reflexivity|]. cbn [map flat_map fst snd].
      rewrite IH, map_app. destruct (array_index k); reflexivity. }
    rewrite E, <- (Array_sort_map G (fun a b => (Z.of_N (fst a) - Z.of_N (fst b))%Z)
                                    (fun a b => (Z.of_N (fst a) - Z.of_N (fst b))%Z))
      by reflexivity.
    rewrite !map_map. reflexivity.
  - induction d as [|[k v] d IH]; [reflexivity|]. cbn [map filter fst snd].
    rewrite IH. destruct (array_index k); reflexivity.
Qed.

Lemma dict_get_map {V W} (F : V -> W) k (d : list (jsstring * V)) :
  dict_get k (map (fun e => (fst e, F (snd e))) d) = option_map F (dict_get k d).
Proof.
  induction d as [|[k' v] d IH]; [reflexivity|]. cbn [map dict_get fst snd].
  destruct (str_eqb k k'); [reflexivity|exact IH].
Qed.

Lemma dict_set_map {V W} (F : V -> W) k v (d : list (jsstring * V)) :
  dict_set k (F v) (map (fun e => (fst e, F (snd e))) d) =
  map (fun e => (fst e, F (snd e))) (dict_set k v d).
Proof.
  induction d as [|[k' v'] d IH]; [reflexivity|]. cbn [map dict_set fst snd].
  destruct (str_eqb k k'); [reflexivity|]. cbn [map fst snd]. now rewrite IH.
Qed.

Lemma get_child_contents own proto part :
  get_child (map (fun e => (fst e, contents_only (snd e))) own) proto part =
  match get_child own proto part with
  | LNode n => LNode (contents_only n)
  | other => other
  end.
Proof.
  unfold get_child. rewrite dict_get_map.
  destruct (dict_get part own); cbn [option_map]; [reflexivity|].
  repeat match goal with
         | |- context [if ?b then _ else _] => destruct b
         | |- context [match ?x with _ => _ end] => destruct x
         end; reflexivity.
Qed.

Lemma place_contents parts :
  forall f n,
    last parts [] <> proto_key ->
    place parts (content_of f) (contents_only n) = option_map contents_only (place parts f n).
Proof.
  induction parts as [|p later IH]; intros f n Hlast; [reflexivity|].
  destruct n as [f0|own proto]; [reflexivity|].
  destruct later as [|p2 later].
  - cbn [last] in Hlast. cbn [contents_only]. rewrite !place_last by assumption.
    cbn [option_map contents_only].
    now rewrite <- (dict_set_map contents_only p (NFile f) own).
  - cbn [contents_only]. rewrite !place_inner, get_child_contents.
    assert (Hl : last (p2 :: later) [] <> proto_key) by exact Hlast.
    destruct (get_child own proto p) as [child| |]; cbv iota; [| reflexivity |];
      unfold jsstring in *.
    + rewrite IH by exact Hl. destruct (place (p2 :: later) f child) as [child'|];
        [|reflexivity]. cbn [option_map contents_only].
      now rewrite <- (dict_set_map contents_only p child' own).
    + pose proof (IH f (NDir [] None) Hl) as E. cbn [contents_only map] in E.
      unfold jsstring in *. rewrite E.
      match goal with
      | |- context [place ?a f ?b] => destruct (place a f b) as [child'|]
      end; [|reflexivity].
      cbn [option_map contents_only].
      now rewrite <- (dict_set_map contents_only p child' own).
Qed.

Section ContentsOnly.
Variable localeCompare : jsstring -> jsstring -> Z.

Lemma build_contents now now' n :
  forall p,
    hash (buildTreeFromNested now localeCompare n p) =
    hash (buildTreeFromNested now' localeCompare (contents_only n) p).
Proof.
  induction n as [f|own proto IH] using NestedNode_induction; intros p; [reflexivity|].
  cbn [contents_only buildTreeFromNested hash]. f_equal.
  set (hp := fun c : MerkleNodeJSON => (hash c, path c)).
  rewrite !(Array_sort_map hp (byPath localeCompare)
              (fun a b => localeCompare (snd a) (snd b))) by reflexivity.
  f_equal.
  rewrite (map_map (fun e => (fst e, contents_only (snd e)))
                   (fun e => (fst e, buildTreeFromNested now' localeCompare (snd e)
                                        (childPath p (fst e)))) own).
  cbn [fst snd].
  rewrite (Object_entries_map
             (fun e => buildTreeFromNested now localeCompare (snd e) (childPath p (fst e)))),
          (Object_entries_map
             (fun e => buildTreeFromNested now' localeCompare (contents_only (snd e))
                         (childPath p (fst e)))).
  rewrite !map_map. cbn [fst snd]. apply map_ext_in. intros e He.
  apply (Permutation_in _ (Object_entries_perm _)) in He.
  rewrite Forall_forall in IH. unfold hp. rewrite (IH e He), !build_path. reflexivity.
Qed.

Lemma nested_contents now now' files files' :
  map fi_path files = map fi_path files' ->
  map fi_content files = map fi_content files' ->
  plain_names files ->
  forall root root',
    option_map contents_only root = option_map contents_only root' ->
    option_map contents_only
      (fold_left (fun r file =>
                    match r with
                    | Some r => place (String_split slash (fi_path file)) (file_entry now file) r
                    | None => None
                    end) files root) =
    option_map contents_only
      (fold_left (fun r file =>
                    match r with
                    | Some r => place (String_split slash (fi_path file)) (file_entry now' file) r
                    | None => None
                    end) files' root').
Proof.
  revert files'. induction files as [|f files IH]; intros [|f' files'] Hp Hc Hplain root root' Hr;
    try discriminate; [exact Hr|].
  cbn [map] in Hp, Hc. injection Hp as Hp Hps. injection Hc as Hc Hcs.
  cbn [fold_left]. apply IH; auto.
  - intros g Hg. apply Hplain. now right.
  - destruct root as [r|], root' as [r'|]; try discriminate; [|reflexivity].
    cbn [option_map] in Hr. injection Hr as Hr.
    assert (Hl : last (String_split slash (fi_path f)) [] <> proto_key)
      by (apply (Hplain f); now left).
    rewrite <- (place_contents _ (file_entry now f) r Hl).
    rewrite <- Hp in *. rewrite <- (place_contents _ (file_entry now' f') r' Hl).
    rewrite Hr. unfold content_of, file_entry. cbn [fe_content]. now rewrite Hc.
Qed.

Lemma tree_hash_of_contents now now' files files' :
  map fi_path files = map fi_path files' ->
  map fi_content files = map fi_content files' ->
  plain_names files ->
  option_map (fun n => hash (buildTreeFromNested now localeCompare n (js "root")))
             (buildNestedStructure now files) =
  option_map (fun n => hash (buildTreeFromNested now' localeCompare n (js "root")))
             (buildNestedStructure now' files').
Proof.
  intros Hp Hc Hplain.
  pose proof (nested_contents now now' files files' Hp Hc Hplain
                (Some (NDir [] None)) (Some (NDir [] None)) eq_refl) as H.
  fold (buildNestedStructure now files) in H.
  fold (buildNestedStructure now' files') in H.
  destruct (buildNestedStructure now files) as [r|],
           (buildNestedStructure now' files') as [r'|]; try discriminate;
    [|reflexivity].
  cbn [option_map] in *. injection H as H. f_equal.
  rewrite (build_contents now now' r), (build_contents now' now' r'), H. reflexivity.
Qed.

(** X17. The hashes of a tree depend on the paths and contents of the
    files only: two lists that give the same paths with the same contents
    in the same order, whatever sizes and modification times they carry
    and whatever the clock says, both make buildTreeFromFiles throw or
    yield trees with the same root hash (no file being named
    __proto__). *)
Theorem root_hash_ignores_sizes_and_times :
  forall now now' files files',
    map fi_path files = map fi_path files' ->
    map fi_content files = map fi_content files' ->
    plain_names files ->
    option_map hash (buildTreeFromFiles now localeCompare files) =
    option_map hash (buildTreeFromFiles now' localeCompare files').
Proof.
  intros now now' files files' Hp Hc Hplain.
  pose proof (tree_hash_of_contents now now' files files' Hp Hc Hplain) as H.
  unfold buildTreeFromFiles.
  destruct files as [|f files], files' as [|f' files']; try discriminate Hp;
    [cbn [option_map hash]; reflexivity|].
  destruct (buildNestedStructure now (f :: files)) as [r|],
           (buildNestedStructure now' (f' :: files')) as [r'|];
    try discriminate H; [exact H|reflexivity].
Qed.
End ContentsOnly.

Section SyncAgrees.
Import LocalIngestion.
Variable env : Env.

Lemma readForSync_files files :
  forall acc,
    fst (fold_left
           (fun acc file =>
              match env_read env (cf_uri file) with
              | Some contentStr =>
                  (fst acc ++ [{| fi_path := cf_path file; fi_content := contentStr;
                                  fi_size := Some (cf_size file);
                                  fi_lastModified := None |}],
                   dict_set (cf_path file) contentStr (snd acc))
              | None => acc
              end) files acc) =
    fst acc ++
    flat_map (fun file =>
                match env_read env (cf_uri file) with
                | Some content =>
                    [{| fi_path := cf_path file; fi_content := content;
                        fi_size := Some (cf_size file); fi_lastModified := None |}]
                | None => []
                end) files.
Proof.
  induction files as [|f files IH]; intros acc; cbn [fold_left flat_map].
  - now rewrite app_nil_r.
  - rewrite IH. destruct (env_read env (cf_uri f)); cbn [fst app].
    + now rewrite <- app_assoc.
    + reflexivity.
Qed.

Lemma reads_agree files :
  map fi_path (readForIngestion env files) = map fi_path (fst (readForSync env files)) /\
  map fi_content (readForIngestion env files) = map fi_content (fst (readForSync env files)).
Proof.
  unfold readForSync. rewrite readForSync_files. cbn [fst app]. unfold readForIngestion.
  induction files as [|f files [IHp IHc]]; [split; reflexivity|].
  cbn [flat_map]. rewrite !map_app, IHp, IHc.
  destruct (env_read env (cf_uri f)); split; reflexivity.
Qed.

(** X18. What a sync compares is what ingestion registered: for the same
    collected files with the same contents on disk, the tree syncWithMerkle
    builds has the root hash of the tree startIngestion built, although
    only the latter stamps the files with the time of reading, and
    whatever the clock says at the time of the sync (no file being named
    __proto__). *)
Theorem sync_rebuilds_the_ingested_hash :
  forall files later,
    (forall f, In f files -> last (String_split slash (cf_path f)) [] <> proto_key) ->
    option_map hash
      (buildTreeFromFiles (env_now env) (env_localeCompare env)
         (readForIngestion env files)) =
    option_map hash
      (buildTreeFromFiles later (env_localeCompare env) (fst (readForSync env files))).
Proof.
  intros files later Hplain. destruct (reads_agree files) as [Hp Hc].
  assert (Hnames : plain_names (readForIngestion env files)).
  { intros f Hf. unfold readForIngestion in Hf. apply in_flat_map in Hf as [c [Hc' Hf]].
    destruct (env_read env (cf_uri c)); [|contradiction]. destruct Hf as [<-|[]].
    exact (Hplain c Hc'). }
  pose proof (tree_hash_of_contents (env_localeCompare env) (env_now env) later
                _ _ Hp Hc Hnames) as H.
  unfold buildTreeFromFiles.
  destruct (readForIngestion env files) as [|f fs],
           (fst (readForSync env files)) as [|f' fs']; try discriminate Hp;
    [cbn [option_map hash]; reflexivity|].
  destruct (buildNestedStructure (env_now env) (f :: fs)) as [r|],
           (buildNestedStructure later (f' :: fs')) as [r'|];
    try discriminate H; [exact H|reflexivity].
Qed.
End SyncAgrees.

(* ------------------------------------------------------------------ *)
(** * The model selector *)

Section SelectorFacts.
Import ModelSelector.

(** X19. selectModel and getSelectedModel: selecting the id of a listed
    model fires onSelectedModelChanged with it, and getSelectedModel then
    returns the first listed model with that id; selecting an id that is
    not listed changes nothing and fires nothing.  The list of models is
    never touched. *)
Theorem selectModel_then_getSelectedModel :
  forall modelId st,
    models (fst (selectModel modelId st)) = models st /\
    match Array_find (fun m => str_eqb (id m) modelId) (models st) with
    | Some m =>
        id m = modelId /\ In m (models st) /\
        getSelectedModel (fst (selectModel modelId st)) = Some m /\
        selectedModelId (fst (selectModel modelId st)) = Some modelId /\
        snd (selectModel modelId st) = [SelectedModelChanged modelId]
    | None =>
        (forall m, In m (models st) -> id m <> modelId) /\
        selectModel modelId st = (st, [])
    end.
Proof.
  intros modelId st. unfold selectModel, getSelectedModel, Array_find.
  destruct (find _ (models st)) as [m|] eqn:E; cbn [fst snd models selectedModelId].
  - split; [reflexivity|]. apply find_some in E as Hm. destruct Hm as [Hin Hid].
    apply str_eqb_eq in Hid. repeat split; auto.
  - split; [reflexivity|]. split; [|reflexivity].
    intros m Hin Hid. apply (find_none _ _ E) in Hin. subst modelId.
    now rewrite str_eqb_refl in Hin.
Qed.

(** X20. fetchModels fires onModelsChanged exactly once, with the list it
    has just stored, and remembers the URL.  When the backend answers, a
    selection made before is kept and the default of the answer is taken
    only when there was none; when the fetch fails in any way, the
    selection is reset to gemini-2.5-pro, whatever was selected, and
    getSelectedModel finds it among the fallback models. *)
Theorem fetchModels_outcomes :
  forall reply url st,
    snd (fetchModels reply url st) = [ModelsChanged (models (fst (fetchModels reply url st)))] /\
    backendUrl (fst (fetchModels reply url st)) = url /\
    match reply with
    | LocalIngestion.Response true _ _ (LocalIngestion.JsonValue data) =>
        models (fst (fetchModels reply url st)) = mr_models data /\
        selectedModelId (fst (fetchModels reply url st)) =
          if truthy (selectedModelId st) then selectedModelId st
          else if truthy (mr_default data) then mr_default data
          else selectedModelId st
    | _ =>
        models (fst (fetchModels reply url st)) = fallbackModels /\
        exists m,
          getSelectedModel (fst (fetchModels reply url st)) = Some m /\
          id m = js "gemini-2.5-pro" /\ isDefault m = Some true
    end.
Proof.
  intros reply url st.
  destruct reply as [message|[|] code text [data|message]];
    cbn [fetchModels fst snd models backendUrl selectedModelId];
    repeat split; try (eexists; repeat split; reflexivity).
  destruct (truthy (selectedModelId st)); reflexivity.
Qed.
End SelectorFacts.

(* ------------------------------------------------------------------ *)
(** * Comparing with the tree of an emptied folder *)

Lemma collectDeleted_fold cs :
  Forall (fun c => forall acc,
            collectDeletedRecursive c acc =
            acc ++ map as_deleted (collectAddedRecursive c [])) cs ->
  forall acc,
    fold_left (fun acc child => collectDeletedRecursive child acc) cs acc =
    acc ++ map as_deleted (flat_map (fun c => collectAddedRecursive c []) cs).
Proof.
  induction 1 as [|c cs Hc _ IH]; intros acc; cbn [fold_left flat_map].
  - now rewrite app_nil_r.
  - rewrite IH, Hc, map_app. now rewrite <- app_assoc.
Qed.

Lemma collectDeleted_as_added t :
  forall acc,
    collectDeletedRecursive t acc = acc ++ map as_deleted (collectAddedRecursive t []).
Proof.
  induction t as [h ty p s m c cs l IH] using MerkleNode_induction. intros acc.
  destruct l.
  - reflexivity.
  - destruct cs as [cs|].
    + rewrite (collectAdded_directory (mkMerkleNode h ty p s m c (Some cs) false) cs
                 eq_refl eq_refl).
      cbn [collectDeletedRecursive isLeaf children].
      apply collectDeleted_fold, IH. reflexivity.
    + cbn. now rewrite app_nil_r.
Qed.

Lemma Map_of_children_distinct cs :
  NoDup (map path cs) -> Map_of_children cs = map (fun c => (path c, c)) cs.
Proof.
  unfold Map_of_children. intros Hnd.
  assert (H : forall m,
             (forall c, In c cs -> ~ In (path c) (map fst m)) ->
             fold_left (fun m child => dict_set (path child) child m) cs m =
             m ++ map (fun c => (path c, c)) cs).
  { induction cs as [|c cs IH]; intros m Hm; cbn [fold_left map].
    - now rewrite app_nil_r.
    - inversion Hnd as [|? ? Hc Hnd']; subst.
      rewrite dict_set_absent by (apply dict_get_None, Hm; now left).
      rewrite IH; [now rewrite <- app_assoc|exact Hnd'|].
      intros x Hx. rewrite map_app. cbn [map fst]. intros Hin.
      apply in_app_or in Hin as [Hin|[E|[]]].
      + apply (Hm x); [now right|exact Hin].
      + apply Hc. rewrite E. now apply in_map. }
  apply (H []). intros c _ [].
Qed.

Lemma Some_injective {A} (a b : A) : Some a = Some b -> a = b.
Proof. now intros [= ->]. Qed.

Lemma place_directory parts f own proto n' :
  place parts f (NDir own proto) = Some n' -> exists own' proto', n' = NDir own' proto'.
Proof.
  destruct parts as [|q [|q2 qs]].
  - intros [= <-]. eauto.
  - cbn [place]. destruct (str_eqb q proto_key); intros [= <-]; eauto.
  - rewrite place_inner. destruct (get_child own proto q); try discriminate;
      destruct (place _ _ _); try discriminate; intros [= <-]; eauto.
Qed.

Section Emptied.
Variable Date_now : Z.
Variable localeCompare : jsstring -> jsstring -> Z.

Lemma compare_with_empty old empty :
  isLeaf old = false -> isLeaf empty = false -> children empty = Some [] ->
  (forall cs, children old = Some cs -> NoDup (map path cs)) ->
  hash old <> hash empty ->
  compareTrees (Some old) empty =
  Some {| changes := collectDeletedRecursive old [];
          summary := summarizeChanges (collectDeletedRecursive old []);
          filesToProcess := getFilesToProcess (collectDeletedRecursive old []);
          deletedFiles :=
            map fc_path (filter (fun c => match changeType c with
                                          | Deleted => true | _ => false end)
                                (collectDeletedRecursive old [])) |}.
Proof.
  intros Hold Hempty Hcs Hnd Hne. unfold compareTrees.
  apply str_eqb_neq in Hne. rewrite Hne.
  assert (E : compareTreesRecursive (S (height empty)) old empty [] =
              Some (collectDeletedRecursive old [])); [|now rewrite E].
  cbn [compareTreesRecursive]. rewrite Hne, Hold, Hempty. cbn [andb negb].
  unfold children_or_empty. rewrite Hcs. cbn [Map_of_children fold_left].
  f_equal. destruct old as [h ty p s m c [cs|] l]; cbn [isLeaf children] in *; subst l.
  - rewrite (Map_of_children_distinct cs (Hnd cs eq_refl)).
    cbn [collectDeletedRecursive isLeaf children].
    clear. generalize (@nil FileChange).
    induction cs as [|x cs IH]; intros acc; [reflexivity|].
    cbn [map fold_left fst snd dict_get]. apply IH.
  - reflexivity.
Qed.

(** X21. Emptying the folder deletes exactly its files: under the
    conditions on the paths under which every file ends up in the tree
    under its own path, comparing the tree of the files with the tree of
    the empty list, the two root hashes being different, reports one
    Deleted change per file and nothing else, each with the file's path
    and the SHA-256 of its content as oldHash; there is nothing to
    process. *)
Theorem emptied_folder_deletes_every_file :
  forall files tree empty,
    NoDup (map fi_path files) ->
    no_nested_paths files ->
    unreserved_paths files ->
    no_root_directory files ->
    buildTreeFromFiles Date_now localeCompare files = Some tree ->
    buildTreeFromFiles Date_now localeCompare [] = Some empty ->
    hash tree <> hash empty ->
    exists result,
      compareTrees (Some tree) empty = Some result /\
      Permutation (changes result) (map deleted_change files) /\
      filesToProcess result = [] /\
      Permutation (deletedFiles result) (map fi_path files).
Proof.
  intros files tree empty Hnd Hnest Hres Hroot Htree Hempty Hne.
  destruct files as [|x files].
  { exfalso. apply Hne. rewrite Htree in Hempty. now injection Hempty as <-. }
  destruct (buildNestedStructure_spec Date_now _ Hnd Hnest Hres) as [N [HN [_ Hl]]].
  pose proof (buildNestedStructure_distinct_keys Date_now _ _ HN) as Hdk.
  unfold buildTreeFromFiles in Htree, Hempty. rewrite HN in Htree.
  assert (HNdir : exists own proto, N = NDir own proto).
  { destruct N as [f|own proto]; [|eauto]. exfalso.
    unfold buildNestedStructure in HN.
    assert (Hstep : forall l n,
               fold_left (fun root file =>
                            match root with
                            | Some r => place (String_split slash (fi_path file))
                                              (file_entry Date_now file) r
                            | None => None
                            end) l (Some n) = Some (NFile f) ->
               (exists own proto, n = NDir own proto) -> False).
    { induction l as [|y l IH]; intros n Hf [own [proto ->]]; [discriminate|].
      cbn [fold_left] in Hf.
      destruct (place _ _ (NDir own proto)) as [n'|] eqn:P.
      - apply (IH n' Hf). eapply place_directory; eauto.
      - clear -Hf. induction l as [|z l IHl]; [discriminate|]. apply IHl. exact Hf. }
    apply (Hstep (x :: files) (NDir [] None)); [exact HN|eauto]. }
  destruct HNdir as (own & proto & ->).
  apply Some_injective in Htree, Hempty. symmetry in Htree. subst empty.
  rename Htree into Etree.
  eexists. split.
  { apply compare_with_empty; [now subst tree|reflexivity|reflexivity| |exact Hne].
    intros cs Hcs. subst tree.
    eapply (build_sibling_paths Date_now localeCompare); eauto. apply subnodes_self. }
  cbn [changes filesToProcess deletedFiles].
  rewrite collectDeleted_as_added. cbn [app].
  assert (Hch : Permutation (map as_deleted (collectAddedRecursive tree []))
                            (map deleted_change (x :: files))).
  { subst tree. rewrite collectAdded_build, Hl, !map_map.
    erewrite map_ext_in; [apply Permutation_refl|].
    intros f Hf. unfold as_deleted, added_at, deleted_change.
    cbn [fst snd file_entry fe_content fc_path newHash].
    f_equal. rewrite walk_root.
    - apply String_split_join.
    - apply String_split_nonempty.
    - intros rest. apply Hroot. exact Hf. }
  split; [exact Hch|]. split.
  - assert (Hnone : forall l, getFilesToProcess (map as_deleted l) = []).
    { unfold getFilesToProcess. induction l as [|c l IH]; [reflexivity|].
      cbn [map filter as_deleted changeType]. exact IH. }
    apply Hnone.
  - assert (Hf : forall l, filter (fun c => match changeType c with
                                           | Deleted => true | _ => false end)
                                  (map as_deleted l) = map as_deleted l).
    { induction l as [|c l IH]; [reflexivity|]. cbn [map filter as_deleted changeType].
      now rewrite IH. }
    rewrite Hf, (Permutation_map fc_path Hch), map_map. apply Permutation_refl.
Qed.
End Emptied.

Lemma emptied_folder_deletes_every_file_witness :
  exists tree empty,
    NoDup (map fi_path twoSources) /\ no_nested_paths twoSources /\
    unreserved_paths twoSources /\ no_root_directory twoSources /\
    buildTreeFromFiles 0 letterCollation twoSources = Some tree /\
    buildTreeFromFiles 0 letterCollation [] = Some empty /\
    hash tree <> hash empty /\
    exists result,
      compareTrees (Some tree) empty = Some result /\
      Permutation (changes result) (map deleted_change twoSources) /\
      filesToProcess result = [] /\
      Permutation (deletedFiles result) (map fi_path twoSources).
Proof.
  eexists. eexists.
  split; [exact twoSources_distinct|]. split; [exact twoSources_not_nested|].
  split; [exact twoSources_unreserved|]. split; [exact twoSources_no_root_directory|].
  split; [exact twoSources_tree|]. split; [reflexivity|].
  match goal with |- ?A /\ _ => assert (Hne : A) by vm_differ end.
  split; [exact Hne|].
  exact (emptied_folder_deletes_every_file 0 letterCollation twoSources _ _
           twoSources_distinct twoSources_not_nested
           twoSources_unreserved twoSources_no_root_directory
           twoSources_tree eq_refl Hne).
Defined.

(* ------------------------------------------------------------------ *)
(** * The further properties at concrete inputs *)

Lemma built_tree_nodes_well_formed_witness :
  exists tree,
    buildTreeFromFiles 0 letterCollation twoSources = Some tree /\
    In tree (subnodes tree) /\
    (isLeaf tree = true <-> nodeType tree = File) /\
    (isLeaf tree = true <-> children tree = None) /\
    (nodeType tree = Directory -> size tree = 0%Z) /\
    length (hash tree) = 64%nat /\ Forall lower_hex (hash tree).
Proof.
  eexists. split; [exact twoSources_tree|]. split; [apply subnodes_self|].
  exact (built_tree_nodes_well_formed 0 letterCollation twoSources _ _
           twoSources_tree (subnodes_self _)).
Defined.

Lemma directory_hash_covers_children_witness :
  exists tree cs,
    Consistent letterCollation /\
    buildTreeFromFiles 0 letterCollation twoSources = Some tree /\
    In tree (subnodes tree) /\
    children tree = Some cs /\
    hash tree = hashContent (concat (map (fun c => hash c ++ path c) cs)).
Proof.
  eexists. eexists. split; [apply letterCollation_consistent|].
  split; [exact twoSources_tree|]. split; [apply subnodes_self|].
  split; [apply build_children|].
  exact (directory_hash_covers_children 0 letterCollation letterCollation_consistent
           twoSources _ _ _ twoSources_tree (subnodes_self _) (build_children _ _ _ _ _)).
Defined.

Lemma path_through_earlier_file_throws_witness :
  [plainFile "a" "x"; plainFile "a/b" "y"] = [] ++ plainFile "a" "x" :: [plainFile "a/b" "y"] /\
  In (plainFile "a/b" "y") [plainFile "a/b" "y"] /\
  parts_of (plainFile "a/b" "y") = parts_of (plainFile "a" "x") ++ [js "b"] /\
  [js "b"] <> [] /\
  last (parts_of (plainFile "a" "x")) [] <> proto_key /\
  buildTreeFromFiles 0 letterCollation [plainFile "a" "x"; plainFile "a/b" "y"] = None.
Proof.
  assert (H : last (parts_of (plainFile "a" "x")) [] <> proto_key) by vm_differ.
  split; [reflexivity|]. split; [now left|]. split; [reflexivity|].
  split; [discriminate|]. split; [exact H|].
  apply (path_through_earlier_file_throws 0 letterCollation
           [plainFile "a" "x"; plainFile "a/b" "y"] [] (plainFile "a" "x")
           [plainFile "a/b" "y"] (plainFile "a/b" "y") [js "b"]);
    [reflexivity|now left|reflexivity|discriminate|exact H].
Defined.

Lemma repeated_path_last_wins_witness :
  fi_path (plainFile "a" "x") = fi_path (plainFile "a" "y") /\
  buildTreeFromFiles 0 letterCollation ([] ++ plainFile "a" "x" :: plainFile "a" "y" :: []) =
  buildTreeFromFiles 0 letterCollation ([] ++ plainFile "a" "y" :: []).
Proof.
  split; [reflexivity|].
  apply (repeated_path_last_wins 0 letterCollation [] (plainFile "a" "x") (plainFile "a" "y") []).
  reflexivity.
Defined.

Lemma collected_files_pass_the_filters_witness :
  let env := Sample.world Sample.deletesOnly in
  let uri := LocalIngestion.mkURI (js "file:///w/a.ts") (js "/w/a.ts") (js "a.ts") (js ".ts") in
  let f := LocalIngestion.mkCollectedFile uri (js "a.ts") 5 in
  In f (LocalIngestion.collectFiles env Sample.workspace) /\
  exists size,
    In (LocalIngestion.FsFile (LocalIngestion.cf_uri f) size)
       (FileSystem.visited Sample.workspace) /\
    Set_has LocalIngestion.CODE_EXTENSIONS
      (LocalIngestion.env_toLowerCase env
         (LocalIngestion.uri_ext (LocalIngestion.cf_uri f))) = true /\
    Set_has LocalIngestion.IGNORE_EXTENSIONS
      (LocalIngestion.env_toLowerCase env
         (LocalIngestion.uri_ext (LocalIngestion.cf_uri f))) = false /\
    LocalIngestion.cf_size f = or_default size 0%Z /\
    (LocalIngestion.cf_size f <= 1024 * 1024)%Z.
Proof.
  intros env uri f.
  assert (H : In f (LocalIngestion.collectFiles env Sample.workspace)) by (now left).
  split; [exact H|].
  exact (collected_files_pass_the_filters env Sample.workspace f H).
Defined.

Lemma changed_files_are_the_needed_files_read_witness :
  js "a.ts" <> proto_key /\
  dict_get (js "a.ts")
    (LocalIngestion.changedFilesFor [(js "a.ts", js "hello")] [js "a.ts"; js "b.ts"]) =
  if Set_has [js "a.ts"; js "b.ts"] (js "a.ts")
  then dict_get (js "a.ts") [(js "a.ts", js "hello")] else None.
Proof.
  assert (H : js "a.ts" <> proto_key) by vm_differ.
  split; [exact H|].
  exact (changed_files_are_the_needed_files_read
           [(js "a.ts", js "hello")] [js "a.ts"; js "b.ts"] (js "a.ts") H).
Defined.

Lemma ingestFolder_announces_its_project_witness :
  let env := Sample.world Sample.deletesOnly in
  LocalIngestion.initialized Sample.ready = true /\
  exists r s' delta,
    LocalIngestion.ingestFolder env Sample.workspace 1 Sample.ready [] = (r, s', [] ++ delta) /\
    match r with
    | None => LocalIngestion.fired delta = [] /\ s' = Sample.ready
    | Some p =>
        exists events,
          LocalIngestion.fired delta = LocalIngestion.ProjectChanged (Some p) :: events /\
          existsb Frame.is_project_event events = false
    end.
Proof.
  intros env. split; [reflexivity|].
  exact (ingestFolder_announces_its_project env Sample.workspace 1 Sample.ready [] eq_refl).
Defined.


Lemma twoSources_plain_names : plain_names twoSources.
Proof. intros f [<-|[<-|[]]]; vm_differ. Qed.

Lemma root_hash_ignores_sizes_and_times_witness :
  let stamped :=
    map (fun f => {| fi_path := fi_path f; fi_content := fi_content f;
                     fi_size := Some 1%Z; fi_lastModified := Some 5%Z |}) twoSources in
  map fi_path twoSources = map fi_path stamped /\
  map fi_content twoSources = map fi_content stamped /\
  plain_names twoSources /\
  option_map hash (buildTreeFromFiles 0 letterCollation twoSources) =
  option_map hash (buildTreeFromFiles 7 letterCollation stamped).
Proof.
  intros stamped. split; [reflexivity|]. split; [reflexivity|].
  split; [exact twoSources_plain_names|].
  exact (root_hash_ignores_sizes_and_times letterCollation 0%Z 7%Z twoSources stamped
           eq_refl eq_refl twoSources_plain_names).
Defined.

Lemma sample_collected_plain_names :
  forall f,
    In f (LocalIngestion.collectFiles (Sample.world Sample.deletesOnly) Sample.workspace) ->
    last (String_split slash (LocalIngestion.cf_path f)) [] <> proto_key.
Proof. intros f [<-|[]]. vm_differ. Qed.

Lemma sync_rebuilds_the_ingested_hash_witness :
  let env := Sample.world Sample.deletesOnly in
  let files := LocalIngestion.collectFiles env Sample.workspace in
  (forall f, In f files ->
     last (String_split slash (LocalIngestion.cf_path f)) [] <> proto_key) /\
  option_map hash
    (buildTreeFromFiles (LocalIngestion.env_now env) (LocalIngestion.env_localeCompare env)
       (LocalIngestion.readForIngestion env files)) =
  option_map hash
    (buildTreeFromFiles 9 (LocalIngestion.env_localeCompare env)
       (fst (LocalIngestion.readForSync env files))).
Proof.
  intros env files. split; [exact sample_collected_plain_names|].
  exact (sync_rebuilds_the_ingested_hash env files 9%Z sample_collected_plain_names).
Defined.

Lemma ingestion_keeps_its_tree_witness :
  let env := Sample.world Sample.rejectsBatches in
  let read := LocalIngestion.readForIngestion env
                (LocalIngestion.collectFiles env Sample.workspace) in
  exists tree,
    read <> [] /\
    buildTreeFromFiles (LocalIngestion.env_now env) (LocalIngestion.env_localeCompare env)
      read = Some tree /\
    exists s' delta,
      LocalIngestion.startIngestion env (js "p1") Sample.workspace Sample.ready [] =
        (tt, s',
         [] ++ LocalIngestion.Fetch (LocalIngestion.backendUrl Sample.ready)
                 (LocalIngestion.authToken Sample.ready)
                 (LocalIngestion.PostInit (js "p1") (Z.of_nat (length read)) tree)
               :: delta) /\
      LocalIngestion.currentMerkleTree s' = Some tree.
Proof.
  intros env read.
  assert (H : read <> []) by discriminate.
  eexists. split; [exact H|]. split; [reflexivity|].
  exact (ingestion_keeps_its_tree env (js "p1") Sample.workspace Sample.ready [] _
           H eq_refl).
Defined.
